(** * PicoModal: a shallow embedding of [src/picoModal.js]

    The script is one closure over [window] and [document].  It is
    embedded as state-passing code over an explicit store:

    - the part of the document the script touches ([dom], [body]);
    - the plain objects reachable from the configuration ([heap]);
    - the timer queue of [window.setTimeout] ([timers]);
    - the variables captured by the closure of one [picoModal] call.

    Code that can raise (calling [undefined], reading a property of
    [undefined], [removeChild] of a node that is not a child) lives in a
    small state-and-exception monad.

    An element is what the script reads and writes of it: its class, its
    [style] as a plain property map, its contents and its click
    listeners.  Nodes the caller supplies are named apart from the
    elements [make] creates.  The state also carries a ghost [trace] of
    the builders entered and the callbacks invoked.  *)

From Stdlib Require Import ZArith.
From stdpp Require Import gmap strings list fin_maps pretty.

Local Open Scope string_scope.
Local Open Scope list_scope.

(** ** Numbers

    A JavaScript number is modelled as [NaN], an infinity, or the dyadic
    rational [m / 2^e]; every finite double is such a rational.  The three
    operations the script uses (negation, halving, times one hundred) are
    exact here, so the model agrees with the script wherever the double
    operations do not round.  *)

Inductive num :=
| NaN
| Infinity (negative : bool)
| Fin (m : Z) (e : nat).

Definition num_of_Z (z : Z) : num := Fin z 0.

(** unary minus *)
Definition num_neg (x : num) : num :=
  match x with
  | NaN => NaN
  | Infinity b => Infinity (negb b)
  | Fin m e => Fin (- m) e
  end.

(** [x / 2] *)
Definition num_half (x : num) : num :=
  match x with
  | Fin m e => Fin m (S e)
  | other => other
  end.

(** [x * 100] *)
Definition num_times100 (x : num) : num :=
  match x with
  | Fin m e => Fin (m * 100) e
  | other => other
  end.

Definition digit_char (d : Z) : Ascii.ascii :=
  Ascii.ascii_of_nat (48 + Z.to_nat d).

(** the decimal digits of [r / d] after the point, for [0 <= r < d] *)
Fixpoint frac_digits (fuel : nat) (r d : Z) : string :=
  match fuel with
  | O => ""
  | S fuel' =>
      if (r =? 0)%Z then ""
      else String (digit_char (r * 10 / d))
                  (frac_digits fuel' ((r * 10) mod d) d)
  end.

(** ToString on numbers (decimal notation, no exponent) *)
Definition num_to_string (x : num) : string :=
  match x with
  | NaN => "NaN"
  | Infinity false => "Infinity"
  | Infinity true => "-Infinity"
  | Fin m e =>
      let d := (2 ^ Z.of_nat e)%Z in
      let a := Z.abs m in
      let frac := frac_digits e (a mod d) d in
      (if (m <? 0)%Z then "-" else "")
        +:+ pretty (a / d)%Z
        +:+ (if String.eqb frac "" then "" else "." +:+ frac)
  end.

(** ** Values *)

(** What a configuration key or a style property can hold. *)
Inductive value :=
| VUndefined
| VNumber (n : num)
| VString (s : string)
| VNode (node : nat).

(** A plain object holding style properties: [{opacity: 0.5, ...}]. *)
Abbreviation styles := (gmap string value).

(** The configuration bag, with the keys the script reads, each of the
    type the documentation gives it: [content] markup or a node, [width] a
    number, the three style keys objects (references into the heap), the
    two switches booleans, [closeHtml] markup.  [None] is an absent key. *)
Record config := {
  content : option value;
  width : option num;
  overlayStyles : option nat;
  modalStyles : option nat;
  closeStyles : option nat;
  overlayClose : option bool;
  closeButton : option bool;
  closeHtml : option string
}.

(** The argument of [picoModal]: markup, a node, or a configuration. *)
Inductive argument :=
| ArgString (s : string)
| ArgNode (node : nat)
| ArgOptions (o : config).

(** ** The document *)

(** The two functions the script binds to a click. *)
Inductive handler :=
| HClose          (* the closure's [close] *)
| HNoop.          (* [function(){}] *)

(** What an element contains, in document order. *)
Inductive item :=
| Html (markup : string)        (* set through [innerHTML] *)
| ForeignNode (node : nat)      (* a node the caller supplied *)
| ChildElem (id : nat).         (* an element made by [make] *)

Record element := {
  className : string;
  style : styles;
  contents : list item;
  listeners : list (string * handler)
}.

(** The handle [make] returns; its methods are in [Module Elem]. *)
Record handle := Handle { elem : nat }.

(** What the script assumes of the browser. *)
Record browser := {
  clientWidth : list element -> nat -> Z;   (* layout: rendered width *)
  string_to_number : string -> num;         (* ToNumber on a string *)
  Node_is_object : bool;                    (* typeof Node === "object" *)
  has_attachEvent : bool                    (* elem.attachEvent is there *)
}.

(** ** The store *)

Definition callback := nat.

(** One pending [setTimeout]: the callback and the argument bound to it. *)
Definition timer : Type := callback * nat.

Inductive part := Overlay | Content | CloseButton.

(** Ghost events: which builder ran, which callback was invoked. *)
Inductive event :=
| Built (p : part)
| Invoked (cb : callback) (arg : nat).

Record state := {
  browser_env : browser;
  (* the closure of one picoModal call *)
  iface : nat;                                (* identity of the facade *)
  options : config;
  (* the page *)
  dom : list element;
  body : list nat;                            (* children of document.body *)
  heap : list styles;
  timers : list timer;
  trace : list event;
  (* var afterShowEvent, afterCloseEvent, afterCreateEvent: callbacks *)
  afterShow_callbacks : list callback;
  afterClose_callbacks : list callback;
  afterCreate_callbacks : list callback;
  (* var modalElem, shadowElem, closeElem: false once set to undefined *)
  modalElem_defined : bool;
  shadowElem_defined : bool;
  closeElem_defined : bool;
  (* the cells of the three memoize calls: None while notCalled *)
  modalElem_result : option (option handle);
  shadowElem_result : option (option handle);
  closeElem_result : option (option handle)
}.

Definition set_dom (f : list element -> list element) (s : state) : state :=
  {| browser_env := browser_env s; iface := iface s; options := options s;
     dom := f (dom s); body := body s; heap := heap s; timers := timers s;
     trace := trace s; afterShow_callbacks := afterShow_callbacks s;
     afterClose_callbacks := afterClose_callbacks s;
     afterCreate_callbacks := afterCreate_callbacks s;
     modalElem_defined := modalElem_defined s;
     shadowElem_defined := shadowElem_defined s;
     closeElem_defined := closeElem_defined s;
     modalElem_result := modalElem_result s;
     shadowElem_result := shadowElem_result s;
     closeElem_result := closeElem_result s |}.

Definition set_body (f : list nat -> list nat) (s : state) : state :=
  {| browser_env := browser_env s; iface := iface s; options := options s;
     dom := dom s; body := f (body s); heap := heap s; timers := timers s;
     trace := trace s; afterShow_callbacks := afterShow_callbacks s;
     afterClose_callbacks := afterClose_callbacks s;
     afterCreate_callbacks := afterCreate_callbacks s;
     modalElem_defined := modalElem_defined s;
     shadowElem_defined := shadowElem_defined s;
     closeElem_defined := closeElem_defined s;
     modalElem_result := modalElem_result s;
     shadowElem_result := shadowElem_result s;
     closeElem_result := closeElem_result s |}.

Definition set_heap (f : list styles -> list styles) (s : state) : state :=
  {| browser_env := browser_env s; iface := iface s; options := options s;
     dom := dom s; body := body s; heap := f (heap s); timers := timers s;
     trace := trace s; afterShow_callbacks := afterShow_callbacks s;
     afterClose_callbacks := afterClose_callbacks s;
     afterCreate_callbacks := afterCreate_callbacks s;
     modalElem_defined := modalElem_defined s;
     shadowElem_defined := shadowElem_defined s;
     closeElem_defined := closeElem_defined s;
     modalElem_result := modalElem_result s;
     shadowElem_result := shadowElem_result s;
     closeElem_result := closeElem_result s |}.

Definition set_timers (f : list timer -> list timer) (s : state) : state :=
  {| browser_env := browser_env s; iface := iface s; options := options s;
     dom := dom s; body := body s; heap := heap s; timers := f (timers s);
     trace := trace s; afterShow_callbacks := afterShow_callbacks s;
     afterClose_callbacks := afterClose_callbacks s;
     afterCreate_callbacks := afterCreate_callbacks s;
     modalElem_defined := modalElem_defined s;
     shadowElem_defined := shadowElem_defined s;
     closeElem_defined := closeElem_defined s;
     modalElem_result := modalElem_result s;
     shadowElem_result := shadowElem_result s;
     closeElem_result := closeElem_result s |}.

Definition set_trace (f : list event -> list event) (s : state) : state :=
  {| browser_env := browser_env s; iface := iface s; options := options s;
     dom := dom s; body := body s; heap := heap s; timers := timers s;
     trace := f (trace s); afterShow_callbacks := afterShow_callbacks s;
     afterClose_callbacks := afterClose_callbacks s;
     afterCreate_callbacks := afterCreate_callbacks s;
     modalElem_defined := modalElem_defined s;
     shadowElem_defined := shadowElem_defined s;
     closeElem_defined := closeElem_defined s;
     modalElem_result := modalElem_result s;
     shadowElem_result := shadowElem_result s;
     closeElem_result := closeElem_result s |}.

Definition set_afterShow_callbacks (f : list callback -> list callback) (s : state) : state :=
  {| browser_env := browser_env s; iface := iface s; options := options s;
     dom := dom s; body := body s; heap := heap s; timers := timers s;
     trace := trace s; afterShow_callbacks := f (afterShow_callbacks s);
     afterClose_callbacks := afterClose_callbacks s;
     afterCreate_callbacks := afterCreate_callbacks s;
     modalElem_defined := modalElem_defined s;
     shadowElem_defined := shadowElem_defined s;
     closeElem_defined := closeElem_defined s;
     modalElem_result := modalElem_result s;
     shadowElem_result := shadowElem_result s;
     closeElem_result := closeElem_result s |}.

Definition set_afterClose_callbacks (f : list callback -> list callback) (s : state) : state :=
  {| browser_env := browser_env s; iface := iface s; options := options s;
     dom := dom s; body := body s; heap := heap s; timers := timers s;
     trace := trace s; afterShow_callbacks := afterShow_callbacks s;
     afterClose_callbacks := f (afterClose_callbacks s);
     afterCreate_callbacks := afterCreate_callbacks s;
     modalElem_defined := modalElem_defined s;
     shadowElem_defined := shadowElem_defined s;
     closeElem_defined := closeElem_defined s;
     modalElem_result := modalElem_result s;
     shadowElem_result := shadowElem_result s;
     closeElem_result := closeElem_result s |}.

Definition set_afterCreate_callbacks (f : list callback -> list callback) (s : state) : state :=
  {| browser_env := browser_env s; iface := iface s; options := options s;
     dom := dom s; body := body s; heap := heap s; timers := timers s;
     trace := trace s; afterShow_callbacks := afterShow_callbacks s;
     afterClose_callbacks := afterClose_callbacks s;
     afterCreate_callbacks := f (afterCreate_callbacks s);
     modalElem_defined := modalElem_defined s;
     shadowElem_defined := shadowElem_defined s;
     closeElem_defined := closeElem_defined s;
     modalElem_result := modalElem_result s;
     shadowElem_result := shadowElem_result s;
     closeElem_result := closeElem_result s |}.

Definition set_modalElem_defined (x : bool) (s : state) : state :=
  {| browser_env := browser_env s; iface := iface s; options := options s;
     dom := dom s; body := body s; heap := heap s; timers := timers s;
     trace := trace s; afterShow_callbacks := afterShow_callbacks s;
     afterClose_callbacks := afterClose_callbacks s;
     afterCreate_callbacks := afterCreate_callbacks s;
     modalElem_defined := x; shadowElem_defined := shadowElem_defined s;
     closeElem_defined := closeElem_defined s;
     modalElem_result := modalElem_result s;
     shadowElem_result := shadowElem_result s;
     closeElem_result := closeElem_result s |}.

Definition set_shadowElem_defined (x : bool) (s : state) : state :=
  {| browser_env := browser_env s; iface := iface s; options := options s;
     dom := dom s; body := body s; heap := heap s; timers := timers s;
     trace := trace s; afterShow_callbacks := afterShow_callbacks s;
     afterClose_callbacks := afterClose_callbacks s;
     afterCreate_callbacks := afterCreate_callbacks s;
     modalElem_defined := modalElem_defined s; shadowElem_defined := x;
     closeElem_defined := closeElem_defined s;
     modalElem_result := modalElem_result s;
     shadowElem_result := shadowElem_result s;
     closeElem_result := closeElem_result s |}.

Definition set_closeElem_defined (x : bool) (s : state) : state :=
  {| browser_env := browser_env s; iface := iface s; options := options s;
     dom := dom s; body := body s; heap := heap s; timers := timers s;
     trace := trace s; afterShow_callbacks := afterShow_callbacks s;
     afterClose_callbacks := afterClose_callbacks s;
     afterCreate_callbacks := afterCreate_callbacks s;
     modalElem_defined := modalElem_defined s;
     shadowElem_defined := shadowElem_defined s; closeElem_defined := x;
     modalElem_result := modalElem_result s;
     shadowElem_result := shadowElem_result s;
     closeElem_result := closeElem_result s |}.

Definition set_modalElem_result (x : option (option handle)) (s : state) : state :=
  {| browser_env := browser_env s; iface := iface s; options := options s;
     dom := dom s; body := body s; heap := heap s; timers := timers s;
     trace := trace s; afterShow_callbacks := afterShow_callbacks s;
     afterClose_callbacks := afterClose_callbacks s;
     afterCreate_callbacks := afterCreate_callbacks s;
     modalElem_defined := modalElem_defined s;
     shadowElem_defined := shadowElem_defined s;
     closeElem_defined := closeElem_defined s; modalElem_result := x;
     shadowElem_result := shadowElem_result s;
     closeElem_result := closeElem_result s |}.

Definition set_shadowElem_result (x : option (option handle)) (s : state) : state :=
  {| browser_env := browser_env s; iface := iface s; options := options s;
     dom := dom s; body := body s; heap := heap s; timers := timers s;
     trace := trace s; afterShow_callbacks := afterShow_callbacks s;
     afterClose_callbacks := afterClose_callbacks s;
     afterCreate_callbacks := afterCreate_callbacks s;
     modalElem_defined := modalElem_defined s;
     shadowElem_defined := shadowElem_defined s;
     closeElem_defined := closeElem_defined s;
     modalElem_result := modalElem_result s; shadowElem_result := x;
     closeElem_result := closeElem_result s |}.

Definition set_closeElem_result (x : option (option handle)) (s : state) : state :=
  {| browser_env := browser_env s; iface := iface s; options := options s;
     dom := dom s; body := body s; heap := heap s; timers := timers s;
     trace := trace s; afterShow_callbacks := afterShow_callbacks s;
     afterClose_callbacks := afterClose_callbacks s;
     afterCreate_callbacks := afterCreate_callbacks s;
     modalElem_defined := modalElem_defined s;
     shadowElem_defined := shadowElem_defined s;
     closeElem_defined := closeElem_defined s;
     modalElem_result := modalElem_result s;
     shadowElem_result := shadowElem_result s; closeElem_result := x |}.

(** ** Computations that may raise *)

Inductive error :=
| TypeError         (* calling or dereferencing [undefined] *)
| NotFoundError.    (* [removeChild] of a node that is not a child *)

(** An exception keeps the store as it was when it was raised. *)
Inductive outcome (A : Type) :=
| Ret (a : A) (s : state)
| Throw (e : error) (s : state).
Arguments Ret {A} a s.
Arguments Throw {A} e s.

Definition state_of {A} (o : outcome A) : state :=
  match o with
  | Ret _ s => s
  | Throw _ s => s
  end.

Definition M (A : Type) : Type := state -> outcome A.

Definition ret {A} (a : A) : M A := fun s => Ret a s.

Definition throw {A} (e : error) : M A := fun s => Throw e s.

Definition bind {A B} (m : M A) (k : A -> M B) : M B :=
  fun s =>
    match m s with
    | Ret a s' => k a s'
    | Throw e s' => Throw e s'
    end.

Notation "'do' x <- m ;; k" := (bind m (fun x => k))
  (at level 10, x name, m at level 99, k at level 200).
Notation "'run' m ;; k" := (bind m (fun _ => k))
  (at level 10, m at level 99, k at level 200).

Definition modify (f : state -> state) : M unit := fun s => Ret tt (f s).

Definition read {A} (f : state -> A) : M A := fun s => Ret (f s) s.

(** [r.method(...)] where [r] is what the previous call returned *)
Definition invoke {A} (r : option handle) (method : handle -> M A) : M A :=
  match r with
  | Some h => method h
  | None => throw TypeError
  end.

(** [f()] where [f] is a closure variable that may have become undefined *)
Definition call {A} (defined : state -> bool) (f : M A) : M A :=
  fun s => if defined s then f s else Throw TypeError s.

(** ** Helpers of the script *)

Definition truthy (v : value) : bool :=
  match v with
  | VUndefined => false
  | VNumber NaN => false
  | VNumber (Fin m _) => negb (m =? 0)%Z
  | VNumber (Infinity _) => true
  | VString s => negb (String.eqb s "")
  | VNode _ => true
  end.

(** function isNode(value) *)
Definition isNode (b : browser) (v : value) : bool :=
  if Node_is_object b then
    match v with VNode _ => true | _ => false end      (* instanceof Node *)
  else
    truthy v
    && match v with VNode _ => true | _ => false end   (* typeof "object" *)
    && match v with VNode _ => true | _ => false end.  (* numeric nodeType *)

(** function isString(value) *)
Definition isString (v : value) : bool :=
  match v with VString _ => true | _ => false end.

Definition to_number (b : browser) (v : value) : num :=
  match v with
  | VUndefined => NaN
  | VNumber n => n
  | VString s => string_to_number b s
  | VNode _ => NaN
  end.

Definition to_string (v : value) : string :=
  match v with
  | VUndefined => "undefined"
  | VNumber n => num_to_string n
  | VString s => s
  | VNode _ => "[object HTMLElement]"
  end.

(** an object literal: a fresh object in the heap *)
Definition new_object (o : styles) : M nat :=
  fun s => Ret (length (heap s)) (set_heap (fun hp => hp ++ [o]) s).

(** the properties of the object at [l] *)
Definition object (l : nat) (s : state) : styles := default ∅ (heap s !! l).

Definition get_prop (l : nat) (k : string) (s : state) : value :=
  default VUndefined (object l s !! k).

(** ** function make(parent): the element handle *)

Module Elem.

Definition new_element : element :=
  {| className := ""; style := ∅; contents := []; listeners := [] |}.

Definition set_className (c : string) (e : element) : element :=
  {| className := c; style := style e;
     contents := contents e; listeners := listeners e |}.

Definition set_style (st : styles) (e : element) : element :=
  {| className := className e; style := st;
     contents := contents e; listeners := listeners e |}.

Definition set_contents (c : list item) (e : element) : element :=
  {| className := className e; style := style e;
     contents := c; listeners := listeners e |}.

Definition set_listeners (ls : list (string * handler)) (e : element)
  : element :=
  {| className := className e; style := style e;
     contents := contents e; listeners := ls |}.

(** [parent.appendChild(c)] *)
Definition appendChild (parent : nat) (c : item) : state -> state :=
  set_dom (alter (fun e => set_contents (contents e ++ [c]) e) parent).

(** [elem.style[prop] = v] *)
Definition set_style_prop (id : nat) (prop : string) (v : value)
  : state -> state :=
  set_dom (alter (fun e => set_style (<[prop := v]> (style e)) e) id).

(** A small interface for creating and managing a dom element:
    [document.createElement('div')], appended to [parent || document.body];
    the methods of the handle it returns follow. *)
Definition make (parent : option nat) : M (option handle) :=
  fun s =>
    let id := length (dom s) in
    let s1 := set_dom (fun d => d ++ [new_element]) s in
    let s2 := match parent with
              | Some p => appendChild p (ChildElem id) s1
              | None => set_body (fun b => b ++ [id]) s1
              end in
    Ret (Some (Handle id)) s2.

(** Creates a child of this node *)
Definition child (h : handle) : M (option handle) := make (Some (elem h)).

Definition opacity_filter (b : browser) (opacity : value) : value :=
  VString ("alpha(opacity="
             +:+ num_to_string (num_times100 (to_number b opacity))
             +:+ ")").

(** [if (typeof styles.opacity !== "undefined") styles.filter = ...] *)
Definition add_filter (b : browser) (o : styles) : styles :=
  match default VUndefined (o !! "opacity") with
  | VUndefined => o
  | opacity => <["filter" := opacity_filter b opacity]> o
  end.

(** Applies a set of styles to an element.  The argument is a reference
    to an object, or a falsy value ([None]).  The loop over the own
    properties of [styles] overwrites those of [elem.style]. *)
Definition stylize (styles : option nat) (h : handle) : M (option handle) :=
  do l <- match styles with
          | Some l => ret l
          | None => new_object ∅
          end ;;
  run modify (fun s => set_heap (alter (add_filter (browser_env s)) l) s) ;;
  run modify (fun s =>
    set_dom (alter (fun e => set_style (object l s ∪ style e) e) (elem h))
            s) ;;
  ret (Some h).

(** Adds a class name *)
Definition clazz (c : string) (h : handle) : M (option handle) :=
  fun s =>
    Ret (Some h)
        (set_dom (alter (fun e => set_className (className e +:+ c) e)
                        (elem h)) s).

(** Sets the HTML *)
Definition html (content : value) (h : handle) : M (option handle) :=
  fun s =>
    if isNode (browser_env s) content then
      match content with
      | VNode n => Ret (Some h) (appendChild (elem h) (ForeignNode n) s)
      | _ => Throw TypeError s
      end
    else
      Ret (Some h)
          (set_dom (alter (set_contents [Html (to_string content)])
                          (elem h)) s).

(** Returns the width of this element *)
Definition getWidth (h : handle) : M num :=
  fun s => Ret (num_of_Z (clientWidth (browser_env s) (dom s) (elem h))) s.

(** Adds a click handler to this element *)
Definition onClick (cb : handler) (h : handle) : M (option handle) :=
  fun s =>
    let name := if has_attachEvent (browser_env s) then "onclick"
                else "click" in
    Ret (Some h)
        (set_dom (alter (fun e => set_listeners (listeners e ++ [(name, cb)]) e)
                        (elem h)) s).

(** Removes this element from the DOM *)
Definition destroy (h : handle) : M (option handle) :=
  fun s =>
    if decide (elem h ∈ body s) then
      Ret None (set_body (filter (fun i => i ≠ elem h)) s)
    else Throw NotFoundError s.

(** Hides this element *)
Definition hide (h : handle) : M (option handle) :=
  fun s => Ret None (set_style_prop (elem h) "display" (VString "none") s).

(** Shows this element *)
Definition show (h : handle) : M (option handle) :=
  fun s => Ret None (set_style_prop (elem h) "display" (VString "block") s).

End Elem.

(** ** function memoize(callback) *)

(** The cell holds [notCalled] and [result]: [None] while [notCalled].
    [p] is ghost: it records in the trace that the callback was entered. *)
Definition memoize {A} (cell : state -> option A)
    (set_cell : option A -> state -> state) (p : part) (callback : M A)
  : M A :=
  fun s =>
    match cell s with
    | None =>
        match callback (set_trace (fun t => t ++ [Built p]) s) with
        | Ret result s' => Ret result (set_cell (Some result) s')
        | Throw e s' => Throw e s'
        end
    | Some result => Ret result s
    end.

(** ** function observable() *)

Inductive observable := afterShowEvent | afterCloseEvent | afterCreateEvent.

Definition callbacks (o : observable) (s : state) : list callback :=
  match o with
  | afterShowEvent => afterShow_callbacks s
  | afterCloseEvent => afterClose_callbacks s
  | afterCreateEvent => afterCreate_callbacks s
  end.

Definition watch (o : observable) (cb : callback) : M unit :=
  modify match o with
         | afterShowEvent => set_afterShow_callbacks (fun l => l ++ [cb])
         | afterCloseEvent => set_afterClose_callbacks (fun l => l ++ [cb])
         | afterCreateEvent => set_afterCreate_callbacks (fun l => l ++ [cb])
         end.

(** [window.setTimeout(cb.bind(window, modal), 1)] *)
Definition setTimeout (cb : callback) (modal : nat) : M unit :=
  modify (set_timers (fun t => t ++ [(cb, modal)])).

Fixpoint trigger_loop (cbs : list callback) (modal : nat) : M unit :=
  match cbs with
  | [] => ret tt
  | cb :: rest => run setTimeout cb modal ;; trigger_loop rest modal
  end.

Definition trigger (o : observable) (modal : nat) : M unit :=
  fun s => trigger_loop (callbacks o s) modal s.

(** ** The builders *)

(** Returns a named option if it has been explicitly defined, otherwise
    the given default value.  (For [content] the default is [undefined],
    so an explicit [undefined] and the default read the same.) *)
Definition getOption {A} (opt : config -> option A) (defaultValue : A) : M A :=
  fun s =>
    Ret match opt (options s) with
        | None => defaultValue
        | Some v => v
        end s.

Definition px (n : num) : string := num_to_string n +:+ "px".

Definition overlay_base : styles :=
  list_to_map
    [("display", VString "block"); ("position", VString "fixed");
     ("top", VString "0px"); ("left", VString "0px");
     ("height", VString "100%"); ("width", VString "100%");
     ("zIndex", VNumber (num_of_Z 10000))].

Definition overlay_default : styles :=
  list_to_map
    [("opacity", VNumber (Fin 1 1)); ("background", VString "#000")].

Definition content_base : styles :=
  list_to_map
    [("display", VString "block"); ("position", VString "fixed");
     ("zIndex", VNumber (num_of_Z 10001)); ("left", VString "50%");
     ("top", VString "50px")].

Definition content_size (w : num) : styles :=
  list_to_map
    [("width", VString (px w));
     ("margin", VString ("0 0 0 " +:+ px (num_neg (num_half w))))].

Definition content_default : styles :=
  list_to_map
    [("backgroundColor", VString "white"); ("padding", VString "20px");
     ("borderRadius", VString "5px")].

Definition close_default : styles :=
  list_to_map
    [("borderRadius", VString "2px"); ("cursor", VString "pointer");
     ("height", VString "15px"); ("width", VString "15px");
     ("position", VString "absolute"); ("top", VString "5px");
     ("right", VString "5px"); ("fontSize", VString "16px");
     ("textAlign", VString "center"); ("lineHeight", VString "15px");
     ("background", VString "#CCC")].

(** Generates the grey-out effect *)
Definition buildOverlay (close : handler) : M (option handle) :=
  do r <- Elem.make None ;;
  do r <- invoke r (Elem.clazz "pico-overlay") ;;
  do base <- new_object overlay_base ;;
  do r <- invoke r (Elem.stylize (Some base)) ;;
  do dflt <- new_object overlay_default ;;
  do st <- getOption overlayStyles dflt ;;
  do r <- invoke r (Elem.stylize (Some st)) ;;
  do oc <- getOption overlayClose true ;;
  invoke r (Elem.onClick (if oc then close else HNoop)).

(** The first statement of [buildModal]: the element with its content. *)
Definition buildModal_elem : M (option handle) :=
  do r <- Elem.make None ;;
  do r <- invoke r (Elem.clazz "pico-content") ;;
  do base <- new_object content_base ;;
  do r <- invoke r (Elem.stylize (Some base)) ;;
  do c <- getOption content VUndefined ;;
  invoke r (Elem.html c).

(** Builds the content of a modal *)
Definition buildModal : M (option handle) :=
  do elem <- buildModal_elem ;;
  do measured <- invoke elem Elem.getWidth ;;
  do w <- getOption width measured ;;
  do size <- new_object (content_size w) ;;
  do r <- invoke elem (Elem.stylize (Some size)) ;;
  do dflt <- new_object content_default ;;
  do st <- getOption modalStyles dflt ;;
  run invoke r (Elem.stylize (Some st)) ;;
  ret elem.

(** Builds the close button *)
Definition buildClose (elem : M (option handle)) (close : handler)
  : M (option handle) :=
  do enabled <- getOption closeButton true ;;
  if enabled : bool then
    do r <- elem ;;
    do r <- invoke r Elem.child ;;
    do markup <- getOption closeHtml "&#xD7;" ;;
    do r <- invoke r (Elem.html (VString markup)) ;;
    do r <- invoke r (Elem.clazz "pico-close") ;;
    do dflt <- new_object close_default ;;
    do st <- getOption closeStyles dflt ;;
    do r <- invoke r (Elem.stylize (Some st)) ;;
    invoke r (Elem.onClick close)
  else ret None.

(** Builds a method that calls a method and returns an element *)
Definition buildElemAccessor (builder : M (option handle)) : M nat :=
  do r <- builder ;;
  match r with
  | Some h => ret (elem h)
  | None => throw TypeError
  end.

(** ** function picoModal(options): the closure *)

Definition modalElem : M (option handle) :=
  memoize modalElem_result set_modalElem_result Content
    (do elem <- buildModal ;;
     do self <- read iface ;;
     run trigger afterCreateEvent self ;;
     ret elem).

Definition shadowElem : M (option handle) :=
  memoize shadowElem_result set_shadowElem_result Overlay
    (buildOverlay HClose).

(** [buildClose] is bound to the value [modalElem] has at creation, the
    memoized function, whatever the variable holds later. *)
Definition closeElem : M (option handle) :=
  memoize closeElem_result set_closeElem_result CloseButton
    (buildClose modalElem HClose).

(** Hides this modal *)
Definition close : M unit :=
  do r <- call shadowElem_defined shadowElem ;;
  run invoke r Elem.hide ;;
  do r <- call modalElem_defined modalElem ;;
  run invoke r Elem.hide ;;
  do self <- read iface ;;
  trigger afterCloseEvent self.

(** Wraps a method so it returns the modal interface *)
Definition returnIface {A} (callback : M A) : M nat :=
  run callback ;;
  read iface.

(** The methods of the facade [iface].  The three accessors come last:
    they take the names of the closure's variables. *)
Module Iface.

(** Shows this modal *)
Definition show : M nat :=
  do r <- call shadowElem_defined shadowElem ;;
  run invoke r Elem.show ;;
  run call closeElem_defined closeElem ;;
  do r <- call modalElem_defined modalElem ;;
  run invoke r Elem.show ;;
  do self <- read iface ;;
  run trigger afterShowEvent self ;;
  read iface.

(** Hides this modal *)
Definition close : M nat := returnIface close.

(** Destroys this modal.  Each variable is assigned what [destroy]
    returned, which is not a function. *)
Definition destroy : M unit :=
  do r <- call modalElem_defined modalElem ;;
  run invoke r Elem.destroy ;;
  run modify (set_modalElem_defined false) ;;
  do r <- call shadowElem_defined shadowElem ;;
  run invoke r Elem.destroy ;;
  run modify (set_shadowElem_defined false) ;;
  modify (set_closeElem_defined false).

(** Executes after the DOM nodes are created *)
Definition afterCreate (cb : callback) : M nat :=
  returnIface (watch afterCreateEvent cb).

(** Executes a callback after this modal is shown *)
Definition afterShow (cb : callback) : M nat :=
  returnIface (watch afterShowEvent cb).

(** Executes a callback after this modal is closed *)
Definition afterClose (cb : callback) : M nat :=
  returnIface (watch afterCloseEvent cb).

(** Returns the wrapping modal element *)
Definition modalElem : M nat := buildElemAccessor modalElem.

(** Returns the close button element *)
Definition closeElem : M nat := buildElemAccessor closeElem.

(** Returns the overlay element *)
Definition overalElem : M nat := buildElemAccessor shadowElem.

End Iface.

(** The page as [picoModal] finds it. *)
Record page := {
  page_browser : browser;
  page_dom : list element;
  page_body : list nat;
  page_heap : list styles;
  page_timers : list timer;
  page_objects : nat            (* facades created so far *)
}.

Definition only_content (v : value) : config :=
  {| content := Some v; width := None; overlayStyles := None;
     modalStyles := None; closeStyles := None; overlayClose := None;
     closeButton := None; closeHtml := None |}.

(** Displays a modal: the state of the closure when [picoModal] returns.
    A string or a node ([isString(options) || isNode(options)]) stands for
    [{content: options}]. *)
Definition picoModal (arg : argument) (p : page) : state :=
  {| browser_env := page_browser p;
     iface := page_objects p;
     options := match arg with
                | ArgString s => only_content (VString s)
                | ArgNode n => only_content (VNode n)
                | ArgOptions o => o
                end;
     dom := page_dom p;
     body := page_body p;
     heap := page_heap p;
     timers := page_timers p;
     trace := [];
     afterShow_callbacks := [];
     afterClose_callbacks := [];
     afterCreate_callbacks := [];
     modalElem_defined := true;
     shadowElem_defined := true;
     closeElem_defined := true;
     modalElem_result := None;
     shadowElem_result := None;
     closeElem_result := None |}.

(** ** What happens to a modal *)

Definition run_handler (h : handler) : M unit :=
  match h with
  | HClose => close
  | HNoop => ret tt
  end.

(** A click on the element [target]: its listeners run in order; what a
    listener raises is reported and does not stop the others. *)
Definition click (target : nat) (s : state) : state :=
  match dom s !! target with
  | Some e =>
      fold_left (fun s l => state_of (run_handler (snd l) s)) (listeners e) s
  | None => s
  end.

(** The oldest timer expires: its callback is invoked with its argument. *)
Definition fire (s : state) : state :=
  match timers s with
  | [] => s
  | (cb, arg) :: rest =>
      set_trace (fun t => t ++ [Invoked cb arg]) (set_timers (fun _ => rest) s)
  end.

Inductive op :=
| OpShow
| OpClose
| OpDestroy
| OpAfterCreate (cb : callback)
| OpAfterShow (cb : callback)
| OpAfterClose (cb : callback)
| OpModalElem
| OpCloseElem
| OpOveralElem
| OpClick (target : nat)
| OpFire.

(** One step; a caller may catch what a method raises and go on. *)
Definition step (s : state) (o : op) : state :=
  match o with
  | OpShow => state_of (Iface.show s)
  | OpClose => state_of (Iface.close s)
  | OpDestroy => state_of (Iface.destroy s)
  | OpAfterCreate cb => state_of (Iface.afterCreate cb s)
  | OpAfterShow cb => state_of (Iface.afterShow cb s)
  | OpAfterClose cb => state_of (Iface.afterClose cb s)
  | OpModalElem => state_of (Iface.modalElem s)
  | OpCloseElem => state_of (Iface.closeElem s)
  | OpOveralElem => state_of (Iface.overalElem s)
  | OpClick target => click target s
  | OpFire => fire s
  end.

Definition steps (s : state) (ops : list op) : state := fold_left step ops s.

(** ** Pages and configurations of the examples *)

Definition desktop : browser :=
  {| clientWidth := fun _ _ => 300%Z;
     string_to_number := fun _ => NaN;
     Node_is_object := false;
     has_attachEvent := false |}.

Definition blank : page :=
  {| page_browser := desktop; page_dom := []; page_body := [];
     page_heap := []; page_timers := []; page_objects := 0 |}.

(** * What the properties speak of *)

(** ** Observations *)

(** [elem.style.display] of the element [id]. *)
Definition display (id : nat) (s : state) : option value :=
  e ← dom s !! id; style e !! "display".

#[global] Instance part_eq_dec : EqDecision part.
Proof. solve_decision. Defined.

#[global] Instance event_eq_dec : EqDecision event.
Proof. solve_decision. Defined.

(** How often the builder of [q] was entered. *)
Definition built (q : part) (s : state) : nat :=
  length (filter (fun ev => ev = Built q) (trace s)).

(** The callbacks that were invoked, oldest first. *)
Definition is_invoked (ev : event) : bool :=
  match ev with
  | Invoked _ _ => true
  | Built _ => false
  end.

Definition invoked (s : state) : list event :=
  filter (fun ev => is_invoked ev = true) (trace s).

(** The timers one trigger of [o] appends. *)
Definition scheduled (o : observable) (s : state) : list timer :=
  map (fun cb => (cb, iface s)) (callbacks o s).

(** [getOption(key, true)] as a condition: false only for an explicit
    [false]. *)
Definition enabled (o : option bool) : bool := default true o.

Definition click_event (b : browser) : string :=
  if has_attachEvent b then "onclick" else "click".

(** What [Elem.html] does to the element. *)
Definition html_update (c : value) (e : element) : element :=
  match c with
  | VNode n => Elem.set_contents (contents e ++ [ForeignNode n]) e
  | _ => Elem.set_contents [Html (to_string c)] e
  end.

(** ** What does not change *)

(** The variables of the closure other than the three cells. *)
Definition same_vars (s s' : state) : Prop :=
  browser_env s' = browser_env s /\ iface s' = iface s /\
  options s' = options s /\
  afterShow_callbacks s' = afterShow_callbacks s /\
  afterClose_callbacks s' = afterClose_callbacks s /\
  afterCreate_callbacks s' = afterCreate_callbacks s /\
  modalElem_defined s' = modalElem_defined s /\
  shadowElem_defined s' = shadowElem_defined s /\
  closeElem_defined s' = closeElem_defined s.

(** An object of the heap is kept, up to the [filter] that [stylize]
    writes into an object with an [opacity]. *)
Definition heap_evolves (b : browser) (hp hp' : list styles) : Prop :=
  forall l m, hp !! l = Some m ->
    hp' !! l = Some m \/ hp' !! l = Some (Elem.add_filter b m).

Definition same_cells (s s' : state) : Prop :=
  modalElem_result s' = modalElem_result s /\
  shadowElem_result s' = shadowElem_result s /\
  closeElem_result s' = closeElem_result s.

(** Neither the closure nor the timers nor the trace change. *)
Definition quiet (s s' : state) : Prop :=
  same_vars s s' /\ same_cells s s' /\
  timers s' = timers s /\ trace s' = trace s.

(** Weakest preconditions of computations that return. *)
Definition wp {A} (m : M A) (s : state) (Q : A -> state -> Prop) : Prop :=
  match m s with
  | Ret a s' => Q a s'
  | Throw _ _ => False
  end.

(** The width [buildModal] gives the box: the option, or else what the
    browser measures once the content is in. *)
Definition box_width (s s1 : state) (h : handle) : num :=
  default (num_of_Z (clientWidth (browser_env s1) (dom s1) (elem h)))
          (width (options s)).

(** The content box takes the close button as one more child. *)
Definition adopt (child : nat) (e : element) : element :=
  Elem.set_contents (contents e ++ [ChildElem child]) e.

(** ** The invariant of a modal *)

Definition cell (q : part) (s : state) : option (option handle) :=
  match q with
  | Overlay => shadowElem_result s
  | Content => modalElem_result s
  | CloseButton => closeElem_result s
  end.

(** What stays of an element while the modal lives: its class, its
    listeners, and the children it has. *)
Definition kept (e e' : element) : Prop :=
  className e' = className e /\ listeners e' = listeners e /\
  forall x, x ∈ contents e -> x ∈ contents e'.

Definition dom_kept (d d' : list element) : Prop :=
  forall i e, d !! i = Some e -> exists e', d' !! i = Some e' /\ kept e e'.

Definition styles_kept (d d' : list element) : Prop :=
  forall i e, d !! i = Some e ->
    exists e', d' !! i = Some e' /\ style e' = style e.

Definition overlay_handler (s : state) : handler :=
  if enabled (overlayClose (options s)) then HClose else HNoop.

Definition ok_overlay (s : state) : Prop :=
  forall r, shadowElem_result s = Some r ->
    exists h e, r = Some h /\ dom s !! elem h = Some e /\
      className e = "pico-overlay" /\
      listeners e = [(click_event (browser_env s), overlay_handler s)].

Definition ok_content (s : state) : Prop :=
  forall r, modalElem_result s = Some r ->
    exists h e, r = Some h /\ dom s !! elem h = Some e /\
      className e = "pico-content".

Definition ok_close (s : state) : Prop :=
  forall r, closeElem_result s = Some r ->
    match r with
    | None => enabled (closeButton (options s)) = false
    | Some h =>
        enabled (closeButton (options s)) = true /\
        exists e hm em,
          dom s !! elem h = Some e /\ className e = "pico-close" /\
          listeners e = [(click_event (browser_env s), HClose)] /\
          modalElem_result s = Some (Some hm) /\
          dom s !! elem hm = Some em /\ ChildElem (elem h) ∈ contents em
    end.

Definition ok_trace (s : state) : Prop :=
  forall q, built q s = match cell q s with Some _ => 1 | None => 0 end.

(** [n0] is the size of the document when the modal was created. *)
Definition ok_classes (n0 : nat) (s : state) : Prop :=
  forall i e, n0 <= i -> dom s !! i = Some e ->
    className e = "pico-close" -> enabled (closeButton (options s)) = true.

Record Inv (n0 : nat) (s : state) : Prop := {
  inv_overlay : ok_overlay s;
  inv_content : ok_content s;
  inv_close : ok_close s;
  inv_trace : ok_trace s;
  inv_classes : ok_classes n0 s
}.

(** The timers a step adds when it builds the content box. *)
Definition created (s s' : state) : list timer :=
  match modalElem_result s, modalElem_result s' with
  | None, Some _ => scheduled afterCreateEvent s
  | _, _ => []
  end.

(** What calling memoized functions does to the state. *)
Definition builds (s s' : state) : Prop :=
  same_vars s s' /\
  dom_kept (dom s) (dom s') /\ styles_kept (dom s) (dom s') /\
  heap_evolves (browser_env s) (heap s) (heap s') /\
  (forall q r, cell q s = Some r -> cell q s' = Some r) /\
  timers s' = timers s ++ created s s' /\
  invoked s' = invoked s.

(** What holds between a state and every later one. *)
Definition evolves (s s' : state) : Prop :=
  browser_env s' = browser_env s /\ iface s' = iface s /\
  options s' = options s /\
  heap_evolves (browser_env s) (heap s) (heap s') /\
  (forall q r, cell q s = Some r -> cell q s' = Some r) /\
  (modalElem_defined s = false -> modalElem_defined s' = false) /\
  (shadowElem_defined s = false -> shadowElem_defined s' = false) /\
  (closeElem_defined s = false -> closeElem_defined s' = false).

Definition keeps {A} (I : state -> Prop) (m : M A) : Prop :=
  forall s, I s -> I (state_of (m s)).

(** No variable of the closure has been set to [undefined]. *)
Definition alive (s : state) : Prop :=
  modalElem_defined s = true /\ shadowElem_defined s = true /\
  closeElem_defined s = true.


(** A style property of the content box, once it is built. *)
Definition content_prop (k : string) (s : state) : option value :=
  r ← modalElem_result s; h ← r; e ← dom s !! elem h; style e !! k.


Definition no_options : config :=
  {| content := None; width := None; overlayStyles := None;
     modalStyles := None; closeStyles := None; overlayClose := None;
     closeButton := None; closeHtml := None |}.



(** A page whose script holds [{opacity: 0.5}], passed as
    [overlayStyles]. *)
Definition page_dim : page :=
  {| page_browser := desktop; page_dom := []; page_body := [];
     page_heap := [{["opacity" := VNumber (Fin 1 1)]}];
     page_timers := []; page_objects := 0 |}.

Definition options_dim : config :=
  {| content := Some (VString "<p>Hi</p>"); width := None;
     overlayStyles := Some 0; modalStyles := None; closeStyles := None;
     overlayClose := None; closeButton := None; closeHtml := None |}.

Definition hi : state := picoModal (ArgString "<p>Hi</p>") blank.

(** The [filter] property of the object at [l]. *)
Definition filter_of (l : nat) (s : state) : option value :=
  o ← heap s !! l; o !! "filter".


Definition no_button : config :=
  {| content := Some (VString "<p>Hi</p>"); width := None;
     overlayStyles := None; modalStyles := None; closeStyles := None;
     overlayClose := None; closeButton := Some false; closeHtml := None |}.

Definition no_overlay_close : config :=
  {| content := Some (VString "<p>Hi</p>"); width := None;
     overlayStyles := None; modalStyles := None; closeStyles := None;
     overlayClose := Some false; closeButton := None; closeHtml := None |}.

(** The [display] of the overlay and of the content box, once both are
    built. *)
Definition visibility (s : state) : option (option value * option value) :=
  match shadowElem_result s, modalElem_result s with
  | Some (Some ho), Some (Some hc) =>
      Some (display (elem ho) s, display (elem hc) s)
  | _, _ => None
  end.

#[global] Instance op_eq_dec : EqDecision op.
Proof. solve_decision. Defined.

Definition both (v : string) : option (option value * option value) :=
  Some (Some (VString v), Some (VString v)).

(** The method of the facade that registers a callback of [o]. *)
Definition register (o : observable) : callback -> M nat :=
  match o with
  | afterShowEvent => Iface.afterShow
  | afterCloseEvent => Iface.afterClose
  | afterCreateEvent => Iface.afterCreate
  end.

(** The three variables hold what they held. *)
Definition same_flags (s s' : state) : Prop :=
  modalElem_defined s' = modalElem_defined s /\
  shadowElem_defined s' = shadowElem_defined s /\
  closeElem_defined s' = closeElem_defined s.

(** The invariant, and the relation to an earlier state [s0];
    [undestroyed] is [true] while no step is [destroy()]. *)
Definition good (n0 : nat) (s0 : state) (undestroyed : bool) (s : state)
  : Prop :=
  Inv n0 s /\ evolves s0 s /\ (undestroyed = true -> same_flags s0 s).

(** ** What the further properties speak of *)

(** The object a style option names: the default literal when the key is
    absent, or else the object the reference points to. *)
Definition chosen_styles (opt : option nat) (dflt : styles) (hp : list styles)
  : option styles :=
  match opt with
  | None => Some dflt
  | Some l => hp !! l
  end.

(** What [html(content)] puts into a fresh element. *)
Definition content_item (c : value) : item :=
  match c with
  | VNode n => ForeignNode n
  | _ => Html (to_string c)
  end.

(** The content box with its content in, styled [st]. *)
Definition content_elem (c : value) (st : styles) : element :=
  {| className := "pico-content"; style := st;
     contents := [content_item c]; listeners := [] |}.

(** The width [buildModal] gives the box built in [s]: the [width] option,
    or else the rendered width of the box once the content is in and the
    base styles are applied. *)
Definition modal_width (s : state) : num :=
  default
    (num_of_Z
       (clientWidth (browser_env s)
          (dom s ++ [content_elem (default VUndefined (content (options s)))
                                  content_base])
          (length (dom s))))
    (width (options s)).

(** One when the cell holds an element, zero otherwise. *)
Definition made (r : option (option handle)) : nat :=
  match r with
  | Some (Some _) => 1
  | _ => 0
  end.

(** How many elements the three memoized builders have returned. *)
Definition elements_made (s : state) : nat :=
  made (shadowElem_result s) + made (modalElem_result s)
  + made (closeElem_result s).

(** The overlay and the content box, once built, are children of
    [document.body]. *)
Definition attached (s : state) : Prop :=
  forall h,
    shadowElem_result s = Some (Some h) \/ modalElem_result s = Some (Some h) ->
    elem h ∈ body s.

(** What the modal does to a page that had the elements [d0], the first
    [n0] of the document, and the children [b0] of the body: the handles
    of the cells name elements made after those of the page, the page's
    own elements and children are as they were, and one element was added
    per handle.  [undestroyed] is [true] while no step is [destroy()];
    [unshown] while no step is [show()] or the accessor [closeElem()]. *)
Record Kept (n0 : nat) (d0 : list element) (b0 : list nat)
    (undestroyed unshown : bool) (s : state) : Prop := {
  kept_handles :
    forall q h, cell q s = Some (Some h) -> n0 <= elem h < length (dom s);
  kept_dom : forall i, i < n0 -> dom s !! i = d0 !! i;
  kept_body : filter (fun i => i < n0) (body s) = filter (fun i => i < n0) b0;
  kept_count : length (dom s) = n0 + elements_made s;
  kept_attached : undestroyed = true -> alive s /\ attached s;
  kept_unshown : unshown = true -> closeElem_result s = None
}.

Definition Own (n0 : nat) (d0 : list element) (b0 : list nat)
    (undestroyed unshown : bool) (s : state) : Prop :=
  Inv n0 s /\ Kept n0 d0 b0 undestroyed unshown s.

(** A computation keeps [I]: when it returns, with [Q] of the result, and
    when it raises; [P] is what it needs besides. *)
Definition hoare {A} (I P : state -> Prop) (m : M A)
    (Q : A -> state -> Prop) : Prop :=
  forall s, I s -> P s ->
    match m s with
    | Ret a s' => I s' /\ Q a s'
    | Throw _ s' => I s'
    end.

(** The steps a proof of invariance lets through: [show()] and the
    accessor [closeElem()] when [can_show], [destroy()] when [can_destroy],
    a registration when [may_watch]. *)
Definition allowed (can_show can_destroy : Prop)
    (may_watch : observable -> callback -> Prop) (o : op) : Prop :=
  match o with
  | OpShow | OpCloseElem => can_show
  | OpDestroy => can_destroy
  | OpAfterCreate cb => may_watch afterCreateEvent cb
  | OpAfterShow cb => may_watch afterShowEvent cb
  | OpAfterClose cb => may_watch afterCloseEvent cb
  | _ => True
  end.

(** How often the callback [cb] was invoked. *)
Definition is_call (cb : callback) (ev : event) : bool :=
  match ev with
  | Invoked c _ => bool_decide (c = cb)
  | Built _ => false
  end.

Definition calls (cb : callback) (s : state) : nat :=
  length (filter (fun ev => is_call cb ev = true) (invoked s)).

(** The content box is built, and [cb] is neither pending nor a callback
    of [afterShow] or [afterClose]. *)
Record Late (cb : callback) (k : nat) (s : state) : Prop := {
  late_built : modalElem_result s <> None;
  late_show : cb ∉ afterShow_callbacks s;
  late_close : cb ∉ afterClose_callbacks s;
  late_timers : cb ∉ (timers s).*1;
  late_calls : calls cb s = k
}.

(** [afterCreate], [afterShow] and [afterClose] *)
Definition is_registration (o : op) : bool :=
  match o with
  | OpAfterCreate _ | OpAfterShow _ | OpAfterClose _ => true
  | _ => false
  end.

(** * Properties *)

(** The two tests of [picoModal] tell the three kinds of argument apart. *)
Lemma argument_tests b s n :
  isString (VString s) = true /\ isNode b (VString s) = false /\
  isString (VNode n) = false /\ isNode b (VNode n) = true.
Proof.
  unfold isNode. destruct (Node_is_object b); cbn [isString truthy].
  - repeat split.
  - rewrite !andb_false_r. repeat split.
Qed.

(** ** Lists and the heap *)

Lemma alter_app_last {A} (f : A -> A) (l : list A) (x : A) :
  alter f (length l) (l ++ [x]) = l ++ [f x].
Proof.
  induction l as [|a l IH]; simpl; [reflexivity|].
  f_equal. exact IH.
Qed.

Lemma lookup_app_last {A} (l : list A) (x : A) :
  (l ++ [x]) !! length l = Some x.
Proof. induction l as [|a l IH]; simpl; [reflexivity|exact IH]. Qed.

Lemma html_run c h s :
  Elem.html c h s
  = Ret (Some h) (set_dom (alter (html_update c) (elem h)) s).
Proof.
  unfold Elem.html, isNode.
  destruct c, (Node_is_object (browser_env s)); try reflexivity.
  all: destruct (truthy _); reflexivity.
Qed.

Lemma trigger_loop_run cbs modal s :
  trigger_loop cbs modal s
  = Ret tt (set_timers (fun t => t ++ map (fun cb => (cb, modal)) cbs) s).
Proof.
  revert s. induction cbs as [|cb cbs IH]; intros s.
  - destruct s. unfold set_timers. cbn. rewrite app_nil_r. reflexivity.
  - cbn [trigger_loop]. unfold bind at 1. cbn [setTimeout modify].
    rewrite IH. destruct s. unfold set_timers. cbn.
    rewrite <- app_assoc. reflexivity.
Qed.

Lemma trigger_run o s :
  trigger o (iface s) s
  = Ret tt (set_timers (fun t => t ++ scheduled o s) s).
Proof. unfold trigger. apply trigger_loop_run. Qed.

Lemma same_vars_refl s : same_vars s s.
Proof. repeat split. Qed.

Lemma same_vars_trans s1 s2 s3 :
  same_vars s1 s2 -> same_vars s2 s3 -> same_vars s1 s3.
Proof. unfold same_vars. intuition congruence. Qed.

Lemma add_filter_idem b m :
  Elem.add_filter b (Elem.add_filter b m) = Elem.add_filter b m.
Proof.
  unfold Elem.add_filter.
  destruct (default VUndefined (m !! "opacity")) eqn:E;
    rewrite ?E; try reflexivity.
  all: rewrite lookup_insert_ne by discriminate; rewrite E;
    apply insert_insert_eq.
Qed.

Lemma heap_evolves_refl b hp : heap_evolves b hp hp.
Proof. intros l m H. now left. Qed.

Lemma heap_evolves_trans b h1 h2 h3 :
  heap_evolves b h1 h2 -> heap_evolves b h2 h3 -> heap_evolves b h1 h3.
Proof.
  intros H12 H23 l m H. destruct (H12 l m H) as [H2|H2];
    destruct (H23 _ _ H2) as [H3|H3]; rewrite ?add_filter_idem in H3; auto.
Qed.

Lemma heap_evolves_app b hp o : heap_evolves b hp (hp ++ [o]).
Proof. intros l m H. left. apply lookup_app_l_Some. exact H. Qed.

Lemma heap_evolves_alter b hp l :
  heap_evolves b hp (alter (Elem.add_filter b) l hp).
Proof.
  intros i m H. destruct (decide (l = i)) as [->|Hne].
  - right. rewrite list_lookup_alter_eq, H. reflexivity.
  - left. rewrite list_lookup_alter_ne by exact Hne. exact H.
Qed.

Lemma quiet_refl s : quiet s s.
Proof. repeat split. Qed.

Lemma quiet_trans s1 s2 s3 : quiet s1 s2 -> quiet s2 s3 -> quiet s1 s3.
Proof. unfold quiet, same_vars, same_cells. intuition congruence. Qed.

Lemma quiet_env s s' : quiet s s' -> browser_env s' = browser_env s.
Proof. intros H. apply H. Qed.

Lemma quiet_options s s' : quiet s s' -> options s' = options s.
Proof. intros H. apply H. Qed.

(** ** Running a builder *)

Lemma wp_bind {A B} (m : M A) (k : A -> M B) s Q :
  wp m s (fun a s' => wp (k a) s' Q) -> wp (bind m k) s Q.
Proof. unfold wp, bind. destruct (m s); auto. Qed.

Lemma wp_ret {A} (a : A) s (Q : A -> state -> Prop) : Q a s -> wp (ret a) s Q.
Proof. auto. Qed.

Lemma wp_invoke {A} (h : handle) (method : handle -> M A) s Q :
  wp (method h) s Q -> wp (invoke (Some h) method) s Q.
Proof. auto. Qed.

Lemma wp_getOption {A} (opt : config -> option A) d s Q :
  Q (default d (opt (options s))) s -> wp (getOption opt d) s Q.
Proof. unfold wp, getOption. destruct (opt (options s)); auto. Qed.

Lemma wp_getWidth h s Q :
  Q (num_of_Z (clientWidth (browser_env s) (dom s) (elem h))) s ->
  wp (Elem.getWidth h) s Q.
Proof. auto. Qed.

Ltac prim := intros H; unfold wp; cbn; apply H; try reflexivity; repeat split.

Lemma wp_make parent s Q :
  (forall s',
      dom s' = match parent with
               | Some p =>
                   alter (fun e => Elem.set_contents
                                     (contents e ++ [ChildElem (length (dom s))]) e)
                         p (dom s ++ [Elem.new_element])
               | None => dom s ++ [Elem.new_element]
               end ->
      heap s' = heap s -> quiet s s' ->
      Q (Some (Handle (length (dom s)))) s') ->
  wp (Elem.make parent) s Q.
Proof. destruct parent; prim. Qed.

Lemma wp_clazz c h s Q :
  (forall s',
      dom s' = alter (fun e => Elem.set_className (className e +:+ c) e)
                     (elem h) (dom s) ->
      heap s' = heap s -> quiet s s' -> Q (Some h) s') ->
  wp (Elem.clazz c h) s Q.
Proof. prim. Qed.

Lemma wp_new_object o s Q :
  (forall s',
      dom s' = dom s -> heap s' = heap s ++ [o] -> quiet s s' ->
      Q (length (heap s)) s') ->
  wp (new_object o) s Q.
Proof. prim. Qed.

Lemma wp_stylize l h s Q :
  (forall s',
      heap s' = alter (Elem.add_filter (browser_env s)) l (heap s) ->
      dom s' = alter (fun e => Elem.set_style
                                 (default ∅ (heap s' !! l) ∪ style e) e)
                     (elem h) (dom s) ->
      quiet s s' -> Q (Some h) s') ->
  wp (Elem.stylize (Some l) h) s Q.
Proof. prim. Qed.

Lemma wp_html c h s Q :
  (forall s',
      dom s' = alter (html_update c) (elem h) (dom s) ->
      heap s' = heap s -> quiet s s' -> Q (Some h) s') ->
  wp (Elem.html c h) s Q.
Proof. intros H. unfold wp. rewrite html_run. apply H; try reflexivity; repeat split. Qed.

Lemma wp_onClick cb h s Q :
  (forall s',
      dom s' = alter (fun e => Elem.set_listeners
                        (listeners e ++ [(click_event (browser_env s), cb)]) e)
                     (elem h) (dom s) ->
      heap s' = heap s -> quiet s s' -> Q (Some h) s') ->
  wp (Elem.onClick cb h) s Q.
Proof. prim. Qed.

Lemma wp_elim {A} (m : M A) s Q :
  wp m s Q -> exists a s', m s = Ret a s' /\ Q a s'.
Proof. unfold wp. destruct (m s); [eauto | tauto]. Qed.

Lemma wp_intro {A} (m : M A) s (Q : A -> state -> Prop) a s' :
  m s = Ret a s' -> Q a s' -> wp m s Q.
Proof. unfold wp. intros ->. auto. Qed.

Ltac heap_steps :=
  repeat first
    [ apply heap_evolves_refl
    | eapply heap_evolves_trans;
      [| first [apply heap_evolves_alter | apply heap_evolves_app]] ].

Ltac unfold_invoke :=
  lazymatch goal with
  | |- wp (invoke (Some _) _) _ _ => apply wp_invoke
  | |- _ => idtac
  end.

Ltac bind_ := apply wp_bind; unfold_invoke.

Ltac track Hq Hq' :=
  let H := fresh in
  pose proof (quiet_trans _ _ _ Hq Hq') as H; clear Hq Hq'; rename H into Hq.

Ltac elem_proj :=
  cbn [className style contents listeners Elem.set_className Elem.set_style
       Elem.set_contents Elem.set_listeners Elem.new_element html_update].

Lemma buildOverlay_wp c s :
  wp (buildOverlay c) s (fun r s' =>
    r = Some (Handle (length (dom s))) /\
    exists e,
      dom s' = dom s ++ [e] /\
      className e = "pico-overlay" /\
      listeners e = [(click_event (browser_env s),
                      if enabled (overlayClose (options s)) then c
                      else HNoop)] /\
      quiet s s' /\
      heap_evolves (browser_env s) (heap s) (heap s')).
Proof.
  unfold buildOverlay.
  bind_. apply wp_make. intros s1 Hd1 Hh1 Hq. cbv beta.
  bind_. apply wp_clazz. intros s2 Hd2 Hh2 Hq2. cbv beta. track Hq Hq2.
  bind_. apply wp_new_object. intros s3 Hd3 Hh3 Hq3. cbv beta. track Hq Hq3.
  bind_. apply wp_stylize. intros s4 Hh4 Hd4 Hq4. cbv beta.
  rewrite (quiet_env _ _ Hq) in Hh4. track Hq Hq4.
  bind_. apply wp_new_object. intros s5 Hd5 Hh5 Hq5. cbv beta. track Hq Hq5.
  bind_. apply wp_getOption. rewrite (quiet_options _ _ Hq). cbv beta.
  bind_. apply wp_stylize. intros s6 Hh6 Hd6 Hq6. cbv beta.
  rewrite (quiet_env _ _ Hq) in Hh6. track Hq Hq6.
  bind_. apply wp_getOption. rewrite (quiet_options _ _ Hq). cbv beta.
  unfold_invoke. apply wp_onClick. intros s7 Hd7 Hh7 Hq7.
  rewrite (quiet_env _ _ Hq) in Hd7. track Hq Hq7.
  split; [reflexivity|]. eexists. split.
  { rewrite Hd7, Hd6, Hd5, Hd4, Hd3, Hd2, Hd1. cbn [elem].
    rewrite !alter_app_last. reflexivity. }
  elem_proj.
  split; [reflexivity|]. split; [reflexivity|]. split; [exact Hq|].
  rewrite Hh7, Hh6, Hh5, Hh4, Hh3, Hh2, Hh1. heap_steps.
Qed.

Lemma wp_bind_run {A B} (m : M A) (k : A -> M B) s Q a s1 :
  m s = Ret a s1 -> wp (k a) s1 Q -> wp (bind m k) s Q.
Proof. unfold wp, bind. intros ->. auto. Qed.

Lemma buildModal_elem_wp s :
  wp buildModal_elem s (fun r s' =>
    r = Some (Handle (length (dom s))) /\
    exists e,
      dom s' = dom s ++ [e] /\
      className e = "pico-content" /\ listeners e = [] /\
      heap s' = heap s ++ [Elem.add_filter (browser_env s) content_base] /\
      quiet s s').
Proof.
  unfold buildModal_elem.
  bind_. apply wp_make. intros s1 Hd1 Hh1 Hq. cbv beta.
  bind_. apply wp_clazz. intros s2 Hd2 Hh2 Hq2. cbv beta. track Hq Hq2.
  bind_. apply wp_new_object. intros s3 Hd3 Hh3 Hq3. cbv beta. track Hq Hq3.
  bind_. apply wp_stylize. intros s4 Hh4 Hd4 Hq4. cbv beta.
  rewrite (quiet_env _ _ Hq) in Hh4. track Hq Hq4.
  bind_. apply wp_getOption. cbv beta.
  unfold_invoke. apply wp_html. intros s5 Hd5 Hh5 Hq5. track Hq Hq5.
  split; [reflexivity|]. eexists. split.
  { rewrite Hd5, Hd4, Hd3, Hd2, Hd1. cbn [elem].
    rewrite !alter_app_last. reflexivity. }
  split.
  { destruct (default VUndefined _); reflexivity. }
  split.
  { destruct (default VUndefined _); reflexivity. }
  split; [|exact Hq].
  rewrite Hh5, Hh4, Hh3, Hh2, Hh1. apply alter_app_last.
Qed.

Lemma buildModal_wp s :
  wp buildModal s (fun r s' =>
    r = Some (Handle (length (dom s))) /\
    exists e s1 over,
      buildModal_elem s = Ret r s1 /\
      dom s' = dom s ++ [e] /\
      className e = "pico-content" /\ listeners e = [] /\
      (exists rest,
         style e = over ∪ (content_size (box_width s s1 (Handle (length (dom s))))
                           ∪ rest)) /\
      (modalStyles (options s) = None ->
       over = Elem.add_filter (browser_env s) content_default) /\
      (forall l m, modalStyles (options s) = Some l -> heap s !! l = Some m ->
                   over = Elem.add_filter (browser_env s) m) /\
      quiet s s' /\
      heap_evolves (browser_env s) (heap s) (heap s')).
Proof.
  unfold buildModal.
  destruct (wp_elim _ _ _ (buildModal_elem_wp s))
    as (r & s1 & Hrun & -> & e1 & Hd1 & Hc1 & Hl1 & Hh1 & Hq).
  eapply wp_bind_run; [exact Hrun|].
  bind_. apply wp_getWidth.
  bind_. apply wp_getOption. rewrite (quiet_options _ _ Hq).
  fold (box_width s s1 (Handle (length (dom s)))).
  set (w := box_width s s1 (Handle (length (dom s)))). cbv beta.
  bind_. apply wp_new_object. intros s3 Hd3 Hh3 Hq3. cbv beta. track Hq Hq3.
  bind_. apply wp_stylize. intros s4 Hh4 Hd4 Hq4. cbv beta.
  rewrite (quiet_env _ _ Hq) in Hh4. track Hq Hq4.
  bind_. apply wp_new_object. intros s5 Hd5 Hh5 Hq5. cbv beta. track Hq Hq5.
  bind_. apply wp_getOption. rewrite (quiet_options _ _ Hq). cbv beta.
  bind_. apply wp_stylize. intros s6 Hh6 Hd6 Hq6. cbv beta.
  rewrite (quiet_env _ _ Hq) in Hh6. track Hq Hq6.
  apply wp_ret.
  split; [reflexivity|].
  rewrite Hh3 in Hh4. rewrite alter_app_last in Hh4.
  assert (Hsize : Elem.add_filter (browser_env s) (content_size w)
                  = content_size w) by reflexivity.
  rewrite Hsize in Hh4.
  rewrite Hh4 in Hd4. rewrite lookup_app_last in Hd4. cbn [default] in Hd4.
  rewrite Hd3, Hd1 in Hd4. cbn [elem] in Hd4. rewrite alter_app_last in Hd4.
  rewrite Hd5, Hd4 in Hd6. cbn [elem] in Hd6. rewrite alter_app_last in Hd6.
  eexists _, s1, _. split; [exact Hrun|]. split; [exact Hd6|].
  elem_proj. split; [exact Hc1|]. split; [exact Hl1|].
  split; [eexists; reflexivity|].
  split; [|split; [|split; [exact Hq|]]].
  - intros Hnone. rewrite Hnone in *. cbn [default] in *.
    rewrite Hh6, Hh5. rewrite alter_app_last, lookup_app_last. reflexivity.
  - intros l m Hsome Hm. rewrite Hsome in *. cbn [default] in *.
    rewrite Hh6, list_lookup_alter_eq, Hh5, Hh4, Hh1.
    rewrite !(lookup_app_l_Some _ _ _ m); [reflexivity|..]; try exact Hm.
    all: repeat apply lookup_app_l_Some; exact Hm.
  - rewrite Hh6, Hh5, Hh4, Hh1. heap_steps.
Qed.

Lemma alter_app_last_alter {A} (f g : A -> A) (p : nat) (l : list A) (x : A) :
  alter g (length l) (alter f p l ++ [x]) = alter f p l ++ [g x].
Proof. rewrite <- (length_alter f l p) at 1. apply alter_app_last. Qed.

Lemma alter_app_before {A} (f : A -> A) (p : nat) (l : list A) (x : A) :
  p < length l -> alter f p (l ++ [x]) = alter f p l ++ [x].
Proof.
  revert p. induction l as [|a l IH]; intros p Hp; simpl in *; [lia|].
  destruct p as [|p]; simpl; [reflexivity|]. f_equal. apply IH. lia.
Qed.

Lemma buildClose_disabled el c s :
  enabled (closeButton (options s)) = false ->
  buildClose el c s = Ret None s.
Proof.
  intros H. unfold buildClose, bind, getOption.
  destruct (closeButton (options s)) as [[|]|]; try discriminate H.
  reflexivity.
Qed.

Lemma buildClose_wp el c s hm s1 :
  enabled (closeButton (options s)) = true ->
  el s = Ret (Some hm) s1 ->
  elem hm < length (dom s1) ->
  wp (buildClose el c) s (fun r s' =>
    r = Some (Handle (length (dom s1))) /\
    exists e,
      dom s' = alter (adopt (length (dom s1))) (elem hm) (dom s1) ++ [e] /\
      className e = "pico-close" /\
      listeners e = [(click_event (browser_env s1), c)] /\
      quiet s1 s' /\
      heap_evolves (browser_env s1) (heap s1) (heap s')).
Proof.
  intros Hen Hrun Hlt. unfold buildClose.
  bind_. apply wp_getOption. cbv beta.
  unfold enabled in Hen. rewrite Hen.
  eapply wp_bind_run; [exact Hrun|].
  bind_. unfold Elem.child. apply wp_make. intros s2 Hd2 Hh2 Hq. cbv beta.
  fold (adopt (length (dom s1))) in Hd2.
  rewrite alter_app_before in Hd2 by exact Hlt.
  bind_. apply wp_getOption. cbv beta.
  bind_. apply wp_html. intros s3 Hd3 Hh3 Hq3. cbv beta. track Hq Hq3.
  bind_. apply wp_clazz. intros s4 Hd4 Hh4 Hq4. cbv beta. track Hq Hq4.
  bind_. apply wp_new_object. intros s5 Hd5 Hh5 Hq5. cbv beta. track Hq Hq5.
  bind_. apply wp_getOption. cbv beta.
  bind_. apply wp_stylize. intros s6 Hh6 Hd6 Hq6. cbv beta.
  rewrite (quiet_env _ _ Hq) in Hh6. track Hq Hq6.
  unfold_invoke. apply wp_onClick. intros s7 Hd7 Hh7 Hq7.
  rewrite (quiet_env _ _ Hq) in Hd7. track Hq Hq7.
  split; [reflexivity|]. eexists. split.
  { rewrite Hd7, Hd6, Hd5, Hd4, Hd3, Hd2. cbn [elem].
    rewrite !alter_app_last_alter. reflexivity. }
  elem_proj.
  split; [reflexivity|]. split; [reflexivity|]. split; [exact Hq|].
  rewrite Hh7, Hh6, Hh5, Hh4, Hh3, Hh2. heap_steps.
Qed.

(** ** The invariant is kept *)

Lemma kept_refl e : kept e e.
Proof. repeat split; auto. Qed.

Lemma dom_kept_refl d : dom_kept d d.
Proof. intros i e H. exists e. split; [exact H | apply kept_refl]. Qed.

Lemma dom_kept_trans d1 d2 d3 :
  dom_kept d1 d2 -> dom_kept d2 d3 -> dom_kept d1 d3.
Proof.
  intros H12 H23 i e H.
  destruct (H12 i e H) as (e2 & H2 & Hc2 & Hl2 & Hk2).
  destruct (H23 i e2 H2) as (e3 & H3 & Hc3 & Hl3 & Hk3).
  exists e3. split; [exact H3|]. repeat split; try congruence. auto.
Qed.

Lemma dom_kept_app d e : dom_kept d (d ++ [e]).
Proof.
  intros i e0 H. exists e0. split; [|apply kept_refl].
  apply lookup_app_l_Some. exact H.
Qed.

Lemma dom_kept_alter (f : element -> element) i d :
  (forall e, kept e (f e)) -> dom_kept d (alter f i d).
Proof.
  intros Hf j e H. destruct (decide (i = j)) as [->|Hne].
  - exists (f e). rewrite list_lookup_alter_eq, H. split; [reflexivity|apply Hf].
  - exists e. rewrite list_lookup_alter_ne by exact Hne.
    split; [exact H|apply kept_refl].
Qed.

Lemma styles_kept_refl d : styles_kept d d.
Proof. intros i e H. eauto. Qed.

Lemma styles_kept_trans d1 d2 d3 :
  styles_kept d1 d2 -> styles_kept d2 d3 -> styles_kept d1 d3.
Proof.
  intros H12 H23 i e H.
  destruct (H12 i e H) as (e2 & H2 & Hs2).
  destruct (H23 i e2 H2) as (e3 & H3 & Hs3).
  exists e3. split; [exact H3|congruence].
Qed.

Lemma styles_kept_app d e : styles_kept d (d ++ [e]).
Proof.
  intros i e0 H. exists e0. split; [|reflexivity].
  apply lookup_app_l_Some. exact H.
Qed.

Lemma styles_kept_alter (f : element -> element) i d :
  (forall e, style (f e) = style e) -> styles_kept d (alter f i d).
Proof.
  intros Hf j e H. destruct (decide (i = j)) as [->|Hne].
  - exists (f e). rewrite list_lookup_alter_eq, H. split; [reflexivity|apply Hf].
  - exists e. rewrite list_lookup_alter_ne by exact Hne. auto.
Qed.

Lemma kept_adopt c e : kept e (adopt c e).
Proof.
  repeat split. intros x Hx. cbn. apply elem_of_app. left. exact Hx.
Qed.

Lemma ok_overlay_kept s s' :
  ok_overlay s -> dom_kept (dom s) (dom s') ->
  browser_env s' = browser_env s -> options s' = options s ->
  shadowElem_result s' = shadowElem_result s -> ok_overlay s'.
Proof.
  intros H Hk He Ho Hc r Hr. rewrite Hc in Hr.
  destruct (H r Hr) as (h & e & -> & Hd & Hcl & Hl).
  destruct (Hk _ _ Hd) as (e' & Hd' & Hc' & Hl' & _).
  exists h, e'.
  replace (overlay_handler s') with (overlay_handler s)
    by (unfold overlay_handler; rewrite Ho; reflexivity).
  rewrite He. repeat split; congruence.
Qed.

Lemma ok_content_kept s s' :
  ok_content s -> dom_kept (dom s) (dom s') ->
  modalElem_result s' = modalElem_result s -> ok_content s'.
Proof.
  intros H Hk Hc r Hr. rewrite Hc in Hr.
  destruct (H r Hr) as (h & e & -> & Hd & Hcl).
  destruct (Hk _ _ Hd) as (e' & Hd' & Hc' & _).
  exists h, e'. repeat split; congruence.
Qed.

Lemma ok_close_kept s s' :
  ok_close s -> dom_kept (dom s) (dom s') ->
  browser_env s' = browser_env s -> options s' = options s ->
  closeElem_result s' = closeElem_result s ->
  (forall x, modalElem_result s = Some x -> modalElem_result s' = Some x) ->
  ok_close s'.
Proof.
  intros H Hk He Ho Hc Hm r Hr. rewrite Hc in Hr.
  specialize (H r Hr). destruct r as [h|]; rewrite Ho; [|exact H].
  destruct H as (Hen & e & hm & em & Hd & Hcl & Hl & Hmc & Hdm & Hin).
  split; [exact Hen|].
  destruct (Hk _ _ Hd) as (e' & Hd' & Hc' & Hl' & _).
  destruct (Hk _ _ Hdm) as (em' & Hdm' & _ & _ & Hin').
  exists e', hm, em'. rewrite He. repeat split; try congruence; auto.
Qed.

Lemma ok_classes_kept n0 s s' :
  ok_classes n0 s -> dom_kept (dom s) (dom s') ->
  options s' = options s ->
  (forall i e, length (dom s) <= i -> dom s' !! i = Some e ->
               className e = "pico-close" ->
               enabled (closeButton (options s)) = true) ->
  ok_classes n0 s'.
Proof.
  intros H Hk Ho Hnew i e Hi Hd Hcl. rewrite Ho.
  destruct (decide (i < length (dom s))) as [Hlt|Hge].
  - destruct (lookup_lt_is_Some_2 _ _ Hlt) as [e0 He0].
    destruct (Hk _ _ He0) as (e' & Hd' & Hc' & _).
    apply (H i e0 Hi He0). congruence.
  - apply (Hnew i e); [lia|exact Hd|exact Hcl].
Qed.

(** A step that keeps the shape of the document, the cells and the
    count of builder runs keeps the invariant. *)
Lemma Inv_frame n0 s s' :
  Inv n0 s ->
  browser_env s' = browser_env s -> options s' = options s ->
  same_cells s s' -> (forall q, built q s' = built q s) ->
  dom_kept (dom s) (dom s') -> length (dom s') = length (dom s) ->
  Inv n0 s'.
Proof.
  intros [Ho Hc Hcl Ht Hk] He Hop (Hm & Hs & Hcc) Hb Hd Hlen. split.
  - eapply ok_overlay_kept; eauto.
  - eapply ok_content_kept; eauto.
  - eapply ok_close_kept; eauto. intros x. congruence.
  - intros q. rewrite Hb, Ht.
    destruct q; cbn [cell]; rewrite ?Hm, ?Hs, ?Hcc; reflexivity.
  - eapply ok_classes_kept; eauto.
    intros i e Hi Hl. apply lookup_lt_Some in Hl. lia.
Qed.

Tactic Notation "proj" :=
  cbn [browser_env iface options dom body heap timers trace
       afterShow_callbacks afterClose_callbacks afterCreate_callbacks
       modalElem_defined shadowElem_defined closeElem_defined
       modalElem_result shadowElem_result closeElem_result
       set_dom set_body set_heap set_timers set_trace
       set_afterShow_callbacks set_afterClose_callbacks
       set_afterCreate_callbacks set_modalElem_defined
       set_shadowElem_defined set_closeElem_defined set_modalElem_result
       set_shadowElem_result set_closeElem_result cell elem].

Tactic Notation "proj" "in" hyp(H) :=
  cbn [browser_env iface options dom body heap timers trace
       afterShow_callbacks afterClose_callbacks afterCreate_callbacks
       modalElem_defined shadowElem_defined closeElem_defined
       modalElem_result shadowElem_result closeElem_result
       set_dom set_body set_heap set_timers set_trace
       set_afterShow_callbacks set_afterClose_callbacks
       set_afterCreate_callbacks set_modalElem_defined
       set_shadowElem_defined set_closeElem_defined set_modalElem_result
       set_shadowElem_result set_closeElem_result cell elem] in H.

(** ** The three memoized functions *)

Lemma created_same s s' :
  modalElem_result s' = modalElem_result s -> created s s' = [].
Proof. unfold created. intros ->. destruct (modalElem_result s); reflexivity. Qed.

Lemma builds_refl s : builds s s.
Proof.
  repeat split; auto using dom_kept_refl, styles_kept_refl, heap_evolves_refl.
  rewrite created_same by reflexivity. symmetry. apply app_nil_r.
Qed.

Lemma scheduled_same o s s' :
  same_vars s s' -> scheduled o s' = scheduled o s.
Proof.
  intros (_ & Hi & _ & H1 & H2 & H3 & _). unfold scheduled.
  rewrite Hi. destruct o; cbn [callbacks]; congruence.
Qed.

Lemma builds_trans s1 s2 s3 : builds s1 s2 -> builds s2 s3 -> builds s1 s3.
Proof.
  intros (Hv & Hd & Hs & Hh & Hc & Ht & Hi) (Hv' & Hd' & Hs' & Hh' & Hc' & Ht' & Hi').
  split; [eapply same_vars_trans; eauto|].
  split; [eapply dom_kept_trans; eauto|].
  split; [eapply styles_kept_trans; eauto|].
  split.
  { eapply heap_evolves_trans; [exact Hh|].
    replace (browser_env s1) with (browser_env s2) by apply Hv. exact Hh'. }
  split; [auto|]. split; [|congruence].
  rewrite Ht', Ht, <- app_assoc. f_equal.
  unfold created. rewrite (scheduled_same _ _ _ Hv).
  pose proof (Hc Content) as Hm. pose proof (Hc' Content) as Hm'.
  cbn [cell] in Hm, Hm'.
  destruct (modalElem_result s1) as [x1|];
    destruct (modalElem_result s2) as [x2|];
    destruct (modalElem_result s3) as [x3|];
    try reflexivity; try apply app_nil_r.
  - discriminate (Hm _ eq_refl).
  - discriminate (Hm' _ eq_refl).
Qed.

Lemma built_app q s s' evs :
  trace s' = trace s ++ evs ->
  built q s' = built q s + length (filter (fun ev => ev = Built q) evs).
Proof. intros H. unfold built. rewrite H, filter_app, length_app. reflexivity. Qed.

Lemma invoked_app s s' evs :
  trace s' = trace s ++ evs ->
  invoked s' = invoked s ++ filter (fun ev => is_invoked ev = true) evs.
Proof. intros H. unfold invoked. rewrite H, filter_app. reflexivity. Qed.

Lemma memoize_hit {A} cell set_cell p (callback : M A) s r :
  cell s = Some r -> memoize cell set_cell p callback s = Ret r s.
Proof. intros H. unfold memoize. rewrite H. reflexivity. Qed.

Lemma memoize_miss {A} cell set_cell p (callback : M A) s r s' :
  cell s = None ->
  callback (set_trace (fun t => t ++ [Built p]) s) = Ret r s' ->
  memoize cell set_cell p callback s = Ret r (set_cell (Some r) s').
Proof. intros H H'. unfold memoize. rewrite H, H'. reflexivity. Qed.

Lemma quiet_set_trace f s s1 :
  quiet (set_trace f s) s1 ->
  same_vars s s1 /\ same_cells s s1 /\
  timers s1 = timers s /\ trace s1 = f (trace s).
Proof. intros H. exact H. Qed.

Lemma lookup_snoc_ge {A} (l : list A) (x y : A) i :
  length l <= i -> (l ++ [x]) !! i = Some y -> i = length l /\ y = x.
Proof.
  intros Hi H. pose proof (lookup_lt_Some _ _ _ H) as Hlt.
  rewrite length_app in Hlt. cbn in Hlt.
  assert (i = length l) as -> by lia.
  rewrite lookup_app_last in H. split; congruence.
Qed.

Lemma lookup_app_last_alter {A} (f : A -> A) (p : nat) (l : list A) (x : A) :
  (alter f p l ++ [x]) !! length l = Some x.
Proof. rewrite <- (length_alter f l p). apply lookup_app_last. Qed.

Lemma shadowElem_run s :
  ok_overlay s ->
  exists h s',
    shadowElem s = Ret (Some h) s' /\ builds s s' /\
    shadowElem_result s' = Some (Some h) /\
    modalElem_result s' = modalElem_result s /\
    closeElem_result s' = closeElem_result s /\
    ok_overlay s' /\
    trace s' = trace s ++ match shadowElem_result s with
                          | Some _ => []
                          | None => [Built Overlay]
                          end /\
    length (dom s) <= length (dom s') /\
    forall i e, length (dom s) <= i -> dom s' !! i = Some e ->
                className e = "pico-overlay".
Proof.
  intros Hok. destruct (shadowElem_result s) as [r|] eqn:Hc.
  - destruct (Hok _ Hc) as (h & e & -> & Hd & _).
    exists h, s. split; [apply memoize_hit; exact Hc|].
    split; [apply builds_refl|]. repeat split; auto.
    + symmetry. apply app_nil_r.
    + intros i e' Hi Hl. apply lookup_lt_Some in Hl. lia.
  - set (s0 := set_trace (fun t => t ++ [Built Overlay]) s).
    destruct (wp_elim _ _ _ (buildOverlay_wp HClose s0))
      as (r & s1 & Hrun & -> & e & Hd & Hcl & Hl & Hq & Hh).
    apply quiet_set_trace in Hq. destruct Hq as (Hv & (Hm & Hs & Hcc) & Ht & Htr).
    change (dom s0) with (dom s) in *. change (heap s0) with (heap s) in *.
    change (browser_env s0) with (browser_env s) in *.
    change (options s0) with (options s) in *.
    eexists _, _. split; [apply memoize_miss; [exact Hc|exact Hrun]|].
    assert (Hk : dom_kept (dom s) (dom s1)) by (rewrite Hd; apply dom_kept_app).
    unfold builds. proj.
    split.
    { split; [exact Hv|]. split; [exact Hk|].
      split; [rewrite Hd; apply styles_kept_app|]. split; [exact Hh|].
      split.
      { intros [] r; proj; congruence. }
      split.
      { rewrite created_same by exact Hm. rewrite app_nil_r. exact Ht. }
      rewrite (invoked_app s _ [Built Overlay]) by exact Htr.
      apply app_nil_r. }
    split; [reflexivity|]. split; [exact Hm|]. split; [exact Hcc|].
    split.
    { intros r Hr. cbn in Hr. injection Hr as <-.
      exists (Handle (length (dom s))), e. proj.
      split; [reflexivity|]. split; [rewrite Hd; apply lookup_app_last|].
      split; [exact Hcl|].
      destruct Hv as (He & _ & Hop & _).
      unfold overlay_handler. proj. rewrite He, Hop. exact Hl. }
    split; [exact Htr|]. split; [rewrite Hd, length_app; lia|].
    intros i e' Hi Hl'. rewrite Hd in Hl'.
    destruct (lookup_snoc_ge _ _ _ _ Hi Hl') as [_ ->]. exact Hcl.
Qed.

Lemma modalElem_run s :
  ok_content s ->
  exists h s',
    modalElem s = Ret (Some h) s' /\ builds s s' /\
    modalElem_result s' = Some (Some h) /\
    shadowElem_result s' = shadowElem_result s /\
    closeElem_result s' = closeElem_result s /\
    ok_content s' /\
    trace s' = trace s ++ match modalElem_result s with
                          | Some _ => []
                          | None => [Built Content]
                          end /\
    length (dom s) <= length (dom s') /\
    forall i e, length (dom s) <= i -> dom s' !! i = Some e ->
                className e = "pico-content".
Proof.
  intros Hok. destruct (modalElem_result s) as [r|] eqn:Hc.
  - destruct (Hok _ Hc) as (h & e & -> & Hd & _).
    exists h, s. split; [apply memoize_hit; exact Hc|].
    split; [apply builds_refl|]. repeat split; auto.
    + symmetry. apply app_nil_r.
    + intros i e' Hi Hl. apply lookup_lt_Some in Hl. lia.
  - set (s0 := set_trace (fun t => t ++ [Built Content]) s).
    destruct (wp_elim _ _ _ (buildModal_wp s0))
      as (r & s1 & Hrun & -> & e & sm & over & _ & Hd & Hcl & _ & _ & _ & _
          & Hq & Hh).
    apply quiet_set_trace in Hq.
    destruct Hq as (Hv & (Hm & Hs & Hcc) & Ht & Htr).
    change (dom s0) with (dom s) in *. change (heap s0) with (heap s) in *.
    change (browser_env s0) with (browser_env s) in *.
    eexists _, _. split.
    { apply memoize_miss; [exact Hc|]. fold s0.
      unfold bind. rewrite Hrun. cbn [read]. rewrite trigger_run.
      reflexivity. }
    assert (Hk : dom_kept (dom s) (dom s1)) by (rewrite Hd; apply dom_kept_app).
    unfold builds. proj.
    split.
    { split; [exact Hv|]. split; [exact Hk|].
      split; [rewrite Hd; apply styles_kept_app|]. split; [exact Hh|].
      split.
      { intros [] r; proj; congruence. }
      split.
      { unfold created. proj. rewrite Hc, Ht.
        rewrite (scheduled_same _ _ _ Hv). reflexivity. }
      rewrite (invoked_app s _ [Built Content]) by exact Htr.
      apply app_nil_r. }
    split; [reflexivity|]. split; [exact Hs|]. split; [exact Hcc|].
    split.
    { intros r Hr. cbn in Hr. injection Hr as <-.
      exists (Handle (length (dom s))), e. proj.
      split; [reflexivity|]. split; [rewrite Hd; apply lookup_app_last|].
      exact Hcl. }
    split; [exact Htr|]. split; [rewrite Hd, length_app; lia|].
    intros i e' Hi Hl'. rewrite Hd in Hl'.
    destruct (lookup_snoc_ge _ _ _ _ Hi Hl') as [_ ->]. exact Hcl.
Qed.

Lemma closeElem_run s :
  ok_content s -> ok_close s ->
  exists r s',
    closeElem s = Ret r s' /\ builds s s' /\
    closeElem_result s' = Some r /\
    shadowElem_result s' = shadowElem_result s /\
    ok_content s' /\ ok_close s' /\
    (exists evs,
        trace s' = trace s ++ evs /\
        forall q,
          length (filter (fun ev => ev = Built q) evs)
          = match cell q s, cell q s' with
            | None, Some _ => 1
            | _, _ => 0
            end) /\
    length (dom s) <= length (dom s') /\
    forall i e, length (dom s) <= i -> dom s' !! i = Some e ->
                className e = "pico-content" \/
                className e = "pico-close" /\
                enabled (closeButton (options s)) = true.
Proof.
  intros Hcont Hok. destruct (closeElem_result s) as [r|] eqn:Hc.
  - exists r, s. split; [apply memoize_hit; exact Hc|].
    split; [apply builds_refl|]. repeat split; auto.
    + exists []. split; [symmetry; apply app_nil_r|].
      intros q. destruct (cell q s); reflexivity.
    + intros i e' Hi Hl. apply lookup_lt_Some in Hl. lia.
  - set (s0 := set_trace (fun t => t ++ [Built CloseButton]) s).
    destruct (enabled (closeButton (options s))) eqn:Hen.
    2:{ eexists _, _. split.
        { apply memoize_miss; [exact Hc|]. apply buildClose_disabled.
          exact Hen. }
        unfold builds, ok_content, ok_close. proj.
        split.
        { split; [repeat split|]. split; [apply dom_kept_refl|].
          split; [apply styles_kept_refl|]. split; [apply heap_evolves_refl|].
          split; [intros [] r; proj; congruence|].
          split; [rewrite created_same by reflexivity;
                  symmetry; apply app_nil_r|].
          rewrite (invoked_app s _ [Built CloseButton]) by reflexivity.
          apply app_nil_r. }
        split; [reflexivity|]. split; [reflexivity|].
        split; [exact Hcont|].
        split; [intros r Hr; injection Hr as <-; exact Hen|].
        split.
        { exists [Built CloseButton]. split; [reflexivity|].
          intros []; proj; rewrite ?Hc;
            try (destruct (shadowElem_result s); reflexivity);
            try (destruct (modalElem_result s); reflexivity); reflexivity. }
        split; [lia|].
        intros i e' Hi Hl. apply lookup_lt_Some in Hl. lia. }
    assert (Hcont0 : ok_content s0) by exact Hcont.
    destruct (modalElem_run s0 Hcont0)
      as (hm & s1 & Hrun1 & Hb1 & Hm1 & Hs1 & Hc1 & Hok1 & Htr1 & Hlen1 & Hnew1).
    destruct (Hok1 _ Hm1) as (hm' & em & Heq & Hdm & Hclm).
    injection Heq as <-.
    pose proof (lookup_lt_Some _ _ _ Hdm) as Hlt.
    destruct (wp_elim _ _ _ (buildClose_wp modalElem HClose s0 hm s1 Hen Hrun1 Hlt))
      as (r & s2 & Hrun & -> & e & Hd & Hcl & Hl & Hq & Hh).
    destruct Hq as (Hv & (Hm & Hs & Hcc) & Ht & Htr).
    eexists _, _. split; [apply memoize_miss; [exact Hc|exact Hrun]|].
    set (n := length (dom s1)) in *.
    set (s' := set_closeElem_result (Some (Some (Handle n))) s2).
    assert (Hb0 : builds s s0).
    { unfold builds. subst s0. proj. split; [repeat split|].
      split; [apply dom_kept_refl|]. split; [apply styles_kept_refl|].
      split; [apply heap_evolves_refl|]. split; [auto|].
      split; [rewrite created_same by reflexivity; symmetry; apply app_nil_r|].
      rewrite (invoked_app s _ [Built CloseButton]) by reflexivity.
      apply app_nil_r. }
    assert (Hk : dom_kept (dom s1) (dom s')).
    { subst s'. proj. rewrite Hd.
      eapply dom_kept_trans; [|apply dom_kept_app].
      apply dom_kept_alter. apply kept_adopt. }
    assert (Hopt : options s' = options s).
    { transitivity (options s1); [apply Hv|]. apply Hb1. }
    assert (Henv : browser_env s2 = browser_env s1) by apply Hv.
    assert (Hb2 : builds s1 s').
    { unfold builds. subst s'. proj. split; [exact Hv|]. split; [exact Hk|].
      split.
      { rewrite Hd. eapply styles_kept_trans; [|apply styles_kept_app].
        apply styles_kept_alter. reflexivity. }
      split; [exact Hh|]. split.
      { intros [] r; proj; try congruence.
        rewrite Hc1. change (closeElem_result s0) with (closeElem_result s).
        congruence. }
      split; [rewrite created_same by exact Hm; rewrite app_nil_r; exact Ht|].
      unfold invoked. proj. rewrite Htr. reflexivity. }
    split; [exact (builds_trans _ _ _ Hb0 (builds_trans _ _ _ Hb1 Hb2))|].
    split; [reflexivity|].
    split; [subst s'; proj; rewrite Hs, Hs1; reflexivity|].
    split.
    { eapply ok_content_kept; [exact Hok1|exact Hk|exact Hm]. }
    split.
    { intros r Hr. subst s'. cbn in Hr. injection Hr as <-.
      rewrite Hopt. split; [exact Hen|].
      exists e, hm, (adopt n em). proj. rewrite Hd.
      split; [apply lookup_app_last_alter|]. split; [exact Hcl|].
      split; [rewrite Henv; exact Hl|]. split; [congruence|].
      split.
      { apply lookup_app_l_Some. rewrite list_lookup_alter_eq, Hdm.
        reflexivity. }
      cbn. apply elem_of_app. right. apply list_elem_of_singleton.
      reflexivity. }
    split.
    { exists ([Built CloseButton]
              ++ match modalElem_result s with
                 | Some _ => []
                 | None => [Built Content]
                 end).
      split.
      { subst s'. proj. rewrite Htr, Htr1. subst s0. proj.
        rewrite <- app_assoc. reflexivity. }
      intros []; subst s'; proj.
      - rewrite Hs, Hs1. change (shadowElem_result s0) with (shadowElem_result s).
        destruct (modalElem_result s), (shadowElem_result s); reflexivity.
      - rewrite Hm, Hm1. destruct (modalElem_result s); reflexivity.
      - rewrite Hc. destruct (modalElem_result s); reflexivity. }
    assert (Hlen' : length (dom s') = S n).
    { subst s'. proj. rewrite Hd, length_app, length_alter. cbn. lia. }
    split; [change (dom s0) with (dom s) in Hlen1; lia|].
    intros i e0 Hi Hl0. subst s'. proj in Hl0. rewrite Hd in Hl0.
    destruct (decide (i < n)) as [Hin|Hin].
    + left. rewrite lookup_app_l in Hl0 by (rewrite length_alter; exact Hin).
      destruct (lookup_lt_is_Some_2 _ _ Hin) as [e1 He1].
      rewrite <- (Hnew1 i e1 Hi He1).
      destruct (decide (elem hm = i)) as [Heq|Hne].
      * rewrite Heq, list_lookup_alter_eq, He1 in Hl0. injection Hl0 as <-.
        reflexivity.
      * rewrite list_lookup_alter_ne in Hl0 by exact Hne. congruence.
    + right. rewrite lookup_app_r in Hl0 by (rewrite length_alter; lia).
      rewrite length_alter in Hl0.
      pose proof (lookup_lt_Some _ _ _ Hl0) as Hlt0. cbn in Hlt0.
      assert (Hz : i - length (dom s1) = 0) by (subst n; lia).
      rewrite Hz in Hl0. cbn in Hl0.
      injection Hl0 as <-. split; [exact Hcl|reflexivity].
Qed.

Lemma Inv_builds n0 s s' evs :
  Inv n0 s -> builds s s' ->
  ok_overlay s' -> ok_content s' -> ok_close s' ->
  trace s' = trace s ++ evs ->
  (forall q,
      length (filter (fun ev => ev = Built q) evs)
      = match cell q s, cell q s' with
        | None, Some _ => 1
        | _, _ => 0
        end) ->
  (forall i e, length (dom s) <= i -> dom s' !! i = Some e ->
               className e = "pico-close" ->
               enabled (closeButton (options s)) = true) ->
  Inv n0 s'.
Proof.
  intros [_ _ _ Ht Hk] (Hv & Hd & _ & _ & Hmono & _) Ho Hc Hcl Htr Hcount Hnew.
  split; try assumption.
  - intros q. rewrite (built_app q s s' evs Htr), Ht, Hcount.
    specialize (Hmono q). destruct (cell q s) as [r|].
    + rewrite (Hmono r eq_refl). reflexivity.
    + destruct (cell q s'); reflexivity.
  - eapply ok_classes_kept; eauto. apply Hv.
Qed.

Lemma shadowElem_Inv n0 s :
  Inv n0 s ->
  exists h s',
    shadowElem s = Ret (Some h) s' /\ Inv n0 s' /\ builds s s' /\
    shadowElem_result s' = Some (Some h) /\
    modalElem_result s' = modalElem_result s /\
    closeElem_result s' = closeElem_result s.
Proof.
  intros HI.
  destruct (shadowElem_run s (inv_overlay _ _ HI))
    as (h & s' & Hrun & Hb & Hs & Hm & Hc & Hok & Htr & Hlen & Hnew).
  exists h, s'. repeat (split; [assumption|]). split; [|auto].
  pose proof Hb as (Hv & Hd & _).
  eapply Inv_builds; eauto.
  - eapply ok_content_kept; eauto. apply HI.
  - eapply ok_close_kept; eauto; try apply Hv; try apply HI.
    intros x. congruence.
  - intros []; cbn [cell]; rewrite ?Hs, ?Hm, ?Hc.
    + destruct (shadowElem_result s); reflexivity.
    + destruct (shadowElem_result s), (modalElem_result s); reflexivity.
    + destruct (shadowElem_result s), (closeElem_result s); reflexivity.
  - intros i e Hi Hl Hcl. rewrite (Hnew i e Hi Hl) in Hcl. discriminate.
Qed.

Lemma modalElem_Inv n0 s :
  Inv n0 s ->
  exists h s',
    modalElem s = Ret (Some h) s' /\ Inv n0 s' /\ builds s s' /\
    modalElem_result s' = Some (Some h) /\
    shadowElem_result s' = shadowElem_result s /\
    closeElem_result s' = closeElem_result s.
Proof.
  intros HI.
  destruct (modalElem_run s (inv_content _ _ HI))
    as (h & s' & Hrun & Hb & Hm & Hs & Hc & Hok & Htr & Hlen & Hnew).
  exists h, s'. repeat (split; [assumption|]). split; [|auto].
  pose proof Hb as (Hv & Hd & _ & _ & Hmono & _).
  eapply Inv_builds; eauto.
  - eapply ok_overlay_kept; eauto; try apply Hv. apply HI.
  - eapply ok_close_kept; eauto; try apply Hv; try apply HI.
    apply (Hmono Content).
  - intros []; cbn [cell]; rewrite ?Hs, ?Hm, ?Hc.
    + destruct (modalElem_result s), (shadowElem_result s); reflexivity.
    + destruct (modalElem_result s); reflexivity.
    + destruct (modalElem_result s), (closeElem_result s); reflexivity.
  - intros i e Hi Hl Hcl. rewrite (Hnew i e Hi Hl) in Hcl. discriminate.
Qed.

Lemma closeElem_Inv n0 s :
  Inv n0 s ->
  exists r s',
    closeElem s = Ret r s' /\ Inv n0 s' /\ builds s s' /\
    closeElem_result s' = Some r /\
    shadowElem_result s' = shadowElem_result s.
Proof.
  intros HI.
  destruct (closeElem_run s (inv_content _ _ HI) (inv_close _ _ HI))
    as (r & s' & Hrun & Hb & Hc & Hs & Hok & Hokc & (evs & Htr & Hcount)
        & Hlen & Hnew).
  exists r, s'. repeat (split; [assumption|]). split; [|auto].
  pose proof Hb as (Hv & Hd & _).
  eapply Inv_builds; eauto.
  - eapply ok_overlay_kept; eauto; try apply Hv. apply HI.
  - intros i e Hi Hl Hcl.
    destruct (Hnew i e Hi Hl) as [Hcc|[_ Hen]]; [|exact Hen].
    rewrite Hcc in Hcl. discriminate.
Qed.

(** ** Every step keeps the invariant *)

Lemma evolves_refl s : evolves s s.
Proof. repeat split; auto using heap_evolves_refl. Qed.

Lemma evolves_trans s1 s2 s3 : evolves s1 s2 -> evolves s2 s3 -> evolves s1 s3.
Proof.
  intros (He & Hi & Ho & Hh & Hc & Hm & Hs & Hcl)
         (He' & Hi' & Ho' & Hh' & Hc' & Hm' & Hs' & Hcl').
  repeat split; try congruence; auto.
  eapply heap_evolves_trans; [exact Hh|]. rewrite <- He. exact Hh'.
Qed.

Lemma builds_evolves s s' : builds s s' -> evolves s s'.
Proof.
  intros ((He & Hi & Ho & _ & _ & _ & Hm & Hs & Hc) & _ & _ & Hh & Hmono & _).
  repeat split; auto; congruence.
Qed.

Lemma keeps_bind {A B} I (m : M A) (k : A -> M B) :
  keeps I m -> (forall a, keeps I (k a)) -> keeps I (bind m k).
Proof.
  intros Hm Hk s Hs. specialize (Hm s Hs). unfold bind.
  destruct (m s) as [a s'|e s']; cbn in *; [apply Hk|]; exact Hm.
Qed.

Lemma keeps_ret {A} I (a : A) : keeps I (ret a).
Proof. intros s Hs. exact Hs. Qed.

Lemma keeps_read {A} I (f : state -> A) : keeps I (read f).
Proof. intros s Hs. exact Hs. Qed.

Lemma keeps_throw {A} I e : keeps I (@throw A e).
Proof. intros s Hs. exact Hs. Qed.

Lemma keeps_invoke {A} I r (method : handle -> M A) :
  (forall h, keeps I (method h)) -> keeps I (invoke r method).
Proof. intros H. destruct r; [apply H|apply keeps_throw]. Qed.

Lemma keeps_call {A} I defined (f : M A) : keeps I f -> keeps I (call defined f).
Proof.
  intros H s Hs. unfold call. destruct (defined s); [apply H|]; exact Hs.
Qed.

Section Keeps.
Variable n0 : nat.
Variable s0 : state.
(** [true] while no step is [destroy()]. *)
Variable undestroyed : bool.

#[local] Abbreviation ok := (good n0 s0 undestroyed).

Lemma good_frame s s' :
  ok s ->
  same_cells s s' -> (forall q, built q s' = built q s) ->
  dom_kept (dom s) (dom s') -> length (dom s') = length (dom s) ->
  evolves s s' -> (undestroyed = true -> same_flags s s') ->
  ok s'.
Proof.
  intros (HI & He & Hf) Hc Hb Hd Hl Hev Hf'. split; [|split].
  - eapply Inv_frame; eauto; apply Hev.
  - eapply evolves_trans; eauto.
  - intros Hu. destruct (Hf Hu) as (H1 & H2 & H3).
    destruct (Hf' Hu) as (H1' & H2' & H3'). repeat split; congruence.
Qed.

Lemma good_builds s s' : ok s -> Inv n0 s' -> builds s s' -> ok s'.
Proof.
  intros (HI & He & Hf) HI' Hb. split; [exact HI'|]. split.
  - eapply evolves_trans; [exact He|]. apply builds_evolves. exact Hb.
  - intros Hu. destruct (Hf Hu) as (H1 & H2 & H3).
    destruct Hb as ((_ & _ & _ & _ & _ & _ & H1' & H2' & H3') & _).
    repeat split; congruence.
Qed.

Ltac frame_goal Hs :=
  eapply good_frame; [exact Hs|..];
  try reflexivity; try (repeat split; fail); try apply dom_kept_refl;
  try (unfold evolves, Elem.set_style_prop; proj; repeat split;
       auto using heap_evolves_refl; fail).

Ltac framed := intros s Hs; frame_goal Hs.

Lemma good_style_prop id prop v s :
  ok s -> ok (Elem.set_style_prop id prop v s).
Proof.
  intros Hs. frame_goal Hs.
  - cbn. apply dom_kept_alter. intros e. repeat split. auto.
  - cbn. apply length_alter.
Qed.

Lemma keeps_show h : keeps ok (Elem.show h).
Proof. intros s Hs. apply good_style_prop. exact Hs. Qed.

Lemma keeps_hide h : keeps ok (Elem.hide h).
Proof. intros s Hs. apply good_style_prop. exact Hs. Qed.

Lemma keeps_destroy h : keeps ok (Elem.destroy h).
Proof.
  intros s Hs. unfold Elem.destroy. destruct (decide _); [|exact Hs].
  frame_goal Hs.
Qed.

Lemma keeps_trigger o modal : keeps ok (trigger o modal).
Proof.
  intros s Hs. unfold trigger. rewrite trigger_loop_run.
  frame_goal Hs.
Qed.

Lemma keeps_watch o cb : keeps ok (watch o cb).
Proof. destruct o; framed. Qed.

Lemma keeps_unset_modalElem :
  undestroyed = false -> keeps ok (modify (set_modalElem_defined false)).
Proof. intros Hu. framed. congruence. Qed.

Lemma keeps_unset_shadowElem :
  undestroyed = false -> keeps ok (modify (set_shadowElem_defined false)).
Proof. intros Hu. framed. congruence. Qed.

Lemma keeps_unset_closeElem :
  undestroyed = false -> keeps ok (modify (set_closeElem_defined false)).
Proof. intros Hu. framed. congruence. Qed.

Lemma keeps_shadowElem : keeps ok shadowElem.
Proof.
  intros s Hs.
  destruct (shadowElem_Inv n0 s (proj1 Hs)) as (h & s' & -> & H & Hb & _).
  exact (good_builds _ _ Hs H Hb).
Qed.

Lemma keeps_modalElem : keeps ok modalElem.
Proof.
  intros s Hs.
  destruct (modalElem_Inv n0 s (proj1 Hs)) as (h & s' & -> & H & Hb & _).
  exact (good_builds _ _ Hs H Hb).
Qed.

Lemma keeps_closeElem : keeps ok closeElem.
Proof.
  intros s Hs.
  destruct (closeElem_Inv n0 s (proj1 Hs)) as (h & s' & -> & H & Hb & _).
  exact (good_builds _ _ Hs H Hb).
Qed.

Create HintDb keeps.

Hint Resolve keeps_ret keeps_read keeps_throw keeps_show keeps_hide
  keeps_destroy keeps_trigger keeps_watch keeps_unset_modalElem
  keeps_unset_shadowElem keeps_unset_closeElem
  keeps_shadowElem keeps_modalElem keeps_closeElem : keeps.

Ltac keeps_tac :=
  repeat first
    [ apply keeps_bind; [|intros ?]
    | apply keeps_invoke; intros ?
    | apply keeps_call
    | solve [auto with keeps] ].

Lemma keeps_close : keeps ok close.
Proof. unfold close. keeps_tac. Qed.

Lemma keeps_Iface_show : keeps ok Iface.show.
Proof. unfold Iface.show. keeps_tac. Qed.

Lemma keeps_returnIface {A} (m : M A) :
  keeps ok m -> keeps ok (returnIface m).
Proof. intros H. unfold returnIface. keeps_tac. Qed.

Lemma keeps_Iface_destroy : undestroyed = false -> keeps ok Iface.destroy.
Proof. intros Hu. unfold Iface.destroy. keeps_tac. Qed.

Lemma keeps_accessor builder :
  keeps ok builder -> keeps ok (buildElemAccessor builder).
Proof. intros H. unfold buildElemAccessor. keeps_tac. Qed.

Lemma good_click target s : ok s -> ok (click target s).
Proof.
  intros Hs. unfold click. destruct (dom s !! target) as [e|]; [|exact Hs].
  revert s Hs. induction (listeners e) as [|[name h] ls IH]; intros s Hs.
  - exact Hs.
  - cbn [fold_left]. apply IH. cbn [snd].
    destruct h; cbn [run_handler]; [apply keeps_close|]; exact Hs.
Qed.

Lemma good_fire s : ok s -> ok (fire s).
Proof.
  intros Hs. unfold fire. destruct (timers s) as [|[cb arg] rest]; [exact Hs|].
  frame_goal Hs.
  intros q. unfold built. cbn. rewrite filter_app, length_app. cbn.
  rewrite decide_False by discriminate. cbn. lia.
Qed.

Lemma good_step s o :
  (undestroyed = true -> o <> OpDestroy) -> ok s -> ok (step s o).
Proof.
  intros Hu Hs. destruct o; cbn [step].
  - apply keeps_Iface_show; exact Hs.
  - apply keeps_returnIface; [apply keeps_close|exact Hs].
  - apply keeps_Iface_destroy; [|exact Hs].
    destruct undestroyed; [|reflexivity]. exfalso. apply Hu; reflexivity.
  - apply keeps_returnIface; [apply keeps_watch|exact Hs].
  - apply keeps_returnIface; [apply keeps_watch|exact Hs].
  - apply keeps_returnIface; [apply keeps_watch|exact Hs].
  - apply keeps_accessor; [apply keeps_modalElem|exact Hs].
  - apply keeps_accessor; [apply keeps_closeElem|exact Hs].
  - apply keeps_accessor; [apply keeps_shadowElem|exact Hs].
  - apply good_click; exact Hs.
  - apply good_fire; exact Hs.
Qed.

Lemma good_steps ops s :
  (undestroyed = true -> OpDestroy ∉ ops) -> ok s -> ok (steps s ops).
Proof.
  revert s. induction ops as [|o ops IH]; intros s Hu Hs; [exact Hs|].
  cbn [steps fold_left]. apply IH.
  - intros H Hin. apply (Hu H). right. exact Hin.
  - apply good_step; [|exact Hs]. intros H ->. apply (Hu H). left.
Qed.
End Keeps.

Lemma Inv_picoModal arg p : Inv (length (page_dom p)) (picoModal arg p).
Proof.
  split.
  - intros r Hr. discriminate Hr.
  - intros r Hr. discriminate Hr.
  - intros r Hr. discriminate Hr.
  - intros []; reflexivity.
  - intros i e Hi Hl. apply lookup_lt_Some in Hl. cbn in Hl. lia.
Qed.

(** From a state with the invariant, every run of steps keeps it and
    evolves the state. *)
Lemma steps_good n0 s ops :
  Inv n0 s -> Inv n0 (steps s ops) /\ evolves s (steps s ops).
Proof.
  intros H.
  destruct (good_steps n0 s false ops s) as (HI & He & _).
  - discriminate.
  - split; [exact H|]. split; [apply evolves_refl|discriminate].
  - split; assumption.
Qed.

(** Without [destroy()], the three variables keep their functions. *)
Lemma steps_same_flags n0 s ops :
  Inv n0 s -> OpDestroy ∉ ops -> same_flags s (steps s ops).
Proof.
  intros H Hops.
  destruct (good_steps n0 s true ops s) as (_ & _ & Hf).
  - intros _. exact Hops.
  - split; [exact H|]. split; [apply evolves_refl|]. intros _. repeat split.
  - apply Hf. reflexivity.
Qed.

(** Every state a modal goes through satisfies the invariant. *)
Lemma Inv_reachable arg p ops :
  Inv (length (page_dom p)) (steps (picoModal arg p) ops).
Proof. apply steps_good, Inv_picoModal. Qed.

(** ** Showing and closing *)

Lemma bind_Ret {A B} (m : M A) (k : A -> M B) s a s1 :
  m s = Ret a s1 -> bind m k s = k a s1.
Proof. intros H. unfold bind. rewrite H. reflexivity. Qed.

Lemma bind_Throw {A B} (m : M A) (k : A -> M B) s e s1 :
  m s = Throw e s1 -> bind m k s = Throw e s1.
Proof. intros H. unfold bind. rewrite H. reflexivity. Qed.

Lemma call_defined {A} defined (f : M A) s :
  defined s = true -> call defined f s = f s.
Proof. intros H. unfold call. rewrite H. reflexivity. Qed.

Lemma call_undefined {A} defined (f : M A) s :
  defined s = false -> call defined f s = Throw TypeError s.
Proof. intros H. unfold call. rewrite H. reflexivity. Qed.

Lemma display_set id v s :
  id < length (dom s) ->
  display id (Elem.set_style_prop id "display" v s) = Some v.
Proof.
  intros H. destruct (lookup_lt_is_Some_2 _ _ H) as [e He].
  unfold display. cbn. rewrite list_lookup_alter_eq, He. cbn.
  apply lookup_insert_eq.
Qed.

Lemma display_set_ne id id' v s :
  id <> id' ->
  display id' (Elem.set_style_prop id "display" v s) = display id' s.
Proof.
  intros H. unfold display. cbn.
  rewrite list_lookup_alter_ne by exact H. reflexivity.
Qed.

Lemma display_kept s s' id v :
  styles_kept (dom s) (dom s') ->
  display id s = Some v -> display id s' = Some v.
Proof.
  intros Hk. unfold display. destruct (dom s !! id) as [e|] eqn:He; [|discriminate].
  destruct (Hk _ _ He) as (e' & -> & Hs). cbn. rewrite Hs. auto.
Qed.

Lemma Inv_style_prop n0 id prop v s :
  Inv n0 s -> Inv n0 (Elem.set_style_prop id prop v s).
Proof.
  intros H. eapply Inv_frame; [exact H|..]; try reflexivity.
  - repeat split.
  - cbn. apply dom_kept_alter. intros e. repeat split. auto.
  - cbn. apply length_alter.
Qed.

Lemma Inv_set_timers n0 f s : Inv n0 s -> Inv n0 (set_timers f s).
Proof.
  intros H. eapply Inv_frame; [exact H|..]; try reflexivity.
  - repeat split.
  - apply dom_kept_refl.
Qed.

(** Setting [display] on the two boxes, one after the other. *)
Lemma display_both v ho hc s' :
  elem hc < length (dom s') ->
  display (elem ho) s' = Some v ->
  let s'' := Elem.set_style_prop (elem hc) "display" v s' in
  display (elem ho) s'' = Some v /\ display (elem hc) s'' = Some v.
Proof.
  intros Hlt Hd s''. split; [|apply display_set; exact Hlt].
  destruct (decide (elem hc = elem ho)) as [Heq|Hne].
  - rewrite <- Heq. apply display_set. exact Hlt.
  - subst s''. rewrite display_set_ne by exact Hne. exact Hd.
Qed.

Lemma created_shift s s2 s4 s6 :
  same_vars s s2 ->
  modalElem_result s2 = modalElem_result s ->
  modalElem_result s6 = modalElem_result s4 ->
  created s2 s4 = created s s6.
Proof.
  intros Hv H2 H6. unfold created.
  rewrite H2, H6, (scheduled_same _ _ _ Hv). reflexivity.
Qed.

Lemma show_run n0 s :
  Inv n0 s -> alive s ->
  exists s' ho hc,
    Iface.show s = Ret (iface s) s' /\ Inv n0 s' /\ same_vars s s' /\
    shadowElem_result s' = Some (Some ho) /\
    modalElem_result s' = Some (Some hc) /\
    display (elem ho) s' = Some (VString "block") /\
    display (elem hc) s' = Some (VString "block") /\
    timers s' = timers s ++ created s s' ++ scheduled afterShowEvent s /\
    invoked s' = invoked s.
Proof.
  intros HI (Hfm & Hfs & Hfc).
  destruct (shadowElem_Inv n0 s HI)
    as (ho & s1 & Hrun1 & HI1 & Hb1 & Hs1 & Hm1 & Hc1).
  set (s2 := Elem.set_style_prop (elem ho) "display" (VString "block") s1).
  assert (HI2 : Inv n0 s2) by (apply Inv_style_prop; exact HI1).
  destruct (closeElem_Inv n0 s2 HI2) as (rc & s3 & Hrun3 & HI3 & Hb3 & Hc3 & Hs3).
  destruct (modalElem_Inv n0 s3 HI3)
    as (hc & s4 & Hrun4 & HI4 & Hb4 & Hm4 & Hs4 & Hc4).
  set (s5 := Elem.set_style_prop (elem hc) "display" (VString "block") s4).
  assert (HI5 : Inv n0 s5) by (apply Inv_style_prop; exact HI4).
  set (s6 := set_timers (fun t => t ++ scheduled afterShowEvent s5) s5).
  assert (Hv1 : same_vars s s1) by apply Hb1.
  assert (Hv2 : same_vars s s2) by exact Hv1.
  assert (Hb24 : builds s2 s4) by (eapply builds_trans; eassumption).
  assert (Hv4 : same_vars s s4).
  { eapply same_vars_trans; [exact Hv2|apply Hb24]. }
  assert (Hv6 : same_vars s s6) by exact Hv4.
  destruct Hv1 as (_ & _ & _ & _ & _ & _ & Hfm1 & Hfs1 & Hfc1).
  pose proof Hv4 as (_ & Hi4 & _ & _ & _ & _ & Hfm4 & Hfs4 & Hfc4).
  assert (Hfm3 : modalElem_defined s3 = true).
  { destruct Hb3 as ((_ & _ & _ & _ & _ & _ & H & _) & _).
    rewrite H. change (modalElem_defined s2) with (modalElem_defined s1).
    congruence. }
  exists s6, ho, hc. split.
  { unfold Iface.show.
    rewrite (bind_Ret _ _ s (Some ho) s1)
      by (rewrite call_defined by exact Hfs; exact Hrun1).
    rewrite (bind_Ret _ _ s1 None s2) by reflexivity.
    rewrite (bind_Ret _ _ s2 rc s3)
      by (rewrite call_defined by (cbn; congruence); exact Hrun3).
    rewrite (bind_Ret _ _ s3 (Some hc) s4)
      by (rewrite call_defined by exact Hfm3; exact Hrun4).
    rewrite (bind_Ret _ _ s4 None s5) by reflexivity.
    rewrite (bind_Ret _ _ s5 (iface s5) s5) by reflexivity.
    rewrite (bind_Ret _ _ s5 tt s6) by apply trigger_run.
    unfold read. rewrite <- Hi4. reflexivity. }
  split; [apply Inv_set_timers; exact HI5|].
  split; [exact Hv6|].
  assert (Hlt_o : elem ho < length (dom s1)).
  { destruct (inv_overlay _ _ HI1 _ Hs1) as (h & e & Heq & Hd & _).
    injection Heq as <-. eapply lookup_lt_Some. exact Hd. }
  assert (Hlt_c : elem hc < length (dom s4)).
  { destruct (inv_content _ _ HI4 _ Hm4) as (h & e & Heq & Hd & _).
    injection Heq as <-. eapply lookup_lt_Some. exact Hd. }
  assert (Hd4 : display (elem ho) s4 = Some (VString "block")).
  { apply (display_kept s2); [apply Hb24|]. apply display_set. exact Hlt_o. }
  destruct (display_both _ ho hc s4 Hlt_c Hd4) as [Hdo Hdc].
  split.
  { change (shadowElem_result s6) with (shadowElem_result s4).
    rewrite Hs4, Hs3. exact Hs1. }
  split; [exact Hm4|]. split; [exact Hdo|]. split; [exact Hdc|].
  split.
  { destruct Hb1 as (_ & _ & _ & _ & _ & Ht1 & _).
    destruct Hb24 as (_ & _ & _ & _ & _ & Ht4 & _).
    rewrite (created_same _ _ Hm1), app_nil_r in Ht1.
    change (timers s6) with (timers s4 ++ scheduled afterShowEvent s4).
    rewrite Ht4. change (timers s2) with (timers s1). rewrite Ht1.
    rewrite (created_shift s s2 s4 s6 Hv2 Hm1 eq_refl).
    rewrite (scheduled_same _ _ _ Hv4), <- app_assoc. reflexivity. }
  destruct Hb1 as (_ & _ & _ & _ & _ & _ & Hi1).
  destruct Hb24 as (_ & _ & _ & _ & _ & _ & Hi24).
  change (invoked s6) with (invoked s4). rewrite Hi24.
  change (invoked s2) with (invoked s1). exact Hi1.
Qed.

Lemma close_run n0 s :
  Inv n0 s -> modalElem_defined s = true -> shadowElem_defined s = true ->
  exists s' ho hc,
    close s = Ret tt s' /\ Inv n0 s' /\ same_vars s s' /\
    shadowElem_result s' = Some (Some ho) /\
    modalElem_result s' = Some (Some hc) /\
    display (elem ho) s' = Some (VString "none") /\
    display (elem hc) s' = Some (VString "none") /\
    timers s' = timers s ++ created s s' ++ scheduled afterCloseEvent s /\
    invoked s' = invoked s.
Proof.
  intros HI Hfm Hfs.
  destruct (shadowElem_Inv n0 s HI)
    as (ho & s1 & Hrun1 & HI1 & Hb1 & Hs1 & Hm1 & Hc1).
  set (s2 := Elem.set_style_prop (elem ho) "display" (VString "none") s1).
  assert (HI2 : Inv n0 s2) by (apply Inv_style_prop; exact HI1).
  destruct (modalElem_Inv n0 s2 HI2)
    as (hc & s4 & Hrun4 & HI4 & Hb24 & Hm4 & Hs4 & Hc4).
  set (s5 := Elem.set_style_prop (elem hc) "display" (VString "none") s4).
  assert (HI5 : Inv n0 s5) by (apply Inv_style_prop; exact HI4).
  set (s6 := set_timers (fun t => t ++ scheduled afterCloseEvent s5) s5).
  assert (Hv1 : same_vars s s1) by apply Hb1.
  assert (Hv2 : same_vars s s2) by exact Hv1.
  assert (Hv4 : same_vars s s4).
  { eapply same_vars_trans; [exact Hv2|apply Hb24]. }
  assert (Hv6 : same_vars s s6) by exact Hv4.
  destruct Hv1 as (_ & _ & _ & _ & _ & _ & Hfm1 & Hfs1 & Hfc1).
  exists s6, ho, hc. split.
  { unfold close.
    rewrite (bind_Ret _ _ s (Some ho) s1)
      by (rewrite call_defined by exact Hfs; exact Hrun1).
    rewrite (bind_Ret _ _ s1 None s2) by reflexivity.
    rewrite (bind_Ret _ _ s2 (Some hc) s4)
      by (rewrite call_defined by (cbn; congruence); exact Hrun4).
    rewrite (bind_Ret _ _ s4 None s5) by reflexivity.
    rewrite (bind_Ret _ _ s5 (iface s5) s5) by reflexivity.
    apply trigger_run. }
  split; [apply Inv_set_timers; exact HI5|].
  split; [exact Hv6|].
  assert (Hlt_o : elem ho < length (dom s1)).
  { destruct (inv_overlay _ _ HI1 _ Hs1) as (h & e & Heq & Hd & _).
    injection Heq as <-. eapply lookup_lt_Some. exact Hd. }
  assert (Hlt_c : elem hc < length (dom s4)).
  { destruct (inv_content _ _ HI4 _ Hm4) as (h & e & Heq & Hd & _).
    injection Heq as <-. eapply lookup_lt_Some. exact Hd. }
  assert (Hd4 : display (elem ho) s4 = Some (VString "none")).
  { apply (display_kept s2); [apply Hb24|]. apply display_set. exact Hlt_o. }
  destruct (display_both _ ho hc s4 Hlt_c Hd4) as [Hdo Hdc].
  split.
  { change (shadowElem_result s6) with (shadowElem_result s4).
    rewrite Hs4. exact Hs1. }
  split; [exact Hm4|]. split; [exact Hdo|]. split; [exact Hdc|].
  split.
  { destruct Hb1 as (_ & _ & _ & _ & _ & Ht1 & _).
    destruct Hb24 as (_ & _ & _ & _ & _ & Ht4 & _).
    rewrite (created_same _ _ Hm1), app_nil_r in Ht1.
    change (timers s6) with (timers s4 ++ scheduled afterCloseEvent s4).
    rewrite Ht4. change (timers s2) with (timers s1). rewrite Ht1.
    rewrite (created_shift s s2 s4 s6 Hv2 Hm1 eq_refl).
    rewrite (scheduled_same _ _ _ Hv4), <- app_assoc. reflexivity. }
  destruct Hb1 as (_ & _ & _ & _ & _ & _ & Hi1).
  destruct Hb24 as (_ & _ & _ & _ & _ & _ & Hi24).
  change (invoked s6) with (invoked s4). rewrite Hi24.
  change (invoked s2) with (invoked s1). exact Hi1.
Qed.

(** ** What the claims rest on *)

Lemma add_filter_lookup b m k :
  k <> "filter" -> Elem.add_filter b m !! k = m !! k.
Proof.
  intros Hk. unfold Elem.add_filter.
  destruct (default VUndefined (m !! "opacity")); try reflexivity.
  all: apply lookup_insert_ne; congruence.
Qed.

Lemma add_filter_none b m :
  default VUndefined (m !! "opacity") = VUndefined -> Elem.add_filter b m = m.
Proof. intros H. unfold Elem.add_filter. rewrite H. reflexivity. Qed.


Lemma enabled_false o : enabled o = false <-> o = Some false.
Proof. destruct o as [[|]|]; cbn; split; congruence. Qed.

Lemma enabled_true o : enabled o = true <-> o <> Some false.
Proof. destruct o as [[|]|]; cbn; split; congruence. Qed.

Lemma click_single target s e name h :
  dom s !! target = Some e -> listeners e = [(name, h)] ->
  click target s = state_of (run_handler h s).
Proof. intros Hd Hl. unfold click. rewrite Hd, Hl. reflexivity. Qed.

Lemma steps_app s ops ops' : steps s (ops ++ ops') = steps (steps s ops) ops'.
Proof. apply fold_left_app. Qed.

Lemma reachable_alive arg p ops :
  OpDestroy ∉ ops -> alive (steps (picoModal arg p) ops).
Proof.
  intros H.
  destruct (steps_same_flags _ _ ops (Inv_picoModal arg p) H) as (H1 & H2 & H3).
  repeat split; assumption.
Qed.

Lemma show_visible arg p ops :
  OpDestroy ∉ ops ->
  let s := steps (picoModal arg p) ops in
  exists s', Iface.show s = Ret (iface s) s' /\ visibility s' = both "block".
Proof.
  intros H s.
  destruct (show_run _ s (Inv_reachable arg p ops) (reachable_alive arg p ops H))
    as (s' & ho & hc & Hrun & _ & _ & Hs & Hm & Hdo & Hdc & _).
  exists s'. split; [exact Hrun|].
  unfold visibility. rewrite Hs, Hm, Hdo, Hdc. reflexivity.
Qed.

Lemma close_visible arg p ops :
  OpDestroy ∉ ops ->
  let s := steps (picoModal arg p) ops in
  exists s', Iface.close s = Ret (iface s) s' /\ visibility s' = both "none".
Proof.
  intros H s.
  destruct (reachable_alive arg p ops H) as (Hfm & Hfs & _).
  destruct (close_run _ s (Inv_reachable arg p ops) Hfm Hfs)
    as (s' & ho & hc & Hrun & _ & Hv & Hs & Hm & Hdo & Hdc & _).
  exists s'. split.
  - unfold Iface.close, returnIface. rewrite (bind_Ret _ _ _ _ _ Hrun).
    unfold read. f_equal. apply Hv.
  - unfold visibility. rewrite Hs, Hm, Hdo, Hdc. reflexivity.
Qed.

Lemma repeat_snoc {A} (x : A) n : repeat x (S n) = repeat x n ++ [x].
Proof. induction n as [|n IH]; [reflexivity|]. cbn in *. rewrite <- IH. reflexivity. Qed.

Lemma not_in_repeat (o x : op) n ops :
  x <> o -> o ∉ ops -> o ∉ ops ++ repeat x n.
Proof.
  intros Hx Hops Hin. apply elem_of_app in Hin. destruct Hin as [Hin|Hin].
  - exact (Hops Hin).
  - apply list_elem_of_In, repeat_spec in Hin. congruence.
Qed.

Lemma show_Ret_alive n0 s v s' :
  Inv n0 s -> Iface.show s = Ret v s' -> alive s.
Proof.
  intros HI H. unfold Iface.show in H.
  destruct (shadowElem_defined s) eqn:Hfs.
  2:{ rewrite (bind_Throw _ _ s TypeError s) in H
        by (apply call_undefined; exact Hfs). discriminate H. }
  destruct (shadowElem_Inv n0 s HI)
    as (ho & s1 & Hrun1 & HI1 & Hb1 & _).
  rewrite (bind_Ret _ _ s (Some ho) s1) in H
    by (rewrite call_defined by exact Hfs; exact Hrun1).
  set (s2 := Elem.set_style_prop (elem ho) "display" (VString "block") s1) in *.
  rewrite (bind_Ret _ _ s1 None s2) in H by reflexivity.
  assert (HI2 : Inv n0 s2) by (apply Inv_style_prop; exact HI1).
  destruct Hb1 as ((_ & _ & _ & _ & _ & _ & Hfm1 & _ & Hfc1) & _).
  destruct (closeElem_defined s) eqn:Hfc.
  2:{ rewrite (bind_Throw _ _ s2 TypeError s2) in H
        by (apply call_undefined; exact Hfc1). discriminate H. }
  destruct (closeElem_Inv n0 s2 HI2) as (rc & s3 & Hrun3 & HI3 & Hb3 & _).
  rewrite (bind_Ret _ _ s2 rc s3) in H
    by (rewrite call_defined by exact Hfc1; exact Hrun3).
  destruct Hb3 as ((_ & _ & _ & _ & _ & _ & Hfm3 & _) & _).
  change (modalElem_defined s2) with (modalElem_defined s1) in Hfm3.
  destruct (modalElem_defined s) eqn:Hfm.
  2:{ rewrite (bind_Throw _ _ s3 TypeError s3) in H
        by (apply call_undefined; congruence). discriminate H. }
  unfold alive. auto.
Qed.

Lemma close_Ret_defined n0 s v s' :
  Inv n0 s -> close s = Ret v s' ->
  modalElem_defined s = true /\ shadowElem_defined s = true.
Proof.
  intros HI H. unfold close in H.
  destruct (shadowElem_defined s) eqn:Hfs.
  2:{ rewrite (bind_Throw _ _ s TypeError s) in H
        by (apply call_undefined; exact Hfs). discriminate H. }
  destruct (shadowElem_Inv n0 s HI)
    as (ho & s1 & Hrun1 & HI1 & Hb1 & _).
  rewrite (bind_Ret _ _ s (Some ho) s1) in H
    by (rewrite call_defined by exact Hfs; exact Hrun1).
  set (s2 := Elem.set_style_prop (elem ho) "display" (VString "none") s1) in *.
  rewrite (bind_Ret _ _ s1 None s2) in H by reflexivity.
  destruct Hb1 as ((_ & _ & _ & _ & _ & _ & Hfm1 & _) & _).
  destruct (modalElem_defined s) eqn:Hfm.
  2:{ rewrite (bind_Throw _ _ s2 TypeError s2) in H
        by (apply call_undefined; exact Hfm1). discriminate H. }
  auto.
Qed.

(** What a [destroy()] that returns leaves behind. *)
Lemma destroy_Ret n0 s v s1 :
  Inv n0 s -> Iface.destroy s = Ret v s1 ->
  Inv n0 s1 /\
  modalElem_defined s1 = false /\ shadowElem_defined s1 = false /\
  closeElem_defined s1 = false /\
  exists hm ho,
    modalElem_result s1 = Some (Some hm) /\
    shadowElem_result s1 = Some (Some ho).
Proof.
  intros HI H.
  assert (HI1 : Inv n0 s1).
  { destruct (keeps_Iface_destroy n0 s false eq_refl s) as (HI1 & _).
    - split; [exact HI|]. split; [apply evolves_refl|discriminate].
    - rewrite H in HI1. exact HI1. }
  split; [exact HI1|].
  unfold Iface.destroy in H.
  destruct (modalElem_defined s) eqn:Hfm.
  2:{ rewrite (bind_Throw _ _ s TypeError s) in H
        by (apply call_undefined; exact Hfm). discriminate H. }
  destruct (modalElem_Inv n0 s HI) as (hm & sa & Hrun1 & HIa & Hba & Hma & _).
  rewrite (bind_Ret _ _ s (Some hm) sa) in H
    by (rewrite call_defined by exact Hfm; exact Hrun1).
  cbn [invoke] in H. unfold bind at 1 in H. unfold Elem.destroy at 1 in H.
  destruct (decide (elem hm ∈ body sa)); [|discriminate H].
  set (sb := set_body _ sa) in H.
  rewrite (bind_Ret _ _ sb tt (set_modalElem_defined false sb)) in H
    by reflexivity.
  set (sc := set_modalElem_defined false sb) in H.
  assert (HIc : Inv n0 sc).
  { eapply Inv_frame; [exact HIa|..]; try reflexivity.
    - repeat split.
    - apply dom_kept_refl. }
  destruct (shadowElem_defined sc) eqn:Hfs.
  2:{ rewrite (bind_Throw _ _ sc TypeError sc) in H
        by (apply call_undefined; exact Hfs). discriminate H. }
  destruct (shadowElem_Inv n0 sc HIc)
    as (ho & sd & Hrun2 & HId & Hbd & Hsd & Hmd & _).
  rewrite (bind_Ret _ _ sc (Some ho) sd) in H
    by (rewrite call_defined by exact Hfs; exact Hrun2).
  cbn [invoke] in H. unfold bind at 1 in H. unfold Elem.destroy at 1 in H.
  destruct (decide (elem ho ∈ body sd)); [|discriminate H].
  set (se := set_body _ sd) in H.
  rewrite (bind_Ret _ _ se tt (set_shadowElem_defined false se)) in H
    by reflexivity.
  cbn [modify] in H. injection H as _ <-.
  destruct Hbd as ((_ & _ & _ & _ & _ & _ & Hfmd & _) & _).
  cbn. repeat split; try assumption.
  exists hm, ho. split; [|exact Hsd]. rewrite Hmd. exact Hma.
Qed.

(** ** The script on small pages *)

(** [picoModal("<p>Hi</p>").show()]: an overlay, a content box holding the
    markup and the close button, both boxes visible. *)
Example show_hi :
  map className (dom (steps hi [OpShow]))
  = ["pico-overlay"; "pico-content"; "pico-close"] /\
  map contents (dom (steps hi [OpShow]))
  = [[]; [Html "<p>Hi</p>"; ChildElem 2]; [Html "&#xD7;"]] /\
  visibility (steps hi [OpShow]) = both "block".
Proof. vm_compute. repeat split. Qed.

(** A click on the close button hides both boxes and schedules the
    callbacks of [afterClose]. *)
Example click_close_button :
  visibility (steps hi [OpAfterClose 9; OpShow; OpClick 2]) = both "none" /\
  timers (steps hi [OpAfterClose 9; OpShow; OpClick 2]) = [(9, 0)] /\
  invoked (steps hi [OpAfterClose 9; OpShow; OpClick 2; OpFire])
  = [Invoked 9 0].
Proof. vm_compute. repeat split. Qed.

(** Widths: 100 gives [100px] and [-50px]; 5 gives [-2.5px]; without a
    width, the 300 pixels the browser of the examples measures. *)
Example box_sizes :
  content_size (num_of_Z 100)
  = {["width" := VString "100px"; "margin" := VString "0 0 0 -50px"]} /\
  content_size (num_of_Z 5)
  = {["width" := VString "5px"; "margin" := VString "0 0 0 -2.5px"]} /\
  content_prop "margin" (steps hi [OpModalElem])
  = Some (VString "0 0 0 -150px").
Proof. vm_compute. repeat split. Qed.

(** ** The claims *)



(** C2: on a modal that was not destroyed, [show()] returns and leaves the
    overlay and the content box with [display: block], [close()] returns
    and leaves both with [display: none], and calling either any number
    of times in a row gives the visibility that one call gives. *)
Theorem C2_show_close_visibility (arg : argument) (p : page) (ops : list op) :
  OpDestroy ∉ ops ->
  let s := steps (picoModal arg p) ops in
  (exists s', Iface.show s = Ret (iface s) s' /\ visibility s' = both "block")
  /\
  (exists s', Iface.close s = Ret (iface s) s' /\ visibility s' = both "none")
  /\
  forall n,
    visibility (steps s (repeat OpShow (S n))) = visibility (steps s [OpShow])
    /\
    visibility (steps s (repeat OpClose (S n))) = visibility (steps s [OpClose]).
Proof.
  intros H s.
  split; [apply show_visible; exact H|].
  split; [apply close_visible; exact H|].
  assert (Hshow : forall ops', OpDestroy ∉ ops' ->
            visibility (steps (picoModal arg p) (ops' ++ [OpShow]))
            = both "block").
  { intros ops' H'. destruct (show_visible arg p ops' H') as (s' & Hrun & Hv).
    rewrite steps_app. cbn [steps fold_left step]. rewrite Hrun. exact Hv. }
  assert (Hclose : forall ops', OpDestroy ∉ ops' ->
            visibility (steps (picoModal arg p) (ops' ++ [OpClose]))
            = both "none").
  { intros ops' H'. destruct (close_visible arg p ops' H') as (s' & Hrun & Hv).
    rewrite steps_app. cbn [steps fold_left step]. rewrite Hrun. exact Hv. }
  intros n. subst s. rewrite <- !steps_app, !repeat_snoc, !app_assoc.
  split.
  - rewrite (Hshow ops H), (Hshow (ops ++ repeat OpShow n)); [reflexivity|].
    apply not_in_repeat; [discriminate|exact H].
  - rewrite (Hclose ops H), (Hclose (ops ++ repeat OpClose n)); [reflexivity|].
    apply not_in_repeat; [discriminate|exact H].
Qed.

Lemma C2_witness :
  (OpDestroy ∉ [OpAfterShow 7; OpShow; OpClick 0]) /\
  visibility (steps (steps hi [OpAfterShow 7; OpShow; OpClick 0])
                    (repeat OpShow 3))
  = visibility (steps (steps hi [OpAfterShow 7; OpShow; OpClick 0]) [OpShow]).
Proof.
  assert (H : OpDestroy ∉ [OpAfterShow 7; OpShow; OpClick 0])
    by exact (bool_decide_eq_true_1
                (OpDestroy ∉ [OpAfterShow 7; OpShow; OpClick 0]) eq_refl).
  split; [exact H|].
  exact (proj1 (proj2 (proj2 (C2_show_close_visibility
           (ArgString "<p>Hi</p>") blank [OpAfterShow 7; OpShow; OpClick 0] H))
           2)).
Defined.

(** C3: registering appends the callback to its channel.  A [show()] that
    returns appends to the timer queue one timer per callback of
    [afterShow], in order, each bound to the facade, after those of
    [afterCreate] when this call built the content box, and invokes no
    callback; [close()] does the same with [afterClose]; building the
    content box schedules the callbacks of [afterCreate]; a callback is
    invoked when its timer expires, with the facade as argument. *)
Theorem C3_callbacks_deferred (arg : argument) (p : page) (ops : list op) :
  let s := steps (picoModal arg p) ops in
  (forall o cb,
      callbacks o (state_of (register o cb s)) = callbacks o s ++ [cb]) /\
  (forall v s', Iface.show s = Ret v s' ->
      v = iface s /\
      timers s' = timers s ++ created s s' ++ scheduled afterShowEvent s /\
      invoked s' = invoked s) /\
  (forall v s', Iface.close s = Ret v s' ->
      v = iface s /\
      timers s' = timers s ++ created s s' ++ scheduled afterCloseEvent s /\
      invoked s' = invoked s) /\
  (forall r s', modalElem s = Ret r s' ->
      timers s' = timers s ++ created s s' /\ invoked s' = invoked s) /\
  (forall cb a rest, timers s = (cb, a) :: rest ->
      timers (fire s) = rest /\
      invoked (fire s) = invoked s ++ [Invoked cb a]).
Proof.
  intros s. pose proof (Inv_reachable arg p ops) as HI. fold s in HI.
  split; [intros [] cb; reflexivity|].
  split.
  { intros v s' H.
    destruct (show_run _ s HI (show_Ret_alive _ _ _ _ HI H))
      as (s'' & ho & hc & Hrun & _ & _ & _ & _ & _ & _ & Ht & Hi).
    rewrite Hrun in H. injection H as <- <-. auto. }
  split.
  { intros v s' H. unfold Iface.close, returnIface, bind in H.
    destruct (close s) as [[] s1|e s1] eqn:Hc; [|discriminate H].
    destruct (close_Ret_defined _ _ _ _ HI Hc) as [Hfm Hfs].
    destruct (close_run _ s HI Hfm Hfs)
      as (s'' & ho & hc & Hrun & _ & Hv & _ & _ & _ & _ & Ht & Hi).
    rewrite Hrun in Hc. injection Hc as <-.
    unfold read in H. injection H as <- <-.
    split; [apply Hv|]. auto. }
  split.
  { intros r s' H.
    destruct (modalElem_Inv _ s HI) as (h & s'' & Hrun & _ & Hb & _).
    rewrite Hrun in H. injection H as <- <-.
    split; apply Hb. }
  intros cb a rest Ht. unfold fire. rewrite Ht. split; [reflexivity|].
  unfold invoked. cbn. rewrite filter_app. reflexivity.
Qed.

Lemma C3_witness :
  Iface.show (steps hi [OpAfterCreate 5; OpAfterShow 7])
  = Ret 0 (steps hi [OpAfterCreate 5; OpAfterShow 7; OpShow]) /\
  timers (steps hi [OpAfterCreate 5; OpAfterShow 7; OpShow]) = [(5, 0); (7, 0)] /\
  invoked (steps hi [OpAfterCreate 5; OpAfterShow 7; OpShow]) = [].
Proof.
  assert (H : Iface.show (steps hi [OpAfterCreate 5; OpAfterShow 7])
              = Ret 0 (steps hi [OpAfterCreate 5; OpAfterShow 7; OpShow]))
    by (vm_compute; reflexivity).
  split; [exact H|].
  destruct (proj1 (proj2 (C3_callbacks_deferred (ArgString "<p>Hi</p>") blank
                            [OpAfterCreate 5; OpAfterShow 7])) _ _ H)
    as (_ & Ht & Hi).
  split; [rewrite Ht; vm_compute; reflexivity|].
  rewrite Hi. vm_compute. reflexivity.
Defined.

(** C4: after [destroy()], [show()] raises a TypeError. *)
Lemma C4_counterexample :
  Iface.show (steps hi [OpShow; OpDestroy])
  = Throw TypeError (steps hi [OpShow; OpDestroy]) /\
  ~ exists v, Iface.show (steps hi [OpShow; OpDestroy])
              = Ret v (steps hi [OpShow; OpDestroy]).
Proof.
  assert (H : Iface.show (steps hi [OpShow; OpDestroy])
              = Throw TypeError (steps hi [OpShow; OpDestroy]))
    by (vm_compute; reflexivity).
  split; [exact H|]. intros [v Hv]. rewrite H in Hv. discriminate Hv.
Qed.

(** C4 (amended): once [destroy()] has returned, whatever happens next,
    [show()], [close()] and [destroy()] raise a TypeError and leave the
    state as it is; the accessors of the content box and of the overlay
    return their element and leave the state as it is, and so does the
    accessor of the close button when the button has been built. *)
Theorem C4_after_destroy (arg : argument) (p : page) (ops ops' : list op)
    (v : unit) (s1 : state) :
  Iface.destroy (steps (picoModal arg p) ops) = Ret v s1 ->
  let s2 := steps s1 ops' in
  Iface.show s2 = Throw TypeError s2 /\
  Iface.close s2 = Throw TypeError s2 /\
  Iface.destroy s2 = Throw TypeError s2 /\
  (exists id, Iface.modalElem s2 = Ret id s2) /\
  (exists id, Iface.overalElem s2 = Ret id s2) /\
  (forall h, closeElem_result s2 = Some (Some h) ->
             Iface.closeElem s2 = Ret (elem h) s2).
Proof.
  intros H s2.
  destruct (destroy_Ret _ _ _ _ (Inv_reachable arg p ops) H)
    as (HI1 & Hfm & Hfs & Hfc & hm & ho & Hm & Hs).
  destruct (steps_good _ s1 ops' HI1)
    as [HI2 (_ & _ & _ & _ & Hc & Hfm' & Hfs' & Hfc')].
  fold s2 in HI2, Hc, Hfm', Hfs', Hfc'.
  specialize (Hfm' Hfm). specialize (Hfs' Hfs).
  pose proof (Hc Content _ Hm) as Hm2. pose proof (Hc Overlay _ Hs) as Hs2.
  cbn [cell] in Hm2, Hs2.
  split.
  { unfold Iface.show. apply bind_Throw, call_undefined. exact Hfs'. }
  split.
  { unfold Iface.close, returnIface, close.
    apply bind_Throw, bind_Throw, call_undefined. exact Hfs'. }
  split.
  { unfold Iface.destroy. apply bind_Throw, call_undefined. exact Hfm'. }
  split.
  { exists (elem hm). unfold Iface.modalElem, buildElemAccessor.
    rewrite (bind_Ret _ _ s2 (Some hm) s2)
      by (apply memoize_hit; exact Hm2). reflexivity. }
  split.
  { exists (elem ho). unfold Iface.overalElem, buildElemAccessor.
    rewrite (bind_Ret _ _ s2 (Some ho) s2)
      by (apply memoize_hit; exact Hs2). reflexivity. }
  intros h Hh. unfold Iface.closeElem, buildElemAccessor.
  rewrite (bind_Ret _ _ s2 (Some h) s2) by (apply memoize_hit; exact Hh).
  reflexivity.
Qed.

Lemma C4_witness :
  Iface.destroy (steps (picoModal (ArgString "<p>Hi</p>") blank) [OpShow])
  = Ret tt (steps hi [OpShow; OpDestroy]) /\
  Iface.close (steps (steps hi [OpShow; OpDestroy]) [OpModalElem])
  = Throw TypeError (steps (steps hi [OpShow; OpDestroy]) [OpModalElem]).
Proof.
  assert (H : Iface.destroy
                (steps (picoModal (ArgString "<p>Hi</p>") blank) [OpShow])
              = Ret tt (steps hi [OpShow; OpDestroy]))
    by (vm_compute; reflexivity).
  split; [exact H|].
  exact (proj1 (proj2 (C4_after_destroy (ArgString "<p>Hi</p>") blank
                         [OpShow] [OpModalElem] tt _ H))).
Defined.

(** C5: after [show()], the object passed as [overlayStyles] has a
    [filter] it did not have. *)
Lemma C5_counterexample :
  let s0 := picoModal (ArgOptions options_dim) page_dim in
  filter_of 0 s0 = None /\
  filter_of 0 (steps s0 [OpShow]) = Some (VString "alpha(opacity=50)") /\
  heap (steps s0 [OpShow]) !! 0 <> heap s0 !! 0.
Proof.
  split; [reflexivity|]. split; [vm_compute; reflexivity|].
  intros H. apply (f_equal (fun o => o ≫= fun m : styles => m !! "filter")) in H.
  vm_compute in H. discriminate H.
Qed.

(** C5 (amended): no step changes the configuration; an object of the
    heap, so each style map of the configuration, keeps every property
    but [filter], and is unchanged when it has no [opacity]; the option
    accessor returns the explicit value, or else the default. *)
Theorem C5_configuration_kept (arg : argument) (p : page) (ops : list op)
    (l : nat) (m : styles) :
  page_heap p !! l = Some m ->
  let s0 := picoModal arg p in
  let s := steps s0 ops in
  options s = options s0 /\
  (exists m',
      heap s !! l = Some m' /\
      (forall k, k <> "filter" -> m' !! k = m !! k) /\
      (default VUndefined (m !! "opacity") = VUndefined -> m' = m)) /\
  forall (A : Type) (opt : config -> option A) (d : A),
    getOption opt d s
    = Ret match opt (options s0) with
          | Some v => v
          | None => d
          end s.
Proof.
  intros Hm s0 s.
  destruct (steps_good _ s0 ops (Inv_picoModal arg p))
    as [_ (He & _ & Ho & Hh & _)].
  fold s in He, Ho, Hh.
  split; [exact Ho|]. split.
  - destruct (Hh l m Hm) as [H|H].
    + exists m. split; [exact H|]. split; [reflexivity|]. reflexivity.
    + exists (Elem.add_filter (browser_env s0) m). split; [exact H|].
      split; [intros k Hk; apply add_filter_lookup; exact Hk|].
      apply add_filter_none.
  - intros A opt d. unfold getOption. rewrite Ho. reflexivity.
Qed.

Lemma C5_witness :
  page_heap page_dim !! 0 = Some {["opacity" := VNumber (Fin 1 1)]} /\
  options (steps (picoModal (ArgOptions options_dim) page_dim) [OpShow])
  = options_dim.
Proof.
  split; [reflexivity|].
  exact (proj1 (C5_configuration_kept (ArgOptions options_dim) page_dim
                  [OpShow] 0 {["opacity" := VNumber (Fin 1 1)]} eq_refl)).
Defined.

(** C6: a click on the overlay does nothing at all when [overlayClose] is
    false, and does what [close()] does when it is true or not set. *)
Theorem C6_overlay_click (arg : argument) (p : page) (ops : list op)
    (h : handle) :
  let s := steps (picoModal arg p) ops in
  shadowElem_result s = Some (Some h) ->
  (overlayClose (options s) = Some false -> click (elem h) s = s) /\
  (overlayClose (options s) <> Some false ->
   click (elem h) s = state_of (close s)).
Proof.
  intros s Hc. pose proof (Inv_reachable arg p ops) as HI. fold s in HI.
  destruct (inv_overlay _ _ HI _ Hc) as (h' & e & Heq & Hd & _ & Hl).
  injection Heq as <-. unfold overlay_handler in Hl.
  split; intros Ho.
  - apply enabled_false in Ho. rewrite Ho in Hl.
    apply (click_single _ _ _ _ _ Hd Hl).
  - apply enabled_true in Ho. rewrite Ho in Hl.
    apply (click_single _ _ _ _ _ Hd Hl).
Qed.

Lemma C6_witness :
  shadowElem_result (steps (picoModal (ArgOptions no_overlay_close) blank)
                           [OpShow])
  = Some (Some (Handle 0)) /\
  click 0 (steps (picoModal (ArgOptions no_overlay_close) blank) [OpShow])
  = steps (picoModal (ArgOptions no_overlay_close) blank) [OpShow].
Proof.
  split; [vm_compute; reflexivity|].
  exact (proj1 (C6_overlay_click (ArgOptions no_overlay_close) blank [OpShow]
                  (Handle 0) ltac:(vm_compute; reflexivity))
               eq_refl).
Defined.

(** C7: with [closeButton] false the builder of the close button returns
    [undefined] and adds no element, and no element the modal ever created
    is a close button; otherwise the builder returns the handle of an
    element of class [pico-close] that is a child of the content box and
    whose click runs [close]. *)
Theorem C7_close_button (arg : argument) (p : page) (ops : list op) :
  let s := steps (picoModal arg p) ops in
  (closeButton (options s) = Some false ->
   (exists s', closeElem s = Ret None s' /\ dom s' = dom s) /\
   forall i e, length (page_dom p) <= i -> dom s !! i = Some e ->
               className e <> "pico-close") /\
  (closeButton (options s) <> Some false ->
   exists h s' e hm em,
     closeElem s = Ret (Some h) s' /\
     dom s' !! elem h = Some e /\ className e = "pico-close" /\
     modalElem_result s' = Some (Some hm) /\
     dom s' !! elem hm = Some em /\ className em = "pico-content" /\
     ChildElem (elem h) ∈ contents em /\
     click (elem h) s' = state_of (close s')).
Proof.
  intros s. pose proof (Inv_reachable arg p ops) as HI. fold s in HI.
  split; intros Hcb.
  - apply enabled_false in Hcb. split.
    + destruct (closeElem_result s) as [r|] eqn:Hc.
      * pose proof (inv_close _ _ HI r Hc) as Hok. destruct r as [h|].
        { destruct Hok as [Hen _]. congruence. }
        exists s. split; [apply memoize_hit; exact Hc|reflexivity].
      * eexists. split.
        { apply memoize_miss; [exact Hc|]. apply buildClose_disabled.
          exact Hcb. }
        reflexivity.
    + intros i e Hi Hl Hcl.
      pose proof (inv_classes _ _ HI i e Hi Hl Hcl). congruence.
  - apply enabled_true in Hcb.
    destruct (closeElem_Inv _ s HI) as (r & s' & Hrun & HI' & Hb & Hc & _).
    assert (Ho : options s' = options s) by apply Hb.
    pose proof (inv_close _ _ HI' r Hc) as Hok. rewrite Ho in Hok.
    destruct r as [h|]; [|congruence].
    destruct Hok as (_ & e & hm & em & Hd & Hcl & Hl & Hm & Hdm & Hin).
    destruct (inv_content _ _ HI' _ Hm) as (hm' & em' & Heq & Hdm' & Hclm).
    injection Heq as <-. rewrite Hdm in Hdm'. injection Hdm' as <-.
    exists h, s', e, hm, em. repeat (split; [assumption|]).
    exact (click_single _ _ _ _ HClose Hd Hl).
Qed.

Lemma C7_witness :
  closeButton (options (steps (picoModal (ArgOptions no_button) blank) [OpShow]))
  = Some false /\
  exists s',
    closeElem (steps (picoModal (ArgOptions no_button) blank) [OpShow])
    = Ret None s' /\
    dom s' = dom (steps (picoModal (ArgOptions no_button) blank) [OpShow]).
Proof.
  split; [reflexivity|].
  exact (proj1 (proj1 (C7_close_button (ArgOptions no_button) blank [OpShow])
                      eq_refl)).
Defined.







(** C10: when [closeButton] is false the accessor [closeElem()] raises a
    TypeError, whatever happened to the modal before; otherwise it returns
    an element. *)
Theorem C10_closeElem_accessor (arg : argument) (p : page) (ops : list op) :
  let s := steps (picoModal arg p) ops in
  (closeButton (options s) = Some false ->
   exists s', Iface.closeElem s = Throw TypeError s') /\
  (closeButton (options s) <> Some false ->
   exists id s', Iface.closeElem s = Ret id s').
Proof.
  intros s. pose proof (Inv_reachable arg p ops) as HI. fold s in HI.
  destruct (closeElem_Inv _ s HI) as (r & s' & Hrun & HI' & Hb & Hc & _).
  assert (Ho : options s' = options s) by apply Hb.
  pose proof (inv_close _ _ HI' r Hc) as Hok. rewrite Ho in Hok.
  unfold Iface.closeElem, buildElemAccessor, bind. rewrite Hrun.
  split; intros Hcb.
  - apply enabled_false in Hcb. destruct r as [h|].
    + destruct Hok as [Hen _]. congruence.
    + exists s'. reflexivity.
  - apply enabled_true in Hcb. destruct r as [h|].
    + exists (elem h), s'. reflexivity.
    + congruence.
Qed.

Lemma C10_witness :
  closeButton (options (steps (picoModal (ArgOptions no_button) blank) [OpShow]))
  = Some false /\
  exists s',
    Iface.closeElem (steps (picoModal (ArgOptions no_button) blank) [OpShow])
    = Throw TypeError s'.
Proof.
  split; [reflexivity|].
  exact (proj1 (C10_closeElem_accessor (ArgOptions no_button) blank [OpShow])
               eq_refl).
Defined.

(** * Further properties of the script *)

(** ** The elements as the builders make them *)

Ltac primx := intros H; unfold wp; cbn; apply H; try reflexivity; repeat split.

Lemma wpx_make parent s Q :
  (forall s',
      dom s' = match parent with
               | Some p =>
                   alter (fun e => Elem.set_contents
                                     (contents e ++ [ChildElem (length (dom s))]) e)
                         p (dom s ++ [Elem.new_element])
               | None => dom s ++ [Elem.new_element]
               end ->
      body s' = match parent with
                | Some _ => body s
                | None => body s ++ [length (dom s)]
                end ->
      heap s' = heap s -> quiet s s' ->
      Q (Some (Handle (length (dom s)))) s') ->
  wp (Elem.make parent) s Q.
Proof. destruct parent; primx. Qed.

Lemma wpx_clazz c h s Q :
  (forall s',
      dom s' = alter (fun e => Elem.set_className (className e +:+ c) e)
                     (elem h) (dom s) ->
      body s' = body s -> heap s' = heap s -> quiet s s' -> Q (Some h) s') ->
  wp (Elem.clazz c h) s Q.
Proof. primx. Qed.

Lemma wpx_new_object o s Q :
  (forall s',
      dom s' = dom s -> body s' = body s -> heap s' = heap s ++ [o] ->
      quiet s s' -> Q (length (heap s)) s') ->
  wp (new_object o) s Q.
Proof. primx. Qed.

Lemma wpx_stylize l h s Q :
  (forall s',
      heap s' = alter (Elem.add_filter (browser_env s)) l (heap s) ->
      dom s' = alter (fun e => Elem.set_style
                                 (default ∅ (heap s' !! l) ∪ style e) e)
                     (elem h) (dom s) ->
      body s' = body s -> quiet s s' -> Q (Some h) s') ->
  wp (Elem.stylize (Some l) h) s Q.
Proof. primx. Qed.

Lemma wpx_html c h s Q :
  (forall s',
      dom s' = alter (html_update c) (elem h) (dom s) ->
      body s' = body s -> heap s' = heap s -> quiet s s' -> Q (Some h) s') ->
  wp (Elem.html c h) s Q.
Proof. intros H. unfold wp. rewrite html_run. apply H; try reflexivity; repeat split. Qed.

Lemma wpx_onClick cb h s Q :
  (forall s',
      dom s' = alter (fun e => Elem.set_listeners
                        (listeners e ++ [(click_event (browser_env s), cb)]) e)
                     (elem h) (dom s) ->
      body s' = body s -> heap s' = heap s -> quiet s s' -> Q (Some h) s') ->
  wp (Elem.onClick cb h) s Q.
Proof. primx. Qed.

Lemma chosen_default opt dflt hp m :
  chosen_styles opt dflt hp = Some m ->
  forall extra, (hp ++ extra ++ [dflt]) !! default (length (hp ++ extra)) opt = Some m.
Proof.
  intros H extra. destruct opt as [l|]; cbn in *.
  - apply lookup_app_l_Some. exact H.
  - injection H as <-. rewrite app_assoc. apply lookup_app_last.
Qed.

Lemma buildOverlay_exact c s :
  wp (buildOverlay c) s (fun r s' =>
    r = Some (Handle (length (dom s))) /\
    exists over,
      dom s' = dom s ++
        [{| className := "pico-overlay";
            style := over ∪ overlay_base;
            contents := [];
            listeners := [(click_event (browser_env s),
                           if enabled (overlayClose (options s)) then c
                           else HNoop)] |}] /\
      (forall m,
          chosen_styles (overlayStyles (options s)) overlay_default (heap s)
          = Some m ->
          over = Elem.add_filter (browser_env s) m) /\
      body s' = body s ++ [length (dom s)] /\
      quiet s s' /\
      heap_evolves (browser_env s) (heap s) (heap s')).
Proof.
  unfold buildOverlay.
  bind_. apply wpx_make. intros s1 Hd1 Hb1 Hh1 Hq. cbv beta.
  bind_. apply wpx_clazz. intros s2 Hd2 Hb2 Hh2 Hq2. cbv beta. track Hq Hq2.
  bind_. apply wpx_new_object. intros s3 Hd3 Hb3 Hh3 Hq3. cbv beta. track Hq Hq3.
  bind_. apply wpx_stylize. intros s4 Hh4 Hd4 Hb4 Hq4. cbv beta.
  rewrite (quiet_env _ _ Hq) in Hh4. track Hq Hq4.
  bind_. apply wpx_new_object. intros s5 Hd5 Hb5 Hh5 Hq5. cbv beta. track Hq Hq5.
  bind_. apply wp_getOption. rewrite (quiet_options _ _ Hq). cbv beta.
  bind_. apply wpx_stylize. intros s6 Hh6 Hd6 Hb6 Hq6. cbv beta.
  rewrite (quiet_env _ _ Hq) in Hh6. track Hq Hq6.
  bind_. apply wp_getOption. rewrite (quiet_options _ _ Hq). cbv beta.
  unfold_invoke. apply wpx_onClick. intros s7 Hd7 Hb7 Hh7 Hq7.
  rewrite (quiet_env _ _ Hq) in Hd7. track Hq Hq7.
  split; [reflexivity|].
  rewrite Hh3, Hh2, Hh1 in Hh4. rewrite alter_app_last in Hh4.
  assert (Hbase : Elem.add_filter (browser_env s) overlay_base = overlay_base)
    by reflexivity.
  rewrite Hbase in Hh4.
  rewrite Hh2, Hh1 in Hd4. rewrite Hh4 in Hd4. rewrite lookup_app_last in Hd4. cbn [default] in Hd4.
  rewrite Hd3, Hd2, Hd1 in Hd4. cbn [elem] in Hd4.
  rewrite !alter_app_last in Hd4.
  rewrite Hd7, Hd6, Hd5, Hd4. cbn [elem]. rewrite !alter_app_last.
  elem_proj.
  exists (default ∅ (heap s6 !! default (length (heap s4))
                                       (overlayStyles (options s)))).
  split.
  { unfold Elem.set_listeners, Elem.set_style, Elem.set_className,
      Elem.new_element, enabled, id.
    cbn [className style contents listeners app String.append].
    rewrite (right_id ∅ (∪) overlay_base). reflexivity. }
  split.
  { intros m Hm.
    pose proof (chosen_default _ _ _ _ Hm [overlay_base]) as Hc.
    rewrite <- Hh4 in Hc. rewrite app_assoc, <- Hh4, <- Hh5 in Hc.
    rewrite Hh6, list_lookup_alter_eq, Hc. reflexivity. }
  split; [rewrite Hb7, Hb6, Hb5, Hb4, Hb3, Hb2, Hb1; reflexivity|].
  split; [exact Hq|].
  rewrite Hh7, Hh6, Hh5, Hh4. heap_steps.
Qed.

Lemma buildModal_exact s :
  wp buildModal s (fun r s' =>
    r = Some (Handle (length (dom s))) /\
    exists over,
      dom s' = dom s ++
        [content_elem (default VUndefined (content (options s)))
           (over ∪ (content_size (modal_width s) ∪ content_base))] /\
      (forall m,
          chosen_styles (modalStyles (options s)) content_default (heap s)
          = Some m ->
          over = Elem.add_filter (browser_env s) m) /\
      body s' = body s ++ [length (dom s)] /\
      quiet s s' /\
      heap_evolves (browser_env s) (heap s) (heap s')).
Proof.
  unfold buildModal. bind_. unfold buildModal_elem.
  bind_. apply wpx_make. intros s1 Hd1 Hb1 Hh1 Hq. cbv beta.
  bind_. apply wpx_clazz. intros s2 Hd2 Hb2 Hh2 Hq2. cbv beta. track Hq Hq2.
  bind_. apply wpx_new_object. intros s3 Hd3 Hb3 Hh3 Hq3. cbv beta. track Hq Hq3.
  bind_. apply wpx_stylize. intros s4 Hh4 Hd4 Hb4 Hq4. cbv beta.
  rewrite (quiet_env _ _ Hq) in Hh4. track Hq Hq4.
  bind_. apply wp_getOption. rewrite (quiet_options _ _ Hq). cbv beta.
  unfold_invoke. apply wpx_html. intros s5 Hd5 Hb5 Hh5 Hq5. track Hq Hq5.
  rewrite Hh3, Hh2, Hh1 in Hh4. rewrite alter_app_last in Hh4.
  assert (Hbase : Elem.add_filter (browser_env s) content_base = content_base)
    by reflexivity.
  rewrite Hbase in Hh4.
  rewrite Hh2, Hh1 in Hd4. rewrite Hh4 in Hd4.
  rewrite lookup_app_last in Hd4. cbn [default] in Hd4.
  rewrite Hd3, Hd2, Hd1 in Hd4. cbn [elem] in Hd4.
  rewrite !alter_app_last in Hd4.
  rewrite Hd4 in Hd5. cbn [elem] in Hd5. rewrite alter_app_last in Hd5.
  assert (He1 : dom s5
                = dom s ++ [content_elem
                              (default VUndefined (content (options s)))
                              content_base]).
  { rewrite Hd5. f_equal. f_equal.
    generalize (default VUndefined (content (options s))). intros c.
    unfold content_elem, Elem.set_style, Elem.set_className,
      Elem.new_element, id.
    cbn [className style contents listeners String.append].
    rewrite (right_id ∅ (∪) content_base).
    destruct c; reflexivity. }
  clear Hd5 Hd4 Hd3 Hd2 Hd1.
  bind_. apply wp_getWidth.
  bind_. apply wp_getOption. rewrite (quiet_options _ _ Hq).
  rewrite (quiet_env _ _ Hq), He1. cbn [elem].
  fold (modal_width s). set (w := modal_width s). cbv beta.
  bind_. apply wpx_new_object. intros s6 Hd6 Hb6 Hh6 Hq6. cbv beta. track Hq Hq6.
  bind_. apply wpx_stylize. intros s7 Hh7 Hd7 Hb7 Hq7. cbv beta.
  rewrite (quiet_env _ _ Hq) in Hh7. track Hq Hq7.
  bind_. apply wpx_new_object. intros s8 Hd8 Hb8 Hh8 Hq8. cbv beta. track Hq Hq8.
  bind_. apply wp_getOption. rewrite (quiet_options _ _ Hq). cbv beta.
  bind_. apply wpx_stylize. intros s9 Hh9 Hd9 Hb9 Hq9. cbv beta.
  rewrite (quiet_env _ _ Hq) in Hh9. track Hq Hq9.
  apply wp_ret.
  split; [reflexivity|].
  rewrite Hh6, Hh5 in Hh7. rewrite alter_app_last in Hh7.
  assert (Hsize : Elem.add_filter (browser_env s) (content_size w)
                  = content_size w) by reflexivity.
  rewrite Hsize in Hh7.
  rewrite Hh5 in Hd7. rewrite Hh7 in Hd7.
  rewrite lookup_app_last in Hd7. cbn [default] in Hd7.
  rewrite Hd6, He1 in Hd7. cbn [elem] in Hd7. rewrite alter_app_last in Hd7.
  rewrite Hd8, Hd7 in Hd9. cbn [elem] in Hd9. rewrite alter_app_last in Hd9.
  exists (default ∅ (heap s9 !! default (length (heap s7))
                                       (modalStyles (options s)))).
  split; [rewrite Hd9; reflexivity|].
  split.
  { intros m Hm.
    pose proof (chosen_default _ _ _ _ Hm [content_base; content_size w]) as Hc.
    rewrite Hh4 in Hh7.
    replace (heap s ++ [content_base; content_size w])
      with (heap s7) in Hc by (rewrite Hh7, <- app_assoc; reflexivity).
    replace (heap s ++ [content_base; content_size w] ++ [content_default])
      with (heap s8) in Hc
      by (rewrite Hh8, Hh7, <- !app_assoc; reflexivity).
    rewrite Hh9, list_lookup_alter_eq, Hc. reflexivity. }
  split; [rewrite Hb9, Hb8, Hb7, Hb6, Hb5, Hb4, Hb3, Hb2, Hb1; reflexivity|].
  split; [exact Hq|].
  rewrite Hh9, Hh8, Hh7, Hh4. heap_steps.
Qed.

Lemma buildClose_exact el c s hm s1 :
  enabled (closeButton (options s)) = true ->
  el s = Ret (Some hm) s1 ->
  elem hm < length (dom s1) ->
  wp (buildClose el c) s (fun r s' =>
    r = Some (Handle (length (dom s1))) /\
    exists over,
      dom s' = alter (adopt (length (dom s1))) (elem hm) (dom s1) ++
        [{| className := "pico-close";
            style := over;
            contents := [Html (default "&#xD7;" (closeHtml (options s1)))];
            listeners := [(click_event (browser_env s1), c)] |}] /\
      (forall m,
          chosen_styles (closeStyles (options s1)) close_default (heap s1)
          = Some m ->
          over = Elem.add_filter (browser_env s1) m) /\
      body s' = body s1 /\
      quiet s1 s' /\
      heap_evolves (browser_env s1) (heap s1) (heap s')).
Proof.
  intros Hen Hrun Hlt. unfold buildClose.
  bind_. apply wp_getOption. cbv beta.
  unfold enabled in Hen. rewrite Hen.
  eapply wp_bind_run; [exact Hrun|].
  bind_. unfold Elem.child. apply wpx_make. intros s2 Hd2 Hb2 Hh2 Hq. cbv beta.
  fold (adopt (length (dom s1))) in Hd2.
  rewrite alter_app_before in Hd2 by exact Hlt.
  bind_. apply wp_getOption. rewrite (quiet_options _ _ Hq). cbv beta.
  bind_. apply wpx_html. intros s3 Hd3 Hb3 Hh3 Hq3. cbv beta. track Hq Hq3.
  bind_. apply wpx_clazz. intros s4 Hd4 Hb4 Hh4 Hq4. cbv beta. track Hq Hq4.
  bind_. apply wpx_new_object. intros s5 Hd5 Hb5 Hh5 Hq5. cbv beta. track Hq Hq5.
  bind_. apply wp_getOption. rewrite (quiet_options _ _ Hq). cbv beta.
  bind_. apply wpx_stylize. intros s6 Hh6 Hd6 Hb6 Hq6. cbv beta.
  rewrite (quiet_env _ _ Hq) in Hh6. track Hq Hq6.
  unfold_invoke. apply wpx_onClick. intros s7 Hd7 Hb7 Hh7 Hq7.
  rewrite (quiet_env _ _ Hq) in Hd7. track Hq Hq7.
  split; [reflexivity|].
  exists (default ∅ (heap s6 !! default (length (heap s4))
                                       (closeStyles (options s1)))).
  split.
  { rewrite Hd7, Hd6, Hd5, Hd4, Hd3, Hd2. cbn [elem].
    rewrite !alter_app_last_alter.
    unfold Elem.set_listeners, Elem.set_style, Elem.set_className,
      Elem.new_element, html_update, Elem.set_contents, to_string.
    cbn [className style contents listeners app String.append].
    rewrite (right_id ∅ (∪)). reflexivity. }
  split.
  { intros m Hm.
    pose proof (chosen_default _ _ _ _ Hm []) as Hc.
    rewrite app_nil_r in Hc. cbn [app] in Hc.
    rewrite <- Hh2, <- Hh3, <- Hh4, <- Hh5 in Hc.
    rewrite Hh6, list_lookup_alter_eq, Hc. reflexivity. }
  split; [rewrite Hb7, Hb6, Hb5, Hb4, Hb3, Hb2; reflexivity|].
  split; [exact Hq|].
  rewrite Hh7, Hh6, Hh5, Hh4, Hh3, Hh2. heap_steps.
Qed.

(** ** Invariants of a computation *)

Lemma hoare_bind {A B} I P (m : M A) (k : A -> M B) Q R :
  hoare I P m Q -> (forall a, hoare I (Q a) (k a) R) -> hoare I P (bind m k) R.
Proof.
  intros Hm Hk s HI HP. unfold bind. specialize (Hm s HI HP).
  destruct (m s) as [a s'|e s']; [|exact Hm].
  destruct Hm as [HI' HQ]. exact (Hk a s' HI' HQ).
Qed.

Lemma hoare_ret {A} I (P : state -> Prop) (a : A) (Q : A -> state -> Prop) :
  (forall s, P s -> Q a s) -> hoare I P (ret a) Q.
Proof. intros H s HI HP. cbn. auto. Qed.

Lemma hoare_read {A} I (P : state -> Prop) (f : state -> A)
    (Q : A -> state -> Prop) :
  (forall s, P s -> Q (f s) s) -> hoare I P (read f) Q.
Proof. intros H s HI HP. cbn. auto. Qed.

Lemma hoare_read_any {A} I (P : state -> Prop) (f : state -> A) :
  hoare I P (read f) (fun _ _ => True).
Proof. intros s HI HP. cbn. auto. Qed.

Lemma hoare_ret_any {A} I (P : state -> Prop) (a : A) :
  hoare I P (ret a) (fun _ _ => True).
Proof. intros s HI HP. cbn. auto. Qed.

Lemma hoare_throw {A} I P e (Q : A -> state -> Prop) : hoare I P (throw e) Q.
Proof. intros s HI HP. exact HI. Qed.

Lemma hoare_call {A} I P defined (f : M A) Q :
  hoare I P f Q -> hoare I P (call defined f) Q.
Proof.
  intros H s HI HP. unfold call. destruct (defined s); [|exact HI].
  exact (H s HI HP).
Qed.

Lemma hoare_invoke {A} I (P : state -> Prop) r (method : handle -> M A) Q :
  (forall h, r = Some h -> hoare I P (method h) Q) ->
  hoare I P (invoke r method) Q.
Proof. intros H. destruct r as [h|]; [exact (H h eq_refl)|apply hoare_throw]. Qed.

Lemma hoare_weaken {A} I (P P' : state -> Prop) (m : M A)
    (Q Q' : A -> state -> Prop) :
  hoare I P' m Q' -> (forall s, P s -> P' s) ->
  (forall a s, Q' a s -> Q a s) -> hoare I P m Q.
Proof.
  intros H HP HQ s HI Hp. specialize (H s HI (HP s Hp)).
  destruct (m s); [|exact H]. destruct H. auto.
Qed.

Lemma hoare_state_of {A} I P (m : M A) Q s :
  hoare I P m Q -> I s -> P s -> I (state_of (m s)).
Proof.
  intros H HI HP. specialize (H s HI HP).
  destruct (m s); cbn; [apply H|exact H].
Qed.

(** ** What a memoized builder adds to the document *)

Lemma shadowElem_miss s :
  shadowElem_result s = None ->
  exists s' e,
    shadowElem s = Ret (Some (Handle (length (dom s)))) s' /\
    dom s' = dom s ++ [e] /\
    body s' = body s ++ [length (dom s)] /\
    shadowElem_result s' = Some (Some (Handle (length (dom s)))) /\
    modalElem_result s' = modalElem_result s /\
    closeElem_result s' = closeElem_result s /\
    same_vars s s'.
Proof.
  intros Hc.
  set (s0 := set_trace (fun t => t ++ [Built Overlay]) s).
  destruct (wp_elim _ _ _ (buildOverlay_exact HClose s0))
    as (r & s1 & Hrun & -> & over & Hd & _ & Hb & Hq & _).
  apply quiet_set_trace in Hq. destruct Hq as (Hv & (Hm & _ & Hcc) & _).
  change (dom s0) with (dom s) in *. change (body s0) with (body s) in *.
  eexists _, _. split; [apply memoize_miss; [exact Hc|exact Hrun]|].
  proj. repeat (split; [first [eassumption | reflexivity]|]). exact Hv.
Qed.

Lemma modalElem_miss s :
  modalElem_result s = None ->
  exists s' e,
    modalElem s = Ret (Some (Handle (length (dom s)))) s' /\
    dom s' = dom s ++ [e] /\
    body s' = body s ++ [length (dom s)] /\
    modalElem_result s' = Some (Some (Handle (length (dom s)))) /\
    shadowElem_result s' = shadowElem_result s /\
    closeElem_result s' = closeElem_result s /\
    same_vars s s'.
Proof.
  intros Hc.
  set (s0 := set_trace (fun t => t ++ [Built Content]) s).
  destruct (wp_elim _ _ _ (buildModal_exact s0))
    as (r & s1 & Hrun & -> & over & Hd & _ & Hb & Hq & _).
  apply quiet_set_trace in Hq. destruct Hq as (Hv & (_ & Hs & Hcc) & _).
  change (dom s0) with (dom s) in *. change (body s0) with (body s) in *.
  eexists _, _. split.
  { apply memoize_miss; [exact Hc|]. fold s0.
    unfold bind. rewrite Hrun. cbn [read]. rewrite trigger_run. reflexivity. }
  proj. repeat (split; [first [eassumption | reflexivity]|]). exact Hv.
Qed.

Lemma closeElem_miss s :
  closeElem_result s = None -> ok_content s ->
  if enabled (closeButton (options s)) then
    exists hm s1 s' e,
      modalElem (set_trace (fun t => t ++ [Built CloseButton]) s)
      = Ret (Some hm) s1 /\
      elem hm < length (dom s1) /\
      closeElem s = Ret (Some (Handle (length (dom s1)))) s' /\
      dom s' = alter (adopt (length (dom s1))) (elem hm) (dom s1) ++ [e] /\
      body s' = body s1 /\
      closeElem_result s' = Some (Some (Handle (length (dom s1)))) /\
      modalElem_result s' = modalElem_result s1 /\
      shadowElem_result s' = shadowElem_result s1 /\
      same_vars s1 s'
  else
    exists s',
      closeElem s = Ret None s' /\ dom s' = dom s /\ body s' = body s /\
      closeElem_result s' = Some None /\
      modalElem_result s' = modalElem_result s /\
      shadowElem_result s' = shadowElem_result s /\
      same_vars s s'.
Proof.
  intros Hc Hcont.
  set (s0 := set_trace (fun t => t ++ [Built CloseButton]) s).
  destruct (enabled (closeButton (options s))) eqn:Hen.
  - assert (Hcont0 : ok_content s0) by exact Hcont.
    destruct (modalElem_run s0 Hcont0)
      as (hm & s1 & Hrun1 & _ & Hm1 & _ & _ & Hok1 & _).
    destruct (Hok1 _ Hm1) as (hm' & em & Heq & Hdm & _).
    injection Heq as <-.
    pose proof (lookup_lt_Some _ _ _ Hdm) as Hlt.
    destruct (wp_elim _ _ _
                (buildClose_exact modalElem HClose s0 hm s1 Hen Hrun1 Hlt))
      as (r & s2 & Hrun & -> & over & Hd & _ & Hb & Hq & _).
    destruct Hq as (Hv & (Hm & Hs & _) & _).
    eexists hm, s1, _, _. split; [exact Hrun1|]. split; [exact Hlt|].
    split; [apply memoize_miss; [exact Hc|exact Hrun]|].
    proj. repeat (split; [first [eassumption | reflexivity]|]). exact Hv.
  - eexists. split.
    { apply memoize_miss; [exact Hc|]. apply buildClose_disabled. exact Hen. }
    proj. repeat split.
Qed.

(** ** The modal keeps to its own elements *)

Lemma filter_lt_snoc n0 x (l : list nat) :
  n0 <= x ->
  filter (fun i => i < n0) (l ++ [x]) = filter (fun i => i < n0) l.
Proof.
  intros Hx. rewrite filter_app, filter_cons_False by lia.
  rewrite filter_nil. apply app_nil_r.
Qed.

Lemma filter_lt_remove n0 x (l : list nat) :
  n0 <= x ->
  filter (fun i => i < n0) (filter (fun i => i ≠ x) l)
  = filter (fun i => i < n0) l.
Proof.
  intros Hx. induction l as [|a l IH]; [reflexivity|].
  destruct (decide (a = x)) as [->|Hne].
  - rewrite (filter_cons_False (fun i => i ≠ x)) by tauto.
    rewrite (filter_cons_False (fun i => i < n0)) by lia. exact IH.
  - rewrite (filter_cons_True (fun i => i ≠ x)) by exact Hne.
    destruct (decide (a < n0)) as [Hlt|Hge].
    + rewrite !(filter_cons_True (fun i => i < n0)) by exact Hlt.
      f_equal. exact IH.
    + rewrite !(filter_cons_False (fun i => i < n0)) by exact Hge. exact IH.
Qed.

Lemma lookup_alter_below {A} (f : A -> A) (l : list A) i j :
  i < j -> alter f j l !! i = l !! i.
Proof. intros H. apply list_lookup_alter_ne. lia. Qed.

Lemma same_vars_alive s s' : same_vars s s' -> alive s -> alive s'.
Proof.
  intros (_ & _ & _ & _ & _ & _ & H1 & H2 & H3) (A1 & A2 & A3).
  unfold alive. rewrite H1, H2, H3. auto.
Qed.

Section Kept.

Variables (n0 : nat) (d0 : list element) (b0 : list nat).
Variables (undestroyed unshown : bool).

#[local] Abbreviation kp := (Kept n0 d0 b0 undestroyed unshown).

#[local] Abbreviation owned := (fun (r : option handle) (_ : state) =>
                                  forall h, r = Some h -> n0 <= elem h).

Lemma kept_le s : kp s -> n0 <= length (dom s).
Proof. intros H. rewrite (kept_count _ _ _ _ _ _ H). lia. Qed.

(** A state that differs in what the invariant does not read. *)
Lemma kept_frame s s' :
  kp s ->
  dom s' = dom s -> body s' = body s -> same_cells s s' ->
  (undestroyed = true -> same_flags s s') ->
  kp s'.
Proof.
  intros [H1 H2 H3 H4 H5 H6] Hd Hb (Hm & Hs & Hc) HF.
  split.
  - intros q h Hq. rewrite Hd. apply (H1 q).
    destruct q; cbn [cell] in *; congruence.
  - intros i Hi. rewrite Hd. auto.
  - rewrite Hb. exact H3.
  - rewrite Hd, H4. unfold elements_made. rewrite Hm, Hs, Hc. reflexivity.
  - intros Hu. destruct (H5 Hu) as [(A1 & A2 & A3) Hat].
    destruct (HF Hu) as (F1 & F2 & F3). split.
    + unfold alive. rewrite F1, F2, F3. auto.
    + intros h Hh. rewrite Hb. apply Hat. rewrite <- Hm, <- Hs. exact Hh.
  - intros Hl. rewrite Hc. auto.
Qed.

Lemma kept_shadowElem s r s' :
  kp s -> shadowElem s = Ret r s' -> kp s' /\ owned r s'.
Proof.
  intros HK Hrun. pose proof (kept_le s HK) as Hle.
  destruct (shadowElem_result s) as [r0|] eqn:Hcell.
  - unfold shadowElem in Hrun. rewrite (memoize_hit _ _ _ _ _ _ Hcell) in Hrun.
    injection Hrun as <- <-. split; [exact HK|].
    intros h ->. apply (kept_handles _ _ _ _ _ _ HK Overlay). exact Hcell.
  - destruct (shadowElem_miss s Hcell)
      as (s'' & e & Hrun' & Hd & Hbd & Hs & Hm & Hc & Hv).
    rewrite Hrun in Hrun'. injection Hrun' as -> <-.
    split; [|intros h' [= <-]; exact Hle].
    split.
    + intros q h' Hq. rewrite Hd, length_app. cbn [length].
      destruct q; cbn [cell] in Hq.
      * rewrite Hs in Hq. injection Hq as <-. cbn [elem]. lia.
      * rewrite Hm in Hq.
        pose proof (kept_handles _ _ _ _ _ _ HK Content h' Hq). lia.
      * rewrite Hc in Hq.
        pose proof (kept_handles _ _ _ _ _ _ HK CloseButton h' Hq). lia.
    + intros i Hi. rewrite Hd, lookup_app_l by lia.
      apply (kept_dom _ _ _ _ _ _ HK). exact Hi.
    + rewrite Hbd, filter_lt_snoc by exact Hle.
      apply (kept_body _ _ _ _ _ _ HK).
    + rewrite Hd, length_app. cbn [length].
      rewrite (kept_count _ _ _ _ _ _ HK). unfold elements_made.
      rewrite Hs, Hm, Hc, Hcell. cbn [made]. lia.
    + intros Hu. destruct (kept_attached _ _ _ _ _ _ HK Hu) as [Hal Hat].
      split; [apply (same_vars_alive s); [exact Hv|exact Hal]|].
      intros h' [Hh|Hh]; rewrite Hbd; apply elem_of_app.
      * rewrite Hs in Hh. injection Hh as <-. right. cbn [elem].
        apply list_elem_of_singleton. reflexivity.
      * left. apply Hat. right. congruence.
    + intros Hl. rewrite Hc. apply (kept_unshown _ _ _ _ _ _ HK Hl).
Qed.

Lemma kept_modalElem s r s' :
  kp s -> modalElem s = Ret r s' -> kp s' /\ owned r s'.
Proof.
  intros HK Hrun. pose proof (kept_le s HK) as Hle.
  destruct (modalElem_result s) as [r0|] eqn:Hcell.
  - unfold modalElem in Hrun. rewrite (memoize_hit _ _ _ _ _ _ Hcell) in Hrun.
    injection Hrun as <- <-. split; [exact HK|].
    intros h ->. apply (kept_handles _ _ _ _ _ _ HK Content). exact Hcell.
  - destruct (modalElem_miss s Hcell)
      as (s'' & e & Hrun' & Hd & Hbd & Hm & Hs & Hc & Hv).
    rewrite Hrun in Hrun'. injection Hrun' as -> <-.
    split; [|intros h' [= <-]; exact Hle].
    split.
    + intros q h' Hq. rewrite Hd, length_app. cbn [length].
      destruct q; cbn [cell] in Hq.
      * rewrite Hs in Hq.
        pose proof (kept_handles _ _ _ _ _ _ HK Overlay h' Hq). lia.
      * rewrite Hm in Hq. injection Hq as <-. cbn [elem]. lia.
      * rewrite Hc in Hq.
        pose proof (kept_handles _ _ _ _ _ _ HK CloseButton h' Hq). lia.
    + intros i Hi. rewrite Hd, lookup_app_l by lia.
      apply (kept_dom _ _ _ _ _ _ HK). exact Hi.
    + rewrite Hbd, filter_lt_snoc by exact Hle.
      apply (kept_body _ _ _ _ _ _ HK).
    + rewrite Hd, length_app. cbn [length].
      rewrite (kept_count _ _ _ _ _ _ HK). unfold elements_made.
      rewrite Hs, Hm, Hc, Hcell. cbn [made]. lia.
    + intros Hu. destruct (kept_attached _ _ _ _ _ _ HK Hu) as [Hal Hat].
      split; [apply (same_vars_alive s); [exact Hv|exact Hal]|].
      intros h' [Hh|Hh]; rewrite Hbd; apply elem_of_app.
      * left. apply Hat. left. congruence.
      * rewrite Hm in Hh. injection Hh as <-. right. cbn [elem].
        apply list_elem_of_singleton. reflexivity.
    + intros Hl. rewrite Hc. apply (kept_unshown _ _ _ _ _ _ HK Hl).
Qed.

Lemma kept_closeElem s r s' :
  unshown = false ->
  kp s -> ok_content s -> closeElem s = Ret r s' -> kp s'.
Proof.
  intros Hun HK Hcont Hrun.
  destruct (closeElem_result s) as [r0|] eqn:Hcell.
  { unfold closeElem in Hrun. rewrite (memoize_hit _ _ _ _ _ _ Hcell) in Hrun.
    injection Hrun as <- <-. exact HK. }
  pose proof (closeElem_miss s Hcell Hcont) as Hmiss.
  destruct (enabled (closeButton (options s))).
  2:{ destruct Hmiss as (s'' & Hrun' & Hd & Hb & Hc & Hm & Hs & Hv).
      rewrite Hrun in Hrun'. injection Hrun' as -> <-.
      destruct HK as [H1 H2 H3 H4 H5 H6]. split.
      - intros q h Hq. rewrite Hd. apply (H1 q).
        destruct q; cbn [cell] in *; congruence.
      - intros i Hi. rewrite Hd. auto.
      - rewrite Hb. exact H3.
      - rewrite Hd, H4. unfold elements_made. rewrite Hm, Hs, Hc, Hcell.
        reflexivity.
      - intros Hu. destruct (H5 Hu) as [Hal Hat]. split.
        + apply (same_vars_alive s); assumption.
        + intros h Hh. rewrite Hb. apply Hat. rewrite <- Hm, <- Hs. exact Hh.
      - congruence. }
  destruct Hmiss as (hm & s1 & s'' & e & Hrun1 & Hlt & Hrun' & Hd & Hb & Hc & Hm
                     & Hs & Hv).
  rewrite Hrun in Hrun'. injection Hrun' as -> <-.
  set (s0 := set_trace (fun t => t ++ [Built CloseButton]) s) in Hrun1.
  assert (HK0 : kp s0).
  { apply (kept_frame s); [exact HK|..]; repeat split. }
  destruct (kept_modalElem s0 _ s1 HK0 Hrun1) as [HK1 Hown].
  specialize (Hown hm eq_refl).
  assert (Hc1 : closeElem_result s1 = None).
  { destruct (modalElem_result s0) as [r0|] eqn:Hcell0.
    - unfold modalElem in Hrun1.
      rewrite (memoize_hit _ _ _ _ _ _ Hcell0) in Hrun1.
      injection Hrun1 as _ <-. exact Hcell.
    - destruct (modalElem_miss s0 Hcell0) as (sx & ex & Hrx & _ & _ & _ & _ & Hcx & _).
      rewrite Hrun1 in Hrx. injection Hrx as _ <-. rewrite Hcx. exact Hcell. }
  pose proof (kept_le s1 HK1) as Hle.
  destruct HK1 as [H1 H2 H3 H4 H5 H6]. split.
  - intros q h Hq. rewrite Hd, length_app, length_alter. cbn [length].
    destruct q; cbn [cell] in Hq.
    + rewrite Hs in Hq. pose proof (H1 Overlay h Hq). lia.
    + rewrite Hm in Hq. pose proof (H1 Content h Hq). lia.
    + rewrite Hc in Hq. injection Hq as <-. cbn [elem]. lia.
  - intros i Hi. rewrite Hd, lookup_app_l by (rewrite length_alter; lia).
    rewrite lookup_alter_below by lia. auto.
  - rewrite Hb. exact H3.
  - rewrite Hd, length_app, length_alter. cbn [length]. rewrite H4.
    unfold elements_made. rewrite Hs, Hm, Hc, Hc1. cbn [made]. lia.
  - intros Hu. destruct (H5 Hu) as [Hal Hat]. split.
    + apply (same_vars_alive s1); assumption.
    + intros h Hh. rewrite Hb. apply Hat. rewrite <- Hm, <- Hs. exact Hh.
  - congruence.
Qed.

Lemma kept_style_prop h prop v s :
  n0 <= elem h -> kp s -> kp (Elem.set_style_prop (elem h) prop v s).
Proof.
  intros Hh [H1 H2 H3 H4 H5 H6]. unfold Elem.set_style_prop. split; proj.
  - intros q h' Hq. rewrite length_alter. apply (H1 q).
    destruct q; exact Hq.
  - intros i Hi. rewrite lookup_alter_below by lia. auto.
  - exact H3.
  - rewrite length_alter. exact H4.
  - exact H5.
  - exact H6.
Qed.

End Kept.

(** ** Invariants of the steps

    The methods of the facade, a click and a timer keep an invariant [I]
    that the builders, the methods of a handle ([G] is what is known of
    a handle a builder returned), the channels and the assignments
    keep. *)

Section Steps.

Variables (I : state -> Prop) (G : handle -> Prop).
Variables (can_show can_destroy : Prop).
Variable may_watch : observable -> callback -> Prop.

#[local] Abbreviation got := (fun (r : option handle) (_ : state) =>
                                forall h, r = Some h -> G h).

#[local] Abbreviation any := (fun _ : state => True).

Hypothesis I_shadowElem : forall P, hoare I P shadowElem got.
Hypothesis I_modalElem : forall P, hoare I P modalElem got.
Hypothesis I_closeElem :
  can_show -> forall P, hoare I P closeElem (fun _ _ => True).
Hypothesis I_show :
  forall h, hoare I (got (Some h)) (Elem.show h) (fun _ _ => True).
Hypothesis I_hide :
  forall h, hoare I (got (Some h)) (Elem.hide h) (fun _ _ => True).
Hypothesis I_destroy :
  can_destroy ->
  forall h, hoare I (got (Some h)) (Elem.destroy h) (fun _ _ => True).
Hypothesis I_trigger :
  forall o modal P, o <> afterCreateEvent ->
    hoare I P (trigger o modal) (fun _ _ => True).
Hypothesis I_watch :
  forall o cb P, may_watch o cb -> hoare I P (watch o cb) (fun _ _ => True).
Hypothesis I_unset_modalElem :
  can_destroy ->
  forall P, hoare I P (modify (set_modalElem_defined false)) (fun _ _ => True).
Hypothesis I_unset_shadowElem :
  can_destroy ->
  forall P, hoare I P (modify (set_shadowElem_defined false)) (fun _ _ => True).
Hypothesis I_unset_closeElem :
  can_destroy ->
  forall P, hoare I P (modify (set_closeElem_defined false)) (fun _ _ => True).
Hypothesis I_fire : forall s, I s -> I (fire s).

Lemma keep_close P : hoare I P close (fun _ _ => True).
Proof.
  unfold close.
  eapply hoare_bind; [apply hoare_call, I_shadowElem|intros r].
  eapply hoare_bind; [apply hoare_invoke; intros ? ->; apply I_hide|intros ?].
  eapply hoare_bind; [apply hoare_call, I_modalElem|intros r'].
  eapply hoare_bind; [apply hoare_invoke; intros ? ->; apply I_hide|intros ?].
  eapply hoare_bind; [apply hoare_read_any|intros ?].
  apply I_trigger. discriminate.
Qed.

Lemma keep_Iface_show P : can_show -> hoare I P Iface.show (fun _ _ => True).
Proof.
  intros Hc. unfold Iface.show.
  eapply hoare_bind; [apply hoare_call, I_shadowElem|intros r].
  eapply hoare_bind; [apply hoare_invoke; intros ? ->; apply I_show|intros ?].
  eapply hoare_bind; [apply hoare_call, I_closeElem, Hc|intros ?].
  eapply hoare_bind; [apply hoare_call, I_modalElem|intros r'].
  eapply hoare_bind; [apply hoare_invoke; intros ? ->; apply I_show|intros ?].
  eapply hoare_bind; [apply hoare_read_any|intros ?].
  eapply hoare_bind; [apply I_trigger; discriminate|intros ?].
  apply hoare_read_any.
Qed.

Lemma keep_returnIface {A} (m : M A) P Q :
  hoare I P m Q -> hoare I P (returnIface m) (fun _ _ => True).
Proof.
  intros H. unfold returnIface.
  eapply hoare_bind; [exact H|intros ?]. apply hoare_read_any.
Qed.

Lemma keep_Iface_destroy P :
  can_destroy -> hoare I P Iface.destroy (fun _ _ => True).
Proof.
  intros Hc. unfold Iface.destroy.
  eapply hoare_bind; [apply hoare_call, I_modalElem|intros r].
  eapply hoare_bind;
    [apply hoare_invoke; intros ? ->; apply I_destroy, Hc|intros ?].
  eapply hoare_bind; [apply I_unset_modalElem, Hc|intros ?].
  eapply hoare_bind; [apply hoare_call, I_shadowElem|intros r'].
  eapply hoare_bind;
    [apply hoare_invoke; intros ? ->; apply I_destroy, Hc|intros ?].
  eapply hoare_bind; [apply I_unset_shadowElem, Hc|intros ?].
  apply I_unset_closeElem, Hc.
Qed.

Lemma keep_accessor builder P Q :
  hoare I P builder Q ->
  hoare I P (buildElemAccessor builder) (fun _ _ => True).
Proof.
  intros H. unfold buildElemAccessor.
  eapply hoare_bind; [exact H|intros [h|]].
  - apply hoare_ret_any.
  - apply hoare_throw.
Qed.

Lemma keep_click target s : I s -> I (click target s).
Proof.
  intros Hs. unfold click. destruct (dom s !! target) as [e|]; [|exact Hs].
  revert s Hs. induction (listeners e) as [|[name h] ls IH]; intros s Hs.
  - exact Hs.
  - cbn [fold_left]. apply IH. cbn [snd].
    destruct h; cbn [run_handler]; [|exact Hs].
    exact (hoare_state_of _ _ _ _ s (keep_close any) Hs Logic.I).
Qed.

Lemma keep_step s o :
  allowed can_show can_destroy may_watch o -> I s -> I (step s o).
Proof.
  intros Ha Hs. destruct o; cbn [step allowed] in *.
  - exact (hoare_state_of _ _ _ _ s (keep_Iface_show any Ha) Hs Logic.I).
  - exact (hoare_state_of _ _ _ _ s (keep_returnIface _ _ _ (keep_close any))
             Hs Logic.I).
  - exact (hoare_state_of _ _ _ _ s (keep_Iface_destroy any Ha) Hs Logic.I).
  - exact (hoare_state_of _ _ _ _ s
             (keep_returnIface _ _ _ (I_watch afterCreateEvent cb any Ha))
             Hs Logic.I).
  - exact (hoare_state_of _ _ _ _ s
             (keep_returnIface _ _ _ (I_watch afterShowEvent cb any Ha))
             Hs Logic.I).
  - exact (hoare_state_of _ _ _ _ s
             (keep_returnIface _ _ _ (I_watch afterCloseEvent cb any Ha))
             Hs Logic.I).
  - exact (hoare_state_of _ _ _ _ s (keep_accessor _ _ _ (I_modalElem any))
             Hs Logic.I).
  - exact (hoare_state_of _ _ _ _ s (keep_accessor _ _ _ (I_closeElem Ha any))
             Hs Logic.I).
  - exact (hoare_state_of _ _ _ _ s (keep_accessor _ _ _ (I_shadowElem any))
             Hs Logic.I).
  - apply keep_click; exact Hs.
  - apply I_fire; exact Hs.
Qed.

Lemma keep_steps ops s :
  Forall (allowed can_show can_destroy may_watch) ops -> I s -> I (steps s ops).
Proof.
  revert s. induction ops as [|o ops IH]; intros s Ha Hs; [exact Hs|].
  cbn [steps fold_left]. apply Forall_cons in Ha. destruct Ha as [Ho Hops].
  apply IH; [exact Hops|]. apply keep_step; assumption.
Qed.

End Steps.

Lemma Inv_after {A} n0 (m : M A) s :
  (forall s0, keeps (good n0 s0 false) m) ->
  Inv n0 s -> Inv n0 (state_of (m s)).
Proof.
  intros H HI. destruct (H s s) as [HI' _]; [|exact HI'].
  split; [exact HI|]. split; [apply evolves_refl|discriminate].
Qed.

(** An invariant [Inv n0 /\ K] is kept by a computation that keeps
    [Inv n0] and takes [K] along for the ride. *)
Lemma hoare_leaf {A} n0 (K : state -> Prop) (m : M A) (P : state -> Prop)
    (Q : A -> state -> Prop) :
  (forall s0, keeps (good n0 s0 false) m) ->
  (forall s, Inv n0 s -> K s -> P s ->
     match m s with
     | Ret a s' => K s' /\ Q a s'
     | Throw _ s' => K s'
     end) ->
  hoare (fun s => Inv n0 s /\ K s) P m Q.
Proof.
  intros Hk H s [HI HK] HP. pose proof (Inv_after n0 m s Hk HI) as HI'.
  specialize (H s HI HK HP). destruct (m s); cbn in HI'.
  - destruct H as [H1 H2]. split; [split; assumption|exact H2].
  - split; assumption.
Qed.

Lemma Inv_fire n0 s : Inv n0 s -> Inv n0 (fire s).
Proof.
  intros HI. destruct (good_fire n0 s false s) as [HI' _]; [|exact HI'].
  split; [exact HI|]. split; [apply evolves_refl|discriminate].
Qed.

(** ** The modal keeps to its own elements: every step *)

Section Owns.

Variables (n0 : nat) (d0 : list element) (b0 : list nat).
Variables (undestroyed unshown : bool).

#[local] Abbreviation kp := (Kept n0 d0 b0 undestroyed unshown).
#[local] Abbreviation own := (Own n0 d0 b0 undestroyed unshown).
#[local] Abbreviation owned := (fun (r : option handle) (_ : state) =>
                                  forall h, r = Some h -> n0 <= elem h).

Lemma own_shadowElem P : hoare own P shadowElem owned.
Proof.
  apply hoare_leaf; [intros s0; apply keeps_shadowElem|].
  intros s HI HK _.
  destruct (shadowElem_Inv n0 s HI) as (h & s' & Hrun & _).
  rewrite Hrun. exact (kept_shadowElem _ _ _ _ _ s _ s' HK Hrun).
Qed.

Lemma own_modalElem P : hoare own P modalElem owned.
Proof.
  apply hoare_leaf; [intros s0; apply keeps_modalElem|].
  intros s HI HK _.
  destruct (modalElem_Inv n0 s HI) as (h & s' & Hrun & _).
  rewrite Hrun. exact (kept_modalElem _ _ _ _ _ s _ s' HK Hrun).
Qed.

Lemma own_closeElem :
  unshown = false -> forall P, hoare own P closeElem (fun _ _ => True).
Proof.
  intros Hun P. apply hoare_leaf; [intros s0; apply keeps_closeElem|].
  intros s HI HK _.
  destruct (closeElem_Inv n0 s HI) as (r & s' & Hrun & _).
  rewrite Hrun. split; [|exact I].
  exact (kept_closeElem _ _ _ _ _ s _ s' Hun HK (inv_content _ _ HI) Hrun).
Qed.

Lemma own_show h :
  hoare own (owned (Some h)) (Elem.show h) (fun _ _ => True).
Proof.
  apply hoare_leaf; [intros s0; apply keeps_show|].
  intros s HI HK HP. cbn. split; [|exact I].
  apply kept_style_prop; [apply HP; reflexivity|exact HK].
Qed.

Lemma own_hide h :
  hoare own (owned (Some h)) (Elem.hide h) (fun _ _ => True).
Proof.
  apply hoare_leaf; [intros s0; apply keeps_hide|].
  intros s HI HK HP. cbn. split; [|exact I].
  apply kept_style_prop; [apply HP; reflexivity|exact HK].
Qed.

Lemma own_destroy :
  undestroyed = false ->
  forall h, hoare own (owned (Some h)) (Elem.destroy h) (fun _ _ => True).
Proof.
  intros Hu h. apply hoare_leaf; [intros s0; apply keeps_destroy|].
  intros s HI HK HP. unfold Elem.destroy.
  destruct (decide (elem h ∈ body s)); [|exact HK].
  split; [|exact I]. destruct HK as [H1 H2 H3 H4 H5 H6]. split; proj.
  - intros q h' Hq. apply (H1 q). destruct q; exact Hq.
  - exact H2.
  - rewrite filter_lt_remove by (apply HP; reflexivity). exact H3.
  - exact H4.
  - congruence.
  - exact H6.
Qed.

Lemma own_trigger o modal P : hoare own P (trigger o modal) (fun _ _ => True).
Proof.
  apply hoare_leaf; [intros s0; apply keeps_trigger|].
  intros s HI HK _. unfold trigger. rewrite trigger_loop_run.
  split; [|exact I]. apply (kept_frame _ _ _ _ _ s); [exact HK|..]; repeat split.
Qed.

Lemma own_watch o cb P : hoare own P (watch o cb) (fun _ _ => True).
Proof.
  apply hoare_leaf; [intros s0; apply keeps_watch|].
  intros s HI HK _. split; [|exact I].
  destruct o; cbn;
    (apply (kept_frame _ _ _ _ _ s); [exact HK|..]; repeat split).
Qed.

Lemma own_unset (f : state -> state) P :
  undestroyed = false ->
  (forall s0, keeps (good n0 s0 false) (modify f)) ->
  (forall s, dom (f s) = dom s /\ body (f s) = body s /\ same_cells s (f s)) ->
  hoare own P (modify f) (fun _ _ => True).
Proof.
  intros Hu Hk Hf. apply hoare_leaf; [exact Hk|].
  intros s HI HK _. cbn. split; [|exact I].
  destruct (Hf s) as (Hd & Hb & Hc).
  apply (kept_frame _ _ _ _ _ s);
    [exact HK|exact Hd|exact Hb|exact Hc|congruence].
Qed.

Lemma own_fire s : own s -> own (fire s).
Proof.
  intros [HI HK]. split; [apply Inv_fire; exact HI|].
  unfold fire. destruct (timers s) as [|[cb arg] rest]; [exact HK|].
  apply (kept_frame _ _ _ _ _ s); [exact HK|..]; repeat split.
Qed.

Lemma own_steps ops s :
  (undestroyed = true -> OpDestroy ∉ ops) ->
  (unshown = true -> (OpShow ∉ ops) /\ (OpCloseElem ∉ ops)) ->
  own s -> own (steps s ops).
Proof.
  intros Hu Hun.
  apply (keep_steps own (fun h => n0 <= elem h) (unshown = false)
           (undestroyed = false) (fun _ _ => True)).
  - apply own_shadowElem.
  - apply own_modalElem.
  - apply own_closeElem.
  - apply own_show.
  - apply own_hide.
  - apply own_destroy.
  - intros o modal P _. apply own_trigger.
  - intros o cb P _. apply own_watch.
  - intros Hd P. apply own_unset;
      [exact Hd|intros s0; apply keeps_unset_modalElem; reflexivity|].
    intros s'. repeat split.
  - intros Hd P. apply own_unset;
      [exact Hd|intros s0; apply keeps_unset_shadowElem; reflexivity|].
    intros s'. repeat split.
  - intros Hd P. apply own_unset;
      [exact Hd|intros s0; apply keeps_unset_closeElem; reflexivity|].
    intros s'. repeat split.
  - apply own_fire.
  - apply Forall_forall. intros o Ho.
    destruct o; cbn [allowed]; try exact I.
    + destruct unshown; [|reflexivity]. destruct (Hun eq_refl) as [H _].
      destruct (H Ho).
    + destruct undestroyed; [|reflexivity]. destruct (Hu eq_refl Ho).
    + destruct unshown; [|reflexivity]. destruct (Hun eq_refl) as [_ H].
      destruct (H Ho).
Qed.

End Owns.

Lemma Own_picoModal arg p u l :
  Own (length (page_dom p)) (page_dom p) (page_body p) u l (picoModal arg p).
Proof.
  split; [apply Inv_picoModal|]. split; cbn.
  - intros [] h H; discriminate H.
  - reflexivity.
  - reflexivity.
  - unfold elements_made. cbn. lia.
  - intros _. split; [repeat split|]. intros h [H|H]; discriminate H.
  - reflexivity.
Qed.

Lemma Own_reachable arg p ops :
  Own (length (page_dom p)) (page_dom p) (page_body p) false false
      (steps (picoModal arg p) ops).
Proof.
  apply own_steps; [discriminate|discriminate|apply Own_picoModal].
Qed.

Lemma made_le r : made r <= 1.
Proof. destruct r as [[h|]|]; cbn; lia. Qed.

Lemma distinct_parts n0 s q q' h h' :
  Inv n0 s -> q <> q' ->
  cell q s = Some (Some h) -> cell q' s = Some (Some h') -> elem h <> elem h'.
Proof.
  intros HI Hne Hq Hq' Heq.
  assert (Hcl : forall q h, cell q s = Some (Some h) ->
            exists e, dom s !! elem h = Some e /\
                      className e = match q with
                                    | Overlay => "pico-overlay"
                                    | Content => "pico-content"
                                    | CloseButton => "pico-close"
                                    end).
  { intros [] x Hx; cbn [cell] in Hx.
    - destruct (inv_overlay _ _ HI _ Hx) as (x' & e & [= <-] & Hd & Hc & _). eauto.
    - destruct (inv_content _ _ HI _ Hx) as (x' & e & [= <-] & Hd & Hc). eauto.
    - destruct (inv_close _ _ HI _ Hx) as (_ & e & _ & _ & Hd & Hc & _). eauto. }
  destruct (Hcl _ _ Hq) as (e & Hd & Hc).
  destruct (Hcl _ _ Hq') as (e' & Hd' & Hc').
  rewrite Heq in Hd. rewrite Hd in Hd'. injection Hd' as <-.
  rewrite Hc in Hc'. destruct q, q'; try discriminate Hc'; congruence.
Qed.

Lemma shadowElem_body s ho s' :
  (forall h, shadowElem_result s = Some (Some h) -> elem h ∈ body s) ->
  shadowElem s = Ret (Some ho) s' ->
  forall i, i ∈ body s' <-> i ∈ body s \/ i = elem ho.
Proof.
  intros Hat Hrun i. destruct (shadowElem_result s) as [r|] eqn:Hcell.
  - unfold shadowElem in Hrun. rewrite (memoize_hit _ _ _ _ _ _ Hcell) in Hrun.
    injection Hrun as -> <-. specialize (Hat ho eq_refl).
    split; [auto|]. intros [H| ->]; assumption.
  - destruct (shadowElem_miss s Hcell) as (s'' & e & Hrun' & _ & Hb & _).
    rewrite Hrun in Hrun'. injection Hrun' as -> <-.
    rewrite Hb, elem_of_app, list_elem_of_singleton. reflexivity.
Qed.

Lemma modalElem_body s hm s' :
  (forall h, modalElem_result s = Some (Some h) -> elem h ∈ body s) ->
  modalElem s = Ret (Some hm) s' ->
  forall i, i ∈ body s' <-> i ∈ body s \/ i = elem hm.
Proof.
  intros Hat Hrun i. destruct (modalElem_result s) as [r|] eqn:Hcell.
  - unfold modalElem in Hrun. rewrite (memoize_hit _ _ _ _ _ _ Hcell) in Hrun.
    injection Hrun as -> <-. specialize (Hat hm eq_refl).
    split; [auto|]. intros [H| ->]; assumption.
  - destruct (modalElem_miss s Hcell) as (s'' & e & Hrun' & _ & Hb & _).
    rewrite Hrun in Hrun'. injection Hrun' as -> <-.
    rewrite Hb, elem_of_app, list_elem_of_singleton. reflexivity.
Qed.

(** [destroy()] while the three variables hold their functions. *)
Lemma destroy_run n0 d0 b0 s :
  Own n0 d0 b0 true false s ->
  exists s1 hm ho,
    Iface.destroy s = Ret tt s1 /\
    modalElem_result s1 = Some (Some hm) /\
    shadowElem_result s1 = Some (Some ho) /\
    closeElem_result s1 = closeElem_result s /\
    (forall i, i ∈ body s1 <-> i ∈ body s /\ i <> elem hm /\ i <> elem ho) /\
    timers s1 = timers s ++ created s s1 /\
    invoked s1 = invoked s /\
    modalElem_defined s1 = false /\ shadowElem_defined s1 = false /\
    closeElem_defined s1 = false.
Proof.
  intros [HI HK].
  destruct (kept_attached _ _ _ _ _ _ HK eq_refl) as [(Hfm & Hfs & Hfc) Hat].
  (* modalElem() *)
  destruct (modalElem_Inv _ s HI) as (hm & sa & Hrun1 & HIa & Hba & Hma & Hsa & Hca).
  pose proof (modalElem_body s hm sa (fun h Hh => Hat h (or_intror Hh)) Hrun1)
    as Hbody1.
  destruct (kept_modalElem _ _ _ _ _ s _ sa HK Hrun1) as [HKa _].
  destruct (kept_attached _ _ _ _ _ _ HKa eq_refl) as [_ Hata].
  (* .destroy() *)
  assert (Hin1 : elem hm ∈ body sa) by (apply Hbody1; right; reflexivity).
  set (sb := set_body (filter (fun i => i ≠ elem hm)) sa).
  assert (Hd1 : Elem.destroy hm sa = Ret None sb).
  { unfold Elem.destroy. rewrite decide_True by exact Hin1. reflexivity. }
  set (sc := set_modalElem_defined false sb).
  assert (HIc : Inv n0 sc).
  { eapply Inv_frame; [exact HIa|..]; try reflexivity.
    - repeat split.
    - apply dom_kept_refl. }
  (* shadowElem() *)
  destruct (shadowElem_Inv _ sc HIc)
    as (ho & sd & Hrun2 & HId & Hbd & Hsd & Hmd & Hcd).
  assert (Hne : shadowElem_result sa = Some (Some ho) -> elem ho <> elem hm).
  { intros Hs. apply (distinct_parts _ sa Overlay Content ho hm HIa);
      [discriminate|exact Hs|exact Hma]. }
  assert (Hatc : forall h, shadowElem_result sc = Some (Some h) ->
                           elem h ∈ body sc).
  { intros h Hh. change (shadowElem_result sc) with (shadowElem_result sa) in Hh.
    change (body sc) with (filter (fun i => i ≠ elem hm) (body sa)).
    apply list_elem_of_filter. split; [|apply Hata; left; exact Hh].
    intros Heq. apply (distinct_parts _ sa Overlay Content h hm HIa);
      [discriminate|exact Hh|exact Hma|exact Heq]. }
  pose proof (shadowElem_body sc ho sd Hatc Hrun2) as Hbody2.
  assert (Hin2 : elem ho ∈ body sd) by (apply Hbody2; right; reflexivity).
  set (se := set_body (filter (fun i => i ≠ elem ho)) sd).
  assert (Hd2 : Elem.destroy ho sd = Ret None se).
  { unfold Elem.destroy. rewrite decide_True by exact Hin2. reflexivity. }
  set (s1 := set_closeElem_defined false (set_shadowElem_defined false se)).
  exists s1, hm, ho.
  split.
  { unfold Iface.destroy.
    rewrite (bind_Ret _ _ s (Some hm) sa)
      by (rewrite call_defined by exact Hfm; exact Hrun1).
    rewrite (bind_Ret _ _ sa None sb) by exact Hd1.
    rewrite (bind_Ret _ _ sb tt sc) by reflexivity.
    rewrite (bind_Ret _ _ sc (Some ho) sd).
    2:{ rewrite call_defined; [exact Hrun2|].
        change (shadowElem_defined sc) with (shadowElem_defined sa).
        destruct Hba as ((_ & _ & _ & _ & _ & _ & _ & F & _) & _). congruence. }
    rewrite (bind_Ret _ _ sd None se) by exact Hd2.
    rewrite (bind_Ret _ _ se tt (set_shadowElem_defined false se)) by reflexivity.
    reflexivity. }
  change (modalElem_result s1) with (modalElem_result sd).
  change (shadowElem_result s1) with (shadowElem_result sd).
  change (closeElem_result s1) with (closeElem_result sd).
  change (modalElem_result sc) with (modalElem_result sa) in Hmd.
  change (closeElem_result sc) with (closeElem_result sa) in Hcd.
  split; [congruence|]. split; [exact Hsd|]. split; [congruence|].
  split.
  { intros i. change (body s1) with (filter (fun i => i ≠ elem ho) (body sd)).
    rewrite list_elem_of_filter, Hbody2.
    change (body sc) with (filter (fun i => i ≠ elem hm) (body sa)).
    rewrite list_elem_of_filter, Hbody1. intuition congruence. }
  destruct Hba as (Hva & _ & _ & _ & _ & Hta & Hia).
  destruct Hbd as (Hvd & _ & _ & _ & _ & Htd & Hid).
  change (timers sc) with (timers sa) in Htd.
  change (invoked sc) with (invoked sa) in Hid.
  rewrite (created_same sc sd) in Htd by exact Hmd. rewrite app_nil_r in Htd.
  split.
  { change (timers s1) with (timers sd). rewrite Htd, Hta. f_equal.
    unfold created. change (modalElem_result s1) with (modalElem_result sd).
    rewrite Hmd. reflexivity. }
  split; [change (invoked s1) with (invoked sd); congruence|].
  destruct Hvd as (_ & _ & _ & _ & _ & _ & G1 & _).
  repeat split. change (modalElem_defined s1) with (modalElem_defined sd).
  rewrite G1. reflexivity.
Qed.









Lemma registration_step s o :
  is_registration o = true ->
  dom (step s o) = dom s /\ body (step s o) = body s /\
  heap (step s o) = heap s /\ timers (step s o) = timers s /\
  trace (step s o) = trace s /\ forall q, cell q (step s o) = cell q s.
Proof.
  intros H. destruct o; try discriminate H; cbn;
    repeat (split; [reflexivity|]); intros []; reflexivity.
Qed.

(** ** A callback of [afterCreate] that comes late *)

Lemma late_frame cb k s s' :
  Late cb k s ->
  modalElem_result s' = modalElem_result s ->
  afterShow_callbacks s' = afterShow_callbacks s ->
  afterClose_callbacks s' = afterClose_callbacks s ->
  timers s' = timers s -> trace s' = trace s ->
  Late cb k s'.
Proof.
  intros [H1 H2 H3 H4 H5] Hm Hs Hc Ht Htr. split.
  - rewrite Hm. exact H1.
  - rewrite Hs. exact H2.
  - rewrite Hc. exact H3.
  - rewrite Ht. exact H4.
  - unfold calls, invoked in *. rewrite Htr. exact H5.
Qed.

Lemma late_builds cb k s s' : Late cb k s -> builds s s' -> Late cb k s'.
Proof.
  intros [H1 H2 H3 H4 H5] (Hv & _ & _ & _ & Hc & Ht & Hi).
  destruct Hv as (_ & _ & _ & Hs & Hcl & _).
  destruct (modalElem_result s) as [r|] eqn:Hm; [|contradiction].
  pose proof (Hc Content r Hm) as Hm'. cbn [cell] in Hm'.
  split.
  - rewrite Hm'. discriminate.
  - rewrite Hs. exact H2.
  - rewrite Hcl. exact H3.
  - rewrite Ht. unfold created. rewrite Hm, app_nil_r. exact H4.
  - unfold calls in *. rewrite Hi. exact H5.
Qed.

Lemma fst_pair_with {A B} (b : B) (l : list A) :
  (map (fun a => (a, b)) l).*1 = l.
Proof. induction l as [|a l IH]; [reflexivity|]. cbn. f_equal. exact IH. Qed.

Section Lates.

Variables (n0 : nat) (cb : callback) (k : nat).

#[local] Abbreviation late := (fun s => Inv n0 s /\ Late cb k s).
#[local] Abbreviation whatever := (fun (r : option handle) (_ : state) =>
                                     forall h : handle, r = Some h -> True).

Lemma late_shadowElem P : hoare late P shadowElem whatever.
Proof.
  apply hoare_leaf; [intros s0; apply keeps_shadowElem|].
  intros s HI HK _.
  destruct (shadowElem_Inv n0 s HI) as (h & s' & Hrun & _ & Hb & _).
  rewrite Hrun. split; [exact (late_builds _ _ _ _ HK Hb)|auto].
Qed.

Lemma late_modalElem P : hoare late P modalElem whatever.
Proof.
  apply hoare_leaf; [intros s0; apply keeps_modalElem|].
  intros s HI HK _.
  destruct (modalElem_Inv n0 s HI) as (h & s' & Hrun & _ & Hb & _).
  rewrite Hrun. split; [exact (late_builds _ _ _ _ HK Hb)|auto].
Qed.

Lemma late_closeElem P : hoare late P closeElem (fun _ _ => True).
Proof.
  apply hoare_leaf; [intros s0; apply keeps_closeElem|].
  intros s HI HK _.
  destruct (closeElem_Inv n0 s HI) as (h & s' & Hrun & _ & Hb & _).
  rewrite Hrun. split; [exact (late_builds _ _ _ _ HK Hb)|auto].
Qed.

Lemma late_quiet {A} (m : M A) (P : state -> Prop) :
  (forall s0, keeps (good n0 s0 false) m) ->
  (forall s,
      modalElem_result (state_of (m s)) = modalElem_result s /\
      afterShow_callbacks (state_of (m s)) = afterShow_callbacks s /\
      afterClose_callbacks (state_of (m s)) = afterClose_callbacks s /\
      timers (state_of (m s)) = timers s /\
      trace (state_of (m s)) = trace s) ->
  hoare late P m (fun _ _ => True).
Proof.
  intros Hk H. apply hoare_leaf; [exact Hk|].
  intros s HI HK _. destruct (H s) as (H1 & H2 & H3 & H4 & H5).
  pose proof (late_frame _ _ s _ HK H1 H2 H3 H4 H5) as HK'.
  destruct (m s); cbn in HK'; auto.
Qed.

Lemma late_trigger o modal P :
  o <> afterCreateEvent -> hoare late P (trigger o modal) (fun _ _ => True).
Proof.
  intros Ho. apply hoare_leaf; [intros s0; apply keeps_trigger|].
  intros s HI [H1 H2 H3 H4 H5] _. unfold trigger. rewrite trigger_loop_run.
  split; [|exact I]. split; proj; try assumption.
  rewrite fmap_app, fst_pair_with.
  intros Hin. apply elem_of_app in Hin. destruct Hin as [Hin|Hin].
  - exact (H4 Hin).
  - destruct o; cbn [callbacks] in Hin; [exact (H2 Hin)|exact (H3 Hin)|].
    apply Ho. reflexivity.
Qed.

Lemma late_watch o c P :
  o = afterCreateEvent \/ c <> cb ->
  hoare late P (watch o c) (fun _ _ => True).
Proof.
  intros Hoc. apply hoare_leaf; [intros s0; apply keeps_watch|].
  intros s HI [H1 H2 H3 H4 H5] _. split; [|exact I].
  destruct o; cbn; (split; proj; try assumption).
  - intros Hin. apply elem_of_app in Hin. destruct Hin as [Hin|Hin];
      [exact (H2 Hin)|].
    apply list_elem_of_singleton in Hin. destruct Hoc; [discriminate|auto].
  - intros Hin. apply elem_of_app in Hin. destruct Hin as [Hin|Hin];
      [exact (H3 Hin)|].
    apply list_elem_of_singleton in Hin. destruct Hoc; [discriminate|auto].
Qed.

Lemma late_fire s : late s -> late (fire s).
Proof.
  intros [HI [H1 H2 H3 H4 H5]]. split; [apply Inv_fire; exact HI|].
  unfold fire. destruct (timers s) as [|[c a] rest] eqn:Ht.
  { split; try assumption. rewrite Ht. exact H4. }
  cbn in H4. apply not_elem_of_cons in H4. destruct H4 as [Hne Hrest].
  split; proj; try assumption.
  unfold calls, invoked in *. proj. rewrite !filter_app, length_app, H5.
  rewrite (filter_cons_True (fun ev => is_invoked ev = true)) by reflexivity.
  rewrite filter_nil.
  rewrite (filter_cons_False (fun ev => is_call cb ev = true)).
  - rewrite filter_nil. cbn. lia.
  - cbn. rewrite bool_decide_eq_false_2 by congruence. discriminate.
Qed.

Lemma late_steps ops s :
  OpAfterShow cb ∉ ops -> OpAfterClose cb ∉ ops ->
  late s -> late (steps s ops).
Proof.
  intros Hs Hc.
  apply (keep_steps late (fun _ => True) True True
           (fun o c => o = afterCreateEvent \/ c <> cb)).
  - apply late_shadowElem.
  - apply late_modalElem.
  - intros _. apply late_closeElem.
  - intros h. apply late_quiet; [intros s0; apply keeps_show|].
    intros s'. repeat split.
  - intros h. apply late_quiet; [intros s0; apply keeps_hide|].
    intros s'. repeat split.
  - intros _ h. apply late_quiet; [intros s0; apply keeps_destroy|].
    intros s'. unfold Elem.destroy. destruct (decide _); repeat split.
  - apply late_trigger.
  - apply late_watch.
  - intros _ P. apply late_quiet;
      [intros s0; apply keeps_unset_modalElem; reflexivity|].
    intros s'. repeat split.
  - intros _ P. apply late_quiet;
      [intros s0; apply keeps_unset_shadowElem; reflexivity|].
    intros s'. repeat split.
  - intros _ P. apply late_quiet;
      [intros s0; apply keeps_unset_closeElem; reflexivity|].
    intros s'. repeat split.
  - apply late_fire.
  - apply Forall_forall. intros o Ho.
    destruct o; cbn [allowed]; try exact I.
    + left. reflexivity.
    + right. intros ->. exact (Hs Ho).
    + right. intros ->. exact (Hc Ho).
Qed.

End Lates.

Lemma set_dom_same f s : f (dom s) = dom s -> set_dom f s = s.
Proof. intros H. destruct s. unfold set_dom. cbn in *. rewrite H. reflexivity. Qed.

Lemma display_again i v s :
  display i s = Some v -> Elem.set_style_prop i "display" v s = s.
Proof.
  unfold display. intros H. destruct (dom s !! i) as [e|] eqn:He; [|discriminate H].
  cbn in H. apply set_dom_same.
  rewrite (list_alter_ext _ (fun x => x) _ (dom s) i);
    [apply list_alter_id; reflexivity| |reflexivity].
  intros x Hx. rewrite He in Hx. injection Hx as <-.
  destruct e as [c st ct ls]. unfold Elem.set_style. cbn in *.
  rewrite insert_id by exact H. reflexivity.
Qed.

Lemma show_again s ho hc r :
  alive s ->
  shadowElem_result s = Some (Some ho) ->
  modalElem_result s = Some (Some hc) ->
  closeElem_result s = Some r ->
  display (elem ho) s = Some (VString "block") ->
  display (elem hc) s = Some (VString "block") ->
  Iface.show s
  = Ret (iface s) (set_timers (fun t => t ++ scheduled afterShowEvent s) s).
Proof.
  intros (Fm & Fs & Fc) Hs Hm Hc Hdo Hdc. unfold Iface.show.
  rewrite (bind_Ret _ _ s (Some ho) s)
    by (rewrite call_defined by exact Fs; apply memoize_hit; exact Hs).
  rewrite (bind_Ret _ _ s None s)
    by (cbn [invoke]; unfold Elem.show; rewrite display_again by exact Hdo;
        reflexivity).
  rewrite (bind_Ret _ _ s r s)
    by (rewrite call_defined by exact Fc; apply memoize_hit; exact Hc).
  rewrite (bind_Ret _ _ s (Some hc) s)
    by (rewrite call_defined by exact Fm; apply memoize_hit; exact Hm).
  rewrite (bind_Ret _ _ s None s)
    by (cbn [invoke]; unfold Elem.show; rewrite display_again by exact Hdc;
        reflexivity).
  rewrite (bind_Ret _ _ s (iface s) s) by reflexivity.
  rewrite (bind_Ret _ _ s tt _ (trigger_run afterShowEvent s)).
  reflexivity.
Qed.

Lemma close_again s ho hc :
  modalElem_defined s = true -> shadowElem_defined s = true ->
  shadowElem_result s = Some (Some ho) ->
  modalElem_result s = Some (Some hc) ->
  display (elem ho) s = Some (VString "none") ->
  display (elem hc) s = Some (VString "none") ->
  Iface.close s
  = Ret (iface s) (set_timers (fun t => t ++ scheduled afterCloseEvent s) s).
Proof.
  intros Fm Fs Hs Hm Hdo Hdc. unfold Iface.close, returnIface, close.
  rewrite (bind_Ret _ _ s tt
             (set_timers (fun t => t ++ scheduled afterCloseEvent s) s));
    [reflexivity|].
  rewrite (bind_Ret _ _ s (Some ho) s)
    by (rewrite call_defined by exact Fs; apply memoize_hit; exact Hs).
  rewrite (bind_Ret _ _ s None s)
    by (cbn [invoke]; unfold Elem.hide; rewrite display_again by exact Hdo;
        reflexivity).
  rewrite (bind_Ret _ _ s (Some hc) s)
    by (rewrite call_defined by exact Fm; apply memoize_hit; exact Hm).
  rewrite (bind_Ret _ _ s None s)
    by (cbn [invoke]; unfold Elem.hide; rewrite display_again by exact Hdc;
        reflexivity).
  rewrite (bind_Ret _ _ s (iface s) s) by reflexivity.
  apply trigger_run.
Qed.

(** A [show()] that returns has called [closeElem()]. *)
Lemma show_fills n0 s :
  Inv n0 s -> alive s ->
  exists s' rc, Iface.show s = Ret (iface s) s' /\ closeElem_result s' = Some rc.
Proof.
  intros HI Hal.
  destruct (show_run n0 s HI Hal) as (s' & _ & _ & Hshow & _).
  pose proof Hal as (Hfm & Hfs & Hfc).
  destruct (shadowElem_Inv n0 s HI) as (ho & s1 & Hrun1 & HI1 & Hb1 & _).
  set (s2 := Elem.set_style_prop (elem ho) "display" (VString "block") s1).
  assert (HI2 : Inv n0 s2) by (apply Inv_style_prop; exact HI1).
  destruct (closeElem_Inv n0 s2 HI2) as (rc & s3 & Hrun3 & HI3 & Hb3 & Hc3 & _).
  destruct (modalElem_Inv n0 s3 HI3) as (hc & s4 & Hrun4 & _ & _ & _ & _ & Hc4).
  destruct Hb1 as ((_ & _ & _ & _ & _ & _ & Hfm1 & Hfs1 & Hfc1) & _).
  destruct Hb3 as ((_ & _ & _ & _ & _ & _ & Hfm3 & _) & _).
  exists s', rc. split; [exact Hshow|].
  unfold Iface.show in Hshow.
  rewrite (bind_Ret _ _ s (Some ho) s1) in Hshow
    by (rewrite call_defined by exact Hfs; exact Hrun1).
  rewrite (bind_Ret _ _ s1 None s2) in Hshow by reflexivity.
  rewrite (bind_Ret _ _ s2 rc s3) in Hshow
    by (rewrite call_defined by (cbn; congruence); exact Hrun3).
  rewrite (bind_Ret _ _ s3 (Some hc) s4) in Hshow
    by (rewrite call_defined; [exact Hrun4|];
        rewrite Hfm3; change (modalElem_defined s2) with (modalElem_defined s1);
        congruence).
  set (s5 := Elem.set_style_prop (elem hc) "display" (VString "block") s4)
    in *.
  rewrite (bind_Ret _ _ s4 None s5) in Hshow by reflexivity.
  rewrite (bind_Ret _ _ s5 (iface s5) s5) in Hshow by reflexivity.
  rewrite (bind_Ret _ _ s5 tt _ (trigger_run afterShowEvent s5)) in Hshow.
  injection Hshow as _ <-.
  change (closeElem_result s4 = Some rc). congruence.
Qed.

Lemma accessor_Ret builder s h s' :
  builder s = Ret (Some h) s' -> buildElemAccessor builder s = Ret (elem h) s'.
Proof. intros H. unfold buildElemAccessor. rewrite (bind_Ret _ _ _ _ _ H). reflexivity. Qed.

(** ** The first [show()] *)





(** ** The further properties *)





(** X3: [destroy()] of a handle whose element is a child of
    [document.body] takes it out of the body and leaves the element and
    the rest of the document as they are; a second [destroy()] raises
    NotFoundError, and so does [destroy()] on a handle made by
    [child()]. *)
Theorem X3_element_destroy (h : handle) (s : state) :
  elem h ∈ body s -> length (dom s) ∉ body s ->
  (exists s',
      Elem.destroy h s = Ret None s' /\
      (forall i, i ∈ body s' <-> i ∈ body s /\ i <> elem h) /\
      dom s' = dom s /\
      Elem.destroy h s' = Throw NotFoundError s') /\
  exists hc sc,
    Elem.child h s = Ret (Some hc) sc /\
    Elem.destroy hc sc = Throw NotFoundError sc.
Proof.
  intros Hin Hfresh. split.
  - eexists. split.
    { unfold Elem.destroy. rewrite decide_True by exact Hin. reflexivity. }
    proj. split.
    { intros i. rewrite list_elem_of_filter. tauto. }
    split; [reflexivity|].
    unfold Elem.destroy. proj. rewrite decide_False; [reflexivity|].
    rewrite list_elem_of_filter. tauto.
  - eexists _, _. split; [reflexivity|].
    unfold Elem.destroy, Elem.appendChild. proj.
    rewrite decide_False by exact Hfresh. reflexivity.
Qed.

Lemma X3_element_destroy_witness :
  (elem (Handle 0) ∈ body (steps hi [OpShow])) /\
  (length (dom (steps hi [OpShow])) ∉ body (steps hi [OpShow])) /\
  Elem.destroy (Handle 2) (steps hi [OpShow])
  = Throw NotFoundError (steps hi [OpShow]) /\
  exists s',
    Elem.destroy (Handle 0) (steps hi [OpShow]) = Ret None s' /\
    Elem.destroy (Handle 0) s' = Throw NotFoundError s'.
Proof.
  assert (H1 : elem (Handle 0) ∈ body (steps hi [OpShow]))
    by (vm_compute; exact (bool_decide_eq_true_1 (0 ∈ [0; 1]) eq_refl)).
  assert (H2 : length (dom (steps hi [OpShow])) ∉ body (steps hi [OpShow]))
    by (vm_compute; exact (bool_decide_eq_true_1 (3 ∉ [0; 1]) eq_refl)).
  split; [exact H1|]. split; [exact H2|].
  split; [vm_compute; reflexivity|].
  destruct (proj1 (X3_element_destroy (Handle 0) (steps hi [OpShow]) H1 H2))
    as (s' & Ha & _ & _ & Hb).
  exists s'. split; assumption.
Defined.









(** X8: each accessor returns the element of its part, building it first
    when it is not built: [modalElem()] the box of class [pico-content],
    [overalElem()] the overlay of class [pico-overlay], neither of which
    raises; [closeElem()], when it returns, the button of class
    [pico-close]. *)
Theorem X8_accessors (arg : argument) (p : page) (ops : list op) :
  let s := steps (picoModal arg p) ops in
  (exists id s' e,
      Iface.modalElem s = Ret id s' /\
      modalElem_result s' = Some (Some (Handle id)) /\
      dom s' !! id = Some e /\ className e = "pico-content") /\
  (exists id s' e,
      Iface.overalElem s = Ret id s' /\
      shadowElem_result s' = Some (Some (Handle id)) /\
      dom s' !! id = Some e /\ className e = "pico-overlay") /\
  (forall id s',
      Iface.closeElem s = Ret id s' ->
      exists e,
        closeElem_result s' = Some (Some (Handle id)) /\
        dom s' !! id = Some e /\ className e = "pico-close").
Proof.
  intros s. pose proof (Inv_reachable arg p ops) as HI. fold s in HI.
  split; [|split].
  - destruct (modalElem_Inv _ s HI) as (h & s' & Hrun & HI' & _ & Hm & _).
    destruct (inv_content _ _ HI' _ Hm) as (h' & e & [= <-] & Hd & Hc).
    exists (elem h), s', e. split; [apply accessor_Ret; exact Hrun|].
    destruct h. auto.
  - destruct (shadowElem_Inv _ s HI) as (h & s' & Hrun & HI' & _ & Hs & _).
    destruct (inv_overlay _ _ HI' _ Hs) as (h' & e & [= <-] & Hd & Hc & _).
    exists (elem h), s', e. split; [apply accessor_Ret; exact Hrun|].
    destruct h. auto.
  - intros id s' Hacc.
    destruct (closeElem_Inv _ s HI) as (r & s'' & Hrun & HI' & _ & Hc & _).
    unfold Iface.closeElem, buildElemAccessor in Hacc.
    rewrite (bind_Ret _ _ _ _ _ Hrun) in Hacc.
    destruct r as [h|]; [|discriminate Hacc]. injection Hacc as <- <-.
    destruct (inv_close _ _ HI' _ Hc) as (_ & e & _ & _ & Hd & Hcl & _).
    exists e. destruct h. auto.
Qed.

Lemma X8_accessors_witness :
  Iface.closeElem (steps hi [OpClose])
  = Ret 2 (steps hi [OpClose; OpCloseElem]) /\
  exists e,
    closeElem_result (steps hi [OpClose; OpCloseElem])
    = Some (Some (Handle 2)) /\
    dom (steps hi [OpClose; OpCloseElem]) !! 2 = Some e /\
    className e = "pico-close".
Proof.
  assert (H : Iface.closeElem (steps hi [OpClose])
              = Ret 2 (steps hi [OpClose; OpCloseElem]))
    by (vm_compute; reflexivity).
  split; [exact H|].
  exact (proj2 (proj2 (X8_accessors (ArgString "<p>Hi</p>") blank [OpClose]))
               2 _ H).
Defined.

(** X9: creating a modal and registering callbacks builds nothing: the
    document, the heap and the timers are those of the page, and no
    builder has run. *)
Theorem X9_registration_lazy (arg : argument) (p : page) (ops : list op) :
  forallb is_registration ops = true ->
  let s := steps (picoModal arg p) ops in
  dom s = page_dom p /\ body s = page_body p /\ heap s = page_heap p /\
  timers s = page_timers p /\ trace s = [] /\ forall q, cell q s = None.
Proof.
  intros H s. subst s.
  assert (G : forall s0,
             dom (steps s0 ops) = dom s0 /\ body (steps s0 ops) = body s0 /\
             heap (steps s0 ops) = heap s0 /\
             timers (steps s0 ops) = timers s0 /\
             trace (steps s0 ops) = trace s0 /\
             forall q, cell q (steps s0 ops) = cell q s0).
  { induction ops as [|o ops IH]; intros s0.
    - repeat split.
    - cbn [forallb] in H. apply andb_true_iff in H. destruct H as [Ho Hops].
      cbn [steps fold_left].
      destruct (IH Hops (step s0 o)) as (H1 & H2 & H3 & H4 & H5 & H6).
      destruct (registration_step s0 o Ho) as (G1 & G2 & G3 & G4 & G5 & G6).
      unfold steps in *.
      repeat split; try congruence. }
  destruct (G (picoModal arg p)) as (H1 & H2 & H3 & H4 & H5 & H6).
  repeat split; try assumption. intros q. rewrite H6. destruct q; reflexivity.
Qed.

Lemma X9_registration_lazy_witness :
  forallb is_registration [OpAfterShow 1; OpAfterCreate 2; OpAfterShow 1] = true
  /\ dom (steps hi [OpAfterShow 1; OpAfterCreate 2; OpAfterShow 1]) = [] /\
  afterShow_callbacks (steps hi [OpAfterShow 1; OpAfterCreate 2; OpAfterShow 1])
  = [1; 1].
Proof.
  split; [reflexivity|].
  split; [|reflexivity].
  exact (proj1 (X9_registration_lazy (ArgString "<p>Hi</p>") blank
                  [OpAfterShow 1; OpAfterCreate 2; OpAfterShow 1] eq_refl)).
Defined.


(** X11: the modal adds one element per part it has built, at most three,
    each after the elements of the page, and no two parts share one. *)
Theorem X11_elements_created (arg : argument) (p : page) (ops : list op) :
  let s := steps (picoModal arg p) ops in
  length (dom s) = length (page_dom p) + elements_made s /\
  elements_made s <= 3 /\
  (closeButton (options s) = Some false -> elements_made s <= 2) /\
  (forall q h, cell q s = Some (Some h) ->
               length (page_dom p) <= elem h < length (dom s)) /\
  (forall q q' h h', q <> q' ->
      cell q s = Some (Some h) -> cell q' s = Some (Some h') ->
      elem h <> elem h').
Proof.
  intros s. destruct (Own_reachable arg p ops) as [HI HK].
  fold s in HI, HK.
  split; [apply (kept_count _ _ _ _ _ _ HK)|].
  assert (H3 : elements_made s <= 3).
  { unfold elements_made.
    pose proof (made_le (shadowElem_result s)).
    pose proof (made_le (modalElem_result s)).
    pose proof (made_le (closeElem_result s)). lia. }
  split; [exact H3|]. split.
  { intros Hcb. apply enabled_false in Hcb. unfold elements_made.
    pose proof (made_le (shadowElem_result s)).
    pose proof (made_le (modalElem_result s)).
    assert (made (closeElem_result s) = 0); [|lia].
    destruct (closeElem_result s) as [[h|]|] eqn:Hc; try reflexivity.
    destruct (inv_close _ _ HI _ Hc) as [Hen _]. congruence. }
  split; [apply (kept_handles _ _ _ _ _ _ HK)|].
  intros q q' h h'. apply (distinct_parts _ s q q' h h' HI).
Qed.

(** X12: until [destroy()], the overlay and the content box, once built,
    are children of [document.body], and the three variables of the
    closure hold their functions. *)
Theorem X12_attached (arg : argument) (p : page) (ops : list op) (h : handle) :
  OpDestroy ∉ ops ->
  let s := steps (picoModal arg p) ops in
  shadowElem_result s = Some (Some h) \/ modalElem_result s = Some (Some h) ->
  elem h ∈ body s /\ length (page_dom p) <= elem h /\
  exists e, dom s !! elem h = Some e.
Proof.
  intros Hops s Hh.
  assert (HO : Own (length (page_dom p)) (page_dom p) (page_body p) true false s).
  { apply own_steps; [auto|discriminate|apply Own_picoModal]. }
  destruct HO as [HI HK].
  destruct (kept_attached _ _ _ _ _ _ HK eq_refl) as [_ Hat].
  split; [apply Hat; exact Hh|].
  assert (Hb : length (page_dom p) <= elem h < length (dom s)).
  { destruct Hh as [Hh|Hh].
    - apply (kept_handles _ _ _ _ _ _ HK Overlay). exact Hh.
    - apply (kept_handles _ _ _ _ _ _ HK Content). exact Hh. }
  split; [lia|]. apply lookup_lt_is_Some_2. lia.
Qed.

Lemma X12_attached_witness :
  (OpDestroy ∉ [OpClose; OpShow]) /\
  elem (Handle 1) ∈ body (steps hi [OpClose; OpShow]).
Proof.
  assert (H : OpDestroy ∉ [OpClose; OpShow])
    by exact (bool_decide_eq_true_1 (OpDestroy ∉ [OpClose; OpShow]) eq_refl).
  split; [exact H|].
  assert (Hm : modalElem_result
                 (steps (picoModal (ArgString "<p>Hi</p>") blank)
                        [OpClose; OpShow])
               = Some (Some (Handle 1))) by (vm_compute; reflexivity).
  exact (proj1 (X12_attached (ArgString "<p>Hi</p>") blank [OpClose; OpShow]
                  (Handle 1) H (or_intror Hm))).
Defined.

(** X13: until [show()] or the accessor [closeElem()] is called, the close
    button is not built. *)
Theorem X13_close_button_lazy (arg : argument) (p : page) (ops : list op) :
  OpShow ∉ ops -> OpCloseElem ∉ ops ->
  let s := steps (picoModal arg p) ops in
  closeElem_result s = None /\ built CloseButton s = 0 /\
  length (dom s) <= length (page_dom p) + 2.
Proof.
  intros H1 H2 s.
  assert (HO : Own (length (page_dom p)) (page_dom p) (page_body p) false true s).
  { apply own_steps; [discriminate|auto|apply Own_picoModal]. }
  destruct HO as [HI HK].
  pose proof (kept_unshown _ _ _ _ _ _ HK eq_refl) as Hc.
  split; [exact Hc|]. split.
  - rewrite (inv_trace _ _ HI CloseButton). cbn [cell]. rewrite Hc. reflexivity.
  - rewrite (kept_count _ _ _ _ _ _ HK). unfold elements_made. rewrite Hc.
    pose proof (made_le (shadowElem_result s)).
    pose proof (made_le (modalElem_result s)). cbn [made]. lia.
Qed.

Lemma X13_close_button_lazy_witness :
  (OpShow ∉ [OpClose; OpModalElem; OpClick 0; OpDestroy]) /\
  (OpCloseElem ∉ [OpClose; OpModalElem; OpClick 0; OpDestroy]) /\
  closeElem_result (steps hi [OpClose; OpModalElem; OpClick 0; OpDestroy])
  = None.
Proof.
  assert (H1 : OpShow ∉ [OpClose; OpModalElem; OpClick 0; OpDestroy])
    by exact (bool_decide_eq_true_1
                (OpShow ∉ [OpClose; OpModalElem; OpClick 0; OpDestroy]) eq_refl).
  assert (H2 : OpCloseElem ∉ [OpClose; OpModalElem; OpClick 0; OpDestroy])
    by exact (bool_decide_eq_true_1
                (OpCloseElem ∉ [OpClose; OpModalElem; OpClick 0; OpDestroy])
                eq_refl).
  split; [exact H1|]. split; [exact H2|].
  exact (proj1 (X13_close_button_lazy (ArgString "<p>Hi</p>") blank
                  [OpClose; OpModalElem; OpClick 0; OpDestroy] H1 H2)).
Defined.

(** X14: a second [show()] in a row, and a second [close()], change nothing
    but the timer queue, where the callbacks of the channel are scheduled
    once more. *)
Theorem X14_show_twice (arg : argument) (p : page) (ops : list op) :
  OpDestroy ∉ ops ->
  (let s := steps (picoModal arg p) (ops ++ [OpShow]) in
   Iface.show s
   = Ret (iface s)
         (set_timers (fun t => t ++ scheduled afterShowEvent s) s)) /\
  (let s := steps (picoModal arg p) (ops ++ [OpClose]) in
   Iface.close s
   = Ret (iface s)
         (set_timers (fun t => t ++ scheduled afterCloseEvent s) s)).
Proof.
  intros Hops.
  pose proof (Inv_reachable arg p ops) as HI.
  pose proof (reachable_alive arg p ops Hops) as Hal.
  split; intros s; subst s; rewrite steps_app; cbn [steps fold_left step].
  - destruct (show_run _ _ HI Hal)
      as (s' & ho & hc & Hshow & _ & Hv & Hs & Hm & Hdo & Hdc & _).
    destruct (show_fills _ _ HI Hal) as (s'' & rc & Hshow' & Hc).
    rewrite Hshow in Hshow'. injection Hshow' as <-.
    rewrite Hshow. cbn [state_of].
    apply (show_again s' ho hc rc); try assumption.
    apply (same_vars_alive _ _ Hv Hal).
  - destruct Hal as (Fm & Fs & Fc).
    destruct (close_run _ _ HI Fm Fs)
      as (s' & ho & hc & Hclose & _ & Hv & Hs & Hm & Hdo & Hdc & _).
    assert (Hc : Iface.close (steps (picoModal arg p) ops)
                 = Ret (iface (steps (picoModal arg p) ops)) s').
    { unfold Iface.close, returnIface. rewrite (bind_Ret _ _ _ _ _ Hclose).
      unfold read. f_equal. apply Hv. }
    rewrite !Hc. cbn [state_of].
    destruct Hv as (_ & _ & _ & _ & _ & _ & Gm & Gs & _).
    apply (close_again s' ho hc); congruence.
Qed.

Lemma X14_show_twice_witness :
  (OpDestroy ∉ [OpAfterShow 6]) /\
  let s := steps (picoModal (ArgString "<p>Hi</p>") blank)
                 ([OpAfterShow 6] ++ [OpShow]) in
  Iface.show s
  = Ret (iface s) (set_timers (fun t => t ++ scheduled afterShowEvent s) s).
Proof.
  assert (H : OpDestroy ∉ [OpAfterShow 6])
    by exact (bool_decide_eq_true_1 (OpDestroy ∉ [OpAfterShow 6]) eq_refl).
  split; [exact H|].
  exact (proj1 (X14_show_twice (ArgString "<p>Hi</p>") blank [OpAfterShow 6] H)).
Defined.

(** X15: [destroy()] on a modal that was not destroyed returns; it builds
    the content box and the overlay if they were not built, takes the two
    out of [document.body] and nothing else, leaves the pending timers
    pending, and does not build the close button. *)
Theorem X15_destroy_detaches (arg : argument) (p : page) (ops : list op) :
  OpDestroy ∉ ops ->
  let s := steps (picoModal arg p) ops in
  exists s1 hm ho,
    Iface.destroy s = Ret tt s1 /\
    modalElem_result s1 = Some (Some hm) /\
    shadowElem_result s1 = Some (Some ho) /\
    closeElem_result s1 = closeElem_result s /\
    (forall i, i ∈ body s1 <-> i ∈ body s /\ i <> elem hm /\ i <> elem ho) /\
    timers s1 = timers s ++ created s s1 /\
    invoked s1 = invoked s /\
    modalElem_defined s1 = false /\ shadowElem_defined s1 = false /\
    closeElem_defined s1 = false.
Proof.
  intros Hops s.
  apply (destroy_run (length (page_dom p)) (page_dom p) (page_body p)).
  apply own_steps; [auto|discriminate|apply Own_picoModal].
Qed.

Lemma X15_destroy_detaches_witness :
  (OpDestroy ∉ [OpAfterCreate 4; OpAfterShow 5]) /\
  exists s1 hm ho,
    Iface.destroy (steps hi [OpAfterCreate 4; OpAfterShow 5]) = Ret tt s1 /\
    modalElem_result s1 = Some (Some hm) /\
    shadowElem_result s1 = Some (Some ho).
Proof.
  assert (H : OpDestroy ∉ [OpAfterCreate 4; OpAfterShow 5])
    by exact (bool_decide_eq_true_1
                (OpDestroy ∉ [OpAfterCreate 4; OpAfterShow 5]) eq_refl).
  split; [exact H|].
  destruct (X15_destroy_detaches (ArgString "<p>Hi</p>") blank
              [OpAfterCreate 4; OpAfterShow 5] H)
    as (s1 & hm & ho & H1 & H2 & H3 & _).
  exists s1, hm, ho. auto.
Defined.

(** X16: the three variables of the closure hold their functions until
    [destroy()] is called, and [undefined] from the first call on: no
    [destroy()] stops half-way. *)
Theorem X16_destroyed_for_good (arg : argument) (p : page) (ops : list op) :
  let s := steps (picoModal arg p) ops in
  (OpDestroy ∉ ops -> alive s) /\
  (OpDestroy ∈ ops ->
   modalElem_defined s = false /\ shadowElem_defined s = false /\
   closeElem_defined s = false).
Proof.
  intros s. split; [apply reachable_alive|].
  intros Hin. subst s.
  destruct (list_elem_of_split_l _ _ Hin) as (l1 & l2 & -> & Hnot).
  rewrite steps_app. cbn [steps fold_left step].
  assert (HO : Own (length (page_dom p)) (page_dom p) (page_body p) true false
                   (steps (picoModal arg p) l1)).
  { apply own_steps; [auto|discriminate|apply Own_picoModal]. }
  destruct (destroy_run _ _ _ _ HO)
    as (s1 & hm & ho & Hrun & _ & _ & _ & _ & _ & _ & F1 & F2 & F3).
  rewrite !Hrun. cbn [state_of].
  assert (HI1 : Inv (length (page_dom p)) s1).
  { pose proof (Inv_reachable arg p (l1 ++ [OpDestroy])) as H.
    rewrite steps_app in H. cbn [steps fold_left step] in H.
    rewrite Hrun in H. exact H. }
  destruct (steps_good _ s1 l2 HI1) as [_ (_ & _ & _ & _ & _ & G1 & G2 & G3)].
  unfold steps in *. auto.
Qed.

Lemma X16_destroyed_for_good_witness :
  (OpDestroy ∈ [OpAfterShow 3; OpDestroy; OpShow; OpCloseElem]) /\
  closeElem_defined (steps hi [OpAfterShow 3; OpDestroy; OpShow; OpCloseElem])
  = false.
Proof.
  assert (H : OpDestroy ∈ [OpAfterShow 3; OpDestroy; OpShow; OpCloseElem])
    by exact (bool_decide_eq_true_1
                (OpDestroy ∈ [OpAfterShow 3; OpDestroy; OpShow; OpCloseElem])
                eq_refl).
  split; [exact H|].
  exact (proj2 (proj2 (proj2 (X16_destroyed_for_good (ArgString "<p>Hi</p>") blank
                  [OpAfterShow 3; OpDestroy; OpShow; OpCloseElem]) H))).
Defined.

(** X17: a callback given to [afterCreate] once the content box is built is
    never invoked on its account: if it is neither pending nor a callback
    of [afterShow] or [afterClose], it is invoked no more, whatever is
    called next. *)
Theorem X17_afterCreate_late (arg : argument) (p : page) (ops ops' : list op)
    (cb : callback) :
  let s := steps (picoModal arg p) ops in
  modalElem_result s <> None ->
  cb ∉ afterShow_callbacks s -> cb ∉ afterClose_callbacks s ->
  cb ∉ (timers s).*1 ->
  OpAfterShow cb ∉ ops' -> OpAfterClose cb ∉ ops' ->
  let s' := steps s (OpAfterCreate cb :: ops') in
  cb ∈ afterCreate_callbacks (steps s [OpAfterCreate cb]) /\
  calls cb s' = calls cb s /\ cb ∉ (timers s').*1.
Proof.
  intros s Hm Hs Hc Ht Hos Hoc s'.
  split.
  { cbn. apply elem_of_app. right. apply list_elem_of_singleton. reflexivity. }
  assert (HL : Inv (length (page_dom p)) s' /\ Late cb (calls cb s) s').
  { apply late_steps.
    - intros Hin. apply elem_of_cons in Hin.
      destruct Hin as [Hin|Hin]; [discriminate Hin|exact (Hos Hin)].
    - intros Hin. apply elem_of_cons in Hin.
      destruct Hin as [Hin|Hin]; [discriminate Hin|exact (Hoc Hin)].
    - split; [apply Inv_reachable|]. split; auto. }
  destruct HL as [_ [_ _ _ H4 H5]]. split; assumption.
Qed.

Lemma X17_afterCreate_late_witness :
  let s := steps hi [OpShow; OpFire] in
  modalElem_result s <> None /\
  calls 7 (steps s [OpAfterCreate 7; OpShow; OpFire; OpClose; OpFire; OpFire])
  = calls 7 s.
Proof.
  intros s.
  assert (Hm : modalElem_result s <> None) by (vm_compute; discriminate).
  split; [exact Hm|].
  refine (proj1 (proj2 (X17_afterCreate_late (ArgString "<p>Hi</p>") blank
                   [OpShow; OpFire] [OpShow; OpFire; OpClose; OpFire; OpFire]
                   7 Hm _ _ _ _ _))).
  - vm_compute. exact (bool_decide_eq_true_1 (7 ∉ []) eq_refl).
  - vm_compute. exact (bool_decide_eq_true_1 (7 ∉ []) eq_refl).
  - vm_compute. exact (bool_decide_eq_true_1 (7 ∉ []) eq_refl).
  - exact (bool_decide_eq_true_1
             (OpAfterShow 7 ∉ [OpShow; OpFire; OpClose; OpFire; OpFire]) eq_refl).
  - exact (bool_decide_eq_true_1
             (OpAfterClose 7 ∉ [OpShow; OpFire; OpClose; OpFire; OpFire]) eq_refl).
Defined.


